(** * MCP-Agent: crawler, chunker, embedder and RAG retrieval

    A shallow embedding of the ingestion and retrieval pipeline of
    [src/services] (WebCrawlerService, VectorService, RAGService) and the
    properties established about it.

    Conventions.
    - A JavaScript string is a sequence of code units; [string] stands for
      it, one [ascii] per code unit (code units 0..255).
    - JavaScript integers are [Z]; list lengths and positions are [nat]
      where the source can only hold a non-negative count.
    - Similarity scores are rationals ([Q]): the real-number reading of the
      IEEE doubles of the source.
    - A loop whose termination depends on its arguments takes a [fuel];
      [Diverge]/[None] is "the fuel ran out", and every result about a return
      value is stated with a fuel that is shown to suffice. *)

From Stdlib Require Import ZArith QArith Qminmax List String Ascii Lia Permutation.
From stdpp Require Import gmap strings list pretty.
From Stdlib Require Import Sorted Qround.

Local Open Scope string_scope.
Local Open Scope list_scope.
Local Open Scope Z_scope.

(** ** JavaScript string and array primitives used by the services *)

Module JS.

(** [\s] of a regular expression and the characters removed by [trim()]:
    TAB, LF, VT, FF, CR, SPACE and NBSP among the code units below 256. *)
Definition is_space (c : ascii) : bool :=
  let n := N_of_ascii c in
  ((9 <=? n) && (n <=? 13) || (n =? 32) || (n =? 160))%N.

(** [s.split(/\s+/)]: maximal whitespace runs separate the fields; a run at
    either end leaves an empty field there, and the empty string gives one
    empty field. *)
Fixpoint split_ws (s : string) : list string :=
  match s with
  | EmptyString => [""]
  | String c s' =>
      if is_space c then
        match s' with
        | String c' _ => if is_space c' then split_ws s' else "" :: split_ws s'
        | EmptyString => "" :: split_ws s'
        end
      else
        match split_ws s' with
        | h :: t => String c h :: t
        | [] => [String c ""]
        end
  end.

Fixpoint trimStart (s : string) : string :=
  match s with
  | String c s' => if is_space c then trimStart s' else s
  | EmptyString => ""
  end.

(** Removes trailing whitespace: a character is kept when something
    non-blank follows it or it is itself non-blank. *)
Fixpoint trimEnd (s : string) : string :=
  match s with
  | EmptyString => ""
  | String c s' =>
      match trimEnd s' with
      | EmptyString => if is_space c then "" else String c ""
      | r => String c r
      end
  end.

Definition trim (s : string) : string := trimEnd (trimStart s).

(** [xs.join(sep)] *)
Definition join (sep : string) (xs : list string) : string := String.concat sep xs.

(** Truthiness of a string: non-empty. *)
Definition truthy (s : string) : bool :=
  match s with EmptyString => false | _ => true end.

(** Relative index of [Array.prototype.slice] / [String.prototype.slice]:
    a negative index counts from the end, and the result is clamped to
    [0, len]. *)
Definition rel_index (len : nat) (k : Z) : nat :=
  if k <? 0 then Z.to_nat (Z.max (Z.of_nat len + k) 0)
  else Nat.min (Z.to_nat k) len.

(** [xs.slice(from, to)] *)
Definition slice {A} (xs : list A) (from to : Z) : list A :=
  let a := rel_index (length xs) from in
  let b := rel_index (length xs) to in
  take (b - a) (drop a xs).

(** [s.substring(0, n)] *)
Fixpoint substring0 (n : Z) (s : string) : string :=
  match s with
  | String c s' => if 0 <? n then String c (substring0 (n - 1) s') else ""
  | EmptyString => ""
  end.

(** [s.slice(-n)]: the last [n] code units (all of [s] when it is shorter). *)
Definition lastChars (n : nat) (s : string) : string :=
  string_of_list_ascii (drop (String.length s - n) (list_ascii_of_string s)).

(** [s.includes(p)] *)
Fixpoint includes (s p : string) : bool :=
  String.prefix p s ||
  match s with
  | String _ s' => includes s' p
  | EmptyString => false
  end.

(** [s.split('#')[0]]: the part before the first [#]. *)
Fixpoint beforeHash (s : string) : string :=
  match s with
  | EmptyString => ""
  | String c s' => if Ascii.eqb c "#" then "" else String c (beforeHash s')
  end.

Definition is_alnum (c : ascii) : bool :=
  let n := N_of_ascii c in
  ((48 <=? n) && (n <=? 57) || (65 <=? n) && (n <=? 90) || (97 <=? n) && (n <=? 122))%N.

(** [s.replace(/[^...]/g, '_')] for a character class given by [keep]. *)
Fixpoint replaceOutside (keep : ascii -> bool) (s : string) : string :=
  match s with
  | EmptyString => ""
  | String c s' => String (if keep c then c else "_"%char) (replaceOutside keep s')
  end.

(** [[...new Set(xs)]]: first occurrences, in order. *)
Fixpoint uniq (seen : gset string) (xs : list string) : list string :=
  match xs with
  | [] => []
  | x :: xs' =>
      if decide (x ∈ seen) then uniq seen xs'
      else x :: uniq ({[x]} ∪ seen) xs'
  end.

(** Every code unit of [s] satisfies [p]. *)
Definition allChars (p : ascii -> bool) (s : string) : Prop :=
  Forall (fun c => p c = true) (list_ascii_of_string s).

(** [blank s]: every code unit of [s] is whitespace. *)
Fixpoint blank (s : string) : bool :=
  match s with
  | EmptyString => true
  | String c s' => is_space c && blank s'
  end.

(** [spaceless s]: no code unit of [s] is whitespace. *)
Fixpoint spaceless (s : string) : bool :=
  match s with
  | EmptyString => true
  | String c s' => negb (is_space c) && spaceless s'
  end.

End JS.

(** ** Errors and outcomes *)

(** A thrown value: a plain [Error] or the application's [AppError] with its
    HTTP status code. *)
Inductive Exn : Type :=
| PlainError (message : string)
| AppError (message : string) (statusCode : Z).

(** The result of running a fallible operation. [Diverge]: the model's fuel
    ran out (the source loop would still be running). *)
Inductive Outcome (A : Type) : Type :=
| Return (a : A)
| Throw (e : Exn)
| Diverge.
Arguments Return {A} a.
Arguments Throw {A} e.
Arguments Diverge {A}.

(** The NotFound kind of the error taxonomy is an [AppError] with status 404. *)
Definition isNotFound (e : Exn) : bool :=
  match e with
  | AppError _ 404 => true
  | _ => false
  end.

(** ** Chunker (VectorService.chunkText) *)

Module Chunker.

(** The body of the [for] loop of [chunkText], from index [i] with the
    chunks collected so far. *)
Fixpoint chunkLoop (fuel : nat) (words : list string) (chunkSize overlap : Z)
    (i : Z) (chunks : list string) : option (list string) :=
  match fuel with
  | O => None
  | S fuel' =>
      if i <? Z.of_nat (length words) then
        let chunk := JS.join " " (JS.slice words i (i + chunkSize)) in
        let chunks' :=
          if JS.truthy (JS.trim chunk) then chunks ++ [JS.trim chunk] else chunks in
        chunkLoop fuel' words chunkSize overlap (i + (chunkSize - overlap)) chunks'
      else Some chunks
  end.

(** [chunkText]: the chunks the loop kept, or the whole text when it kept
    none; [None] when the loop does not end within the fuel. *)
Definition chunkText (fuel : nat) (text : string) (chunkSize overlap : Z)
    : option (list string) :=
  match chunkLoop fuel (JS.split_ws text) chunkSize overlap 0 [] with
  | Some chunks =>
      Some (if (0 <? Z.of_nat (length chunks)) then chunks else [text])
  | None => None
  end.

(** The chunk list after the window at [i] has been looked at: one turn
    of the loop body. *)
Definition pushWindow (words : list string) (chunkSize i : Z) (chunks : list string)
    : list string :=
  if JS.truthy (JS.trim (JS.join " " (JS.slice words i (i + chunkSize))))
  then chunks ++ [JS.trim (JS.join " " (JS.slice words i (i + chunkSize)))]
  else chunks.

(** The chunk of the [k]-th window: [chunkSize] words from word
    [k * (chunkSize - overlap)] on, joined with single spaces. *)
Definition windowChunk (words : list string) (chunkSize overlap : Z) (k : nat) : string :=
  JS.trim (JS.join " " (JS.slice words (Z.of_nat k * (chunkSize - overlap))
                          (Z.of_nat k * (chunkSize - overlap) + chunkSize))).

End Chunker.

(** ** The URL interface ([new URL(...)] of the platform) *)

(** The parts of a parsed URL the services read. [base] is the part of the
    serialisation before the path (scheme, credentials, host and port). *)
Record URL : Type := mkURL {
  base : string;
  hostname : string;
  pathname : string;
  search : string;
  hash : string
}.

(** [u.href] *)
Definition href (u : URL) : string :=
  base u +:+ pathname u +:+ search u +:+ hash u.

(** [u.hash = ''] *)
Definition clearHash (u : URL) : URL :=
  {| base := base u; hostname := hostname u; pathname := pathname u;
     search := search u; hash := "" |}.

(** The URL parser is a collaborator: [parseURL s] is [new URL(s)], [None]
    when the constructor throws; [resolveURL h b] is [new URL(h, b)]. *)
Class UrlApi : Type := {
  parseURL : string -> option URL;
  resolveURL : string -> string -> option URL
}.

(** ** Crawler (WebCrawlerService) *)

Module Crawler.

Record Heading : Type := {
  level : Z;
  text : string;
  id : option string
}.

(** The metadata of a page that the crawl loop and the chunker read
    (keywords, dates and images are carried along by the source and read by
    neither). *)
Record PageMetadata : Type := {
  description : string;
  author : string;
  canonical : string;
  language : string;
  contentType : string;
  wordCount : Z;
  links_internal : list string;
  links_external : list string;
  headings : list Heading
}.

Record CrawledPage : Type := {
  url : string;
  title : string;
  content : string;
  metadata : PageMetadata;
  crawledAt : string;
  status : Z;
  depth : Z
}.

(** An entry of the error list: [{ url, error, status? }]. *)
Record CrawlError : Type := {
  err_url : string;
  err_error : string;
  err_status : option Z
}.

(** [Math.max(...xs)] of integers: [-Infinity] for no argument. *)
Inductive JSNumber : Type :=
| NegInfinity
| Num (z : Z).

Definition Math_max (xs : list Z) : JSNumber :=
  fold_left (fun acc x =>
               match acc with
               | NegInfinity => Num x
               | Num a => Num (Z.max a x)
               end) xs NegInfinity.

Record CrawlSummary : Type := {
  totalPages : Z;
  totalWords : Z;
  crawlDepth : JSNumber;
  uniqueDomains : list string;
  errors : list CrawlError
}.

Record CrawlResult : Type := {
  success : bool;
  message : string;
  pages : list CrawledPage;
  summary : CrawlSummary
}.

Record CrawlRequest : Type := {
  req_url : string;
  req_maxDepth : option Z;
  req_maxPages : option Z;
  req_delay : option Z;
  req_includePatterns : option (list string);
  req_excludePatterns : option (list string);
  req_followExternalLinks : option bool
}.

Record WebCrawlerConfig : Type := {
  maxDepth : Z;
  maxPages : Z;
  delay : Z;
  timeout : Z;
  userAgent : string;
  allowedDomains : list string;
  excludePatterns : list string;
  includePatterns : list string;
  followExternalLinks : bool;
  respectRobotsTxt : bool;
  maxConcurrent : Z
}.

Definition defaultConfig : WebCrawlerConfig := {|
  maxDepth := 3;
  maxPages := 50;
  delay := 1000;
  timeout := 30000;
  userAgent := "ProfessionalWebCrawler/1.0 (+https://example.com/bot)";
  allowedDomains := [];
  excludePatterns :=
    ["/search?"; "/404"; "/login"; "/register"; "/admin"; ".pdf"; ".doc";
     ".docx"; ".xls"; ".xlsx"; ".ppt"; ".pptx"; ".zip"; ".rar"; ".tar"; ".gz";
     ".jpg"; ".jpeg"; ".png"; ".gif"; ".svg"; ".ico"; ".css"; ".js"; ".woff";
     ".woff2"; ".ttf"; ".eot"];
  includePatterns := [];
  followExternalLinks := false;
  respectRobotsTxt := true;
  maxConcurrent := 3
|}.

(** [x || d] for an optional number: [undefined] and [0] give the default. *)
Definition numOr (x : option Z) (d : Z) : Z :=
  match x with
  | Some v => if v =? 0 then d else v
  | None => d
  end.

Definition mergeConfig (request : CrawlRequest) : WebCrawlerConfig := {|
  maxDepth := numOr (req_maxDepth request) (maxDepth defaultConfig);
  maxPages := numOr (req_maxPages request) (maxPages defaultConfig);
  delay := numOr (req_delay request) (delay defaultConfig);
  timeout := timeout defaultConfig;
  userAgent := userAgent defaultConfig;
  allowedDomains := allowedDomains defaultConfig;
  excludePatterns := default (excludePatterns defaultConfig) (req_excludePatterns request);
  includePatterns := default (includePatterns defaultConfig) (req_includePatterns request);
  followExternalLinks :=
    default (followExternalLinks defaultConfig) (req_followExternalLinks request);
  respectRobotsTxt := respectRobotsTxt defaultConfig;
  maxConcurrent := maxConcurrent defaultConfig
|}.

(** [config.allowedDomains = [baseDomain]] when none was given. *)
Definition withAllowedDomains (config : WebCrawlerConfig) (baseDomain : string)
    : WebCrawlerConfig :=
  {| maxDepth := maxDepth config; maxPages := maxPages config;
     delay := delay config; timeout := timeout config;
     userAgent := userAgent config;
     allowedDomains :=
       match allowedDomains config with
       | [] => [baseDomain]
       | ds => ds
       end;
     excludePatterns := excludePatterns config;
     includePatterns := includePatterns config;
     followExternalLinks := followExternalLinks config;
     respectRobotsTxt := respectRobotsTxt config;
     maxConcurrent := maxConcurrent config |}.

(** What the HTML parser finds in a response body: the values of the
    selector queries of [extractPageData], before any fallback. *)
Record Document : Type := {
  doc_title : string;          (* $('title').first().text() *)
  doc_h1 : string;             (* $('h1').first().text() *)
  doc_description : string;
  doc_author : string;
  doc_canonical : string;
  doc_language : string;       (* lang attribute or content-language, or "" *)
  doc_content : string;        (* text of the selected content element *)
  doc_headings : list Heading; (* h1..h6 in document order, text untrimmed *)
  doc_hrefs : list string      (* href of every a[href], in document order *)
}.

(** What [axios.get] does for a URL: it rejects (HTTP status of 400 and
    above, network failure), or resolves with a response. *)
Inductive FetchResult : Type :=
| FetchError (message : string) (status : option Z)
| FetchResponse (contentType : option string) (status : Z) (doc : Document).

(** The web as seen by one crawl, and the time a page is stamped with. A
    crawl fetches a URL at most once (the visited set), so a function of the
    URL stands for the responses of the network. *)
Class Web : Type := {
  fetch : string -> FetchResult;
  crawlTime : string -> string
}.

(** The order in which the rejected fetches of one batch complete. *)
Class Scheduler : Type := {
  completionOrder : list CrawlError -> list CrawlError;
  completionOrder_perm : forall l, Permutation (completionOrder l) l
}.

Section WithWeb.
Context `{UrlApi} `{Web} `{Scheduler}.

Definition orElse (a b : string) : string := if JS.truthy a then a else b.

(** The links of a page, classified by host name; an [href] that does not
    resolve is skipped. *)
Fixpoint classifyLinks (baseDomain pageUrl : string) (hrefs : list string)
    : list string * list string :=
  match hrefs with
  | [] => ([], [])
  | h :: rest =>
      let '(internal, external) := classifyLinks baseDomain pageUrl rest in
      if JS.truthy h then
        match resolveURL h pageUrl with
        | Some l =>
            match parseURL (href l) with
            | Some l' =>
                if String.eqb (hostname l') baseDomain
                then (href l :: internal, external)
                else (internal, href l :: external)
            | None => (internal, external)
            end
        | None => (internal, external)
        end
      else (internal, external)
  end.

(** [extractPageData]; [None] when [new URL(url)] throws. *)
Definition extractPageData (doc : Document) (url : string) (depth status : Z)
    : option CrawledPage :=
  let title := orElse (JS.trim (doc_title doc)) (orElse (JS.trim (doc_h1 doc)) "Untitled") in
  let content := JS.trim (doc_content doc) in
  let wordCount :=
    Z.of_nat (length (filter (fun w => JS.truthy w = true) (JS.split_ws content))) in
  let headings :=
    filter (fun h => JS.truthy (text h) = true)
      (map (fun h => {| level := level h; text := JS.trim (text h); id := id h |})
         (doc_headings doc)) in
  match parseURL url with
  | None => None
  | Some u =>
      let '(internal, external) := classifyLinks (hostname u) url (doc_hrefs doc) in
      Some {| url := url;
              title := title;
              content := content;
              metadata :=
                {| description := doc_description doc;
                   author := doc_author doc;
                   canonical := doc_canonical doc;
                   language := orElse (doc_language doc) "en";
                   contentType := "text/html";
                   wordCount := wordCount;
                   links_internal := JS.uniq ∅ internal;
                   links_external := JS.uniq ∅ external;
                   headings := headings |};
              crawledAt := crawlTime url;
              status := status;
              depth := depth |}
  end.

(** The result of the asynchronous part of [crawlSinglePage] for a URL that
    was not visited before. *)
Inductive PageOutcome : Type :=
| Crawled (page : CrawledPage)
| Skipped                       (* non-HTML content: no page, no error *)
| Failed (e : CrawlError).

(** [...(status && { status })] *)
Definition statusField (status : option Z) : option Z :=
  match status with
  | Some s => if s =? 0 then None else Some s
  | None => None
  end.

Definition fetchPage (url : string) (depth : Z) : PageOutcome :=
  match fetch url with
  | FetchError msg status =>
      Failed {| err_url := url; err_error := msg; err_status := statusField status |}
  | FetchResponse ctype status doc =>
      match ctype with
      | Some ct =>
          if JS.includes ct "text/html" then
            match extractPageData doc url depth status with
            | Some page => Crawled page
            | None =>
                Failed {| err_url := url; err_error := "Invalid URL"; err_status := None |}
            end
          else Skipped
      | None => Skipped
      end
  end.

Definition QueueItem : Type := string * Z.

(** [crawlSinglePage], as the visited set it leaves and what its promise
    resolves to: a visited URL resolves to [null] ([None]) at once, any other
    URL is marked visited and fetched. The check and the mark happen when the
    function is called, before the fetch is awaited. *)
Definition crawlSinglePage (url : string) (depth : Z) (visitedUrls : gset string)
    : gset string * option PageOutcome :=
  if decide (url ∈ visitedUrls) then (visitedUrls, None)
  else ({[url]} ∪ visitedUrls, Some (fetchPage url depth)).

(** [batch.map(({ url, depth }) => this.crawlSinglePage(...))] and
    [Promise.allSettled]: the calls are made in batch order and every one of
    them settles. *)
Fixpoint dispatch (batch : list QueueItem) (visitedUrls : gset string)
    : gset string * list (QueueItem * option PageOutcome) :=
  match batch with
  | [] => (visitedUrls, [])
  | (url, depth) :: rest =>
      let '(visited, result) := crawlSinglePage url depth visitedUrls in
      let '(visited', results) := dispatch rest visited in
      (visited', ((url, depth), result) :: results)
  end.

Definition batchErrors (rs : list (QueueItem * option PageOutcome)) : list CrawlError :=
  omap (fun r => match snd r with
                 | Some (Failed e) => Some e
                 | _ => None
                 end) rs.

(** The exclude test of [extractUrls] for one pattern. *)
Definition excludes (pageUrl : string) (link : string) (linkUrl : URL) (pattern : string)
    : bool :=
  if String.eqb pattern "?" then
    JS.includes (search linkUrl) "search=" || JS.includes (search linkUrl) "q="
    || JS.includes (search linkUrl) "query="
  else if String.eqb pattern "#" then
    match parseURL pageUrl with
    | Some currentUrl =>
        (0 <? Z.of_nat (String.length (hash linkUrl)))
        && String.eqb (pathname linkUrl) (pathname currentUrl)
        && String.eqb (search linkUrl) (search currentUrl)
    | None => true   (* the constructor throws: the link is skipped *)
    end
  else JS.includes (pathname linkUrl) pattern || JS.includes link pattern.

(** The body of the [for] loop of [extractUrls]: the cleaned URL to keep
    for a link, if any. *)
Definition candidate (page : CrawledPage) (config : WebCrawlerConfig) (link : string)
    : option string :=
  match parseURL link with
  | None => None
  | Some linkUrl =>
      if (0 <? Z.of_nat (length (allowedDomains config)))
         && negb (bool_decide (hostname linkUrl ∈ allowedDomains config))
      then None
      else if existsb (excludes (url page) link linkUrl) (excludePatterns config)
      then None
      else if (0 <? Z.of_nat (length (includePatterns config)))
              && negb (existsb (fun pattern =>
                                  JS.includes (pathname linkUrl) pattern
                                  || JS.includes link pattern)
                         (includePatterns config))
      then None
      else
        let cleanUrl := JS.beforeHash link in
        if JS.truthy cleanUrl then Some cleanUrl else None
  end.

Definition extractUrls (page : CrawledPage) (config : WebCrawlerConfig) : list string :=
  let linksToProcess :=
    if followExternalLinks config
    then links_internal (metadata page) ++ links_external (metadata page)
    else links_internal (metadata page) in
  JS.uniq ∅ (omap (candidate page config) linksToProcess).

(** The mutable state of one crawl. *)
Record CrawlState : Type := {
  visitedUrls : gset string;
  crawledPages : list CrawledPage;
  crawlErrors : list CrawlError;
  urlQueue : list QueueItem
}.

(** The inner [for (const newUrl of newUrls)] loop. *)
Fixpoint enqueue (config : WebCrawlerConfig) (visited : gset string) (crawled : nat)
    (depth : Z) (newUrls : list string) (queue : list QueueItem) : list QueueItem :=
  match newUrls with
  | [] => queue
  | newUrl :: rest =>
      if negb (bool_decide (newUrl ∈ visited))
         && (Z.of_nat crawled + Z.of_nat (length queue) <? maxPages config)
      then enqueue config visited crawled depth rest (queue ++ [(newUrl, depth + 1)])
      else enqueue config visited crawled depth rest queue
  end.

(** One turn of the [for (let i = 0; i < results.length; i++)] loop. *)
Definition processResult (config : WebCrawlerConfig) (st : CrawlState)
    (r : QueueItem * option PageOutcome) : CrawlState :=
  match r with
  | ((_, batchDepth), Some (Crawled page)) =>
      let crawled := crawledPages st ++ [page] in
      {| visitedUrls := visitedUrls st;
         crawledPages := crawled;
         crawlErrors := crawlErrors st;
         urlQueue :=
           if batchDepth <? maxDepth config
           then enqueue config (visitedUrls st) (length crawled) batchDepth
                  (extractUrls page config) (urlQueue st)
           else urlQueue st |}
  | _ => st
  end.

(** One turn of the [while] loop: a batch is taken from the front of the
    queue, dispatched, and its settled results are processed in batch
    order. *)
Definition crawlBatch (config : WebCrawlerConfig) (st : CrawlState) : CrawlState :=
  let n := Z.to_nat (maxConcurrent config) in
  let batch := take n (urlQueue st) in
  let '(visited, results) := dispatch batch (visitedUrls st) in
  fold_left (processResult config)
    results
    {| visitedUrls := visited;
       crawledPages := crawledPages st;
       crawlErrors := crawlErrors st ++ completionOrder (batchErrors results);
       urlQueue := drop n (urlQueue st) |}.

Definition continues (config : WebCrawlerConfig) (st : CrawlState) : bool :=
  (0 <? Z.of_nat (length (urlQueue st)))
  && (Z.of_nat (length (crawledPages st)) <? maxPages config).

Fixpoint crawlLoop (fuel : nat) (config : WebCrawlerConfig) (st : CrawlState)
    : option CrawlState :=
  match fuel with
  | O => None
  | S fuel' =>
      if continues config st then crawlLoop fuel' config (crawlBatch config st)
      else Some st
  end.

(** A fuel that suffices for any crawl with this configuration: between two
    collected pages the queue, of at most [maxPages] entries, can only
    shrink. *)
Definition crawlFuel (config : WebCrawlerConfig) : nat :=
  let p := Z.to_nat (maxPages config) in S (S (p * S p)).

(** The quantity that decreases with every batch. *)
Definition crawlMeasure (config : WebCrawlerConfig) (st : CrawlState) : nat :=
  (Z.to_nat (maxPages config - Z.of_nat (length (crawledPages st)))
   * S (Z.to_nat (maxPages config))
   + length (urlQueue st))%nat.

(** The configuration a crawl runs with. *)
Definition configOf (request : CrawlRequest) (baseDomain : string) : WebCrawlerConfig :=
  withAllowedDomains (mergeConfig request) baseDomain.

(** The pages that a list of settled results adds to the collection. *)
Definition newPages (results : list (QueueItem * option PageOutcome)) : list CrawledPage :=
  omap (fun r => match snd r with
                 | Some (Crawled page) => Some page
                 | _ => None
                 end) results.

(** What holds of the crawl state between two batches. The visited URLs are
    the URLs a fetch was issued for. *)
Record Invariant (config : WebCrawlerConfig) (st : CrawlState) : Prop := {
  inv_pages_fetched : forall p, p ∈ crawledPages st ->
    url p ∈ visitedUrls st /\ exists d, fetchPage (url p) d = Crawled p;
  inv_pages_nodup : NoDup (map url (crawledPages st));
  inv_failures : forall u d e, u ∈ visitedUrls st ->
    fetchPage u d = Failed e -> e ∈ crawlErrors st;
  inv_successes : forall u d p, u ∈ visitedUrls st ->
    fetchPage u d = Crawled p -> exists p', p' ∈ crawledPages st /\ url p' = u;
  inv_errors : forall e, e ∈ crawlErrors st ->
    err_url e ∈ visitedUrls st /\ exists d, fetchPage (err_url e) d = Failed e;
  inv_queue_length : Z.of_nat (length (urlQueue st)) <= Z.max 1 (maxPages config);
  inv_queue_depth : forall u d, (u, d) ∈ urlQueue st -> d <= Z.max 0 (maxDepth config);
  inv_page_depth : forall p, p ∈ crawledPages st -> depth p <= Z.max 0 (maxDepth config);
  inv_pages_length :
    Z.of_nat (length (crawledPages st))
    < Z.max 1 (maxPages config + Z.of_nat (Z.to_nat (maxConcurrent config)))
}.

(** [normalizeUrl] *)
Definition normalizeUrl (url : string) : Outcome string :=
  match parseURL url with
  | Some urlObj => Return (href (clearHash urlObj))
  | None => Throw (AppError "Invalid URL provided" 400)
  end.

Definition initialState (baseUrl : string) : CrawlState :=
  {| visitedUrls := ∅; crawledPages := []; crawlErrors := [];
     urlQueue := [(baseUrl, 0)] |}.

(** [new URL(page.url).hostname] over the pages; [None] when a constructor
    throws. *)
Definition hostnames (ps : list CrawledPage) : option (list string) :=
  mapM (fun page => hostname <$> parseURL (url page)) ps.

(** The summary and the returned object. *)
Definition summarize (st : CrawlState) : Outcome CrawlResult :=
  let crawled := crawledPages st in
  match hostnames crawled with
  | None => Throw (PlainError "Invalid URL")
  | Some hosts =>
      Return
        {| success := true;
           message := "Successfully crawled " +:+ pretty (length crawled) +:+ " pages";
           pages := crawled;
           summary :=
             {| totalPages := Z.of_nat (length crawled);
                totalWords :=
                  fold_left (fun sum page => sum + wordCount (metadata page)) crawled 0;
                crawlDepth := Math_max (map depth crawled);
                uniqueDomains := JS.uniq ∅ hosts;
                errors := crawlErrors st |} |}
  end.

(** The body of the [try] block of [crawlDocumentation]. *)
Definition crawlBody (fuel : nat) (request : CrawlRequest) : Outcome CrawlResult :=
  match normalizeUrl (req_url request) with
  | Return baseUrl =>
      match parseURL baseUrl with
      | None => Throw (PlainError "Invalid URL")
      | Some b =>
          let config := configOf request (hostname b) in
          match crawlLoop fuel config (initialState baseUrl) with
          | Some st => summarize st
          | None => Diverge
          end
      end
  | Throw e => Throw e
  | Diverge => Diverge
  end.

(** [crawlDocumentation]: whatever the body throws is replaced by one
    [AppError]. *)
Definition crawlDocumentation (fuel : nat) (request : CrawlRequest)
    : Outcome CrawlResult :=
  match crawlBody fuel request with
  | Throw _ => Throw (AppError "Failed to crawl documentation" 500)
  | r => r
  end.

End WithWeb.

End Crawler.

(** ** Chunking, embedding and storage (VectorService) *)

Module Vector.

Import Crawler.

Record ChunkMetadata : Type := {
  c_url : string;
  c_title : string;
  chunkIndex : Z;
  totalChunks : Z;
  c_wordCount : Z;
  section : option string;
  headingLevel : option Z;
  pageDepth : Z;
  domain : string;
  c_crawledAt : string;
  c_description : option string;
  c_language : option string;
  c_author : option string;
  c_canonical : option string
}.

Record TextChunk : Type := {
  chunk_content : string;
  chunk_metadata : ChunkMetadata
}.

Record VectorEmbedding : Type := {
  vec_id : string;
  values : list Q;
  vec_metadata : ChunkMetadata;
  vec_content : string         (* metadata.content *)
}.

Record VectorServiceConfig : Type := {
  chunkSize : Z;
  chunkOverlap : Z;
  embeddingModel : string;
  embeddingDimensions : Z;
  maxRetries : Z;
  batchSize : nat
}.

Definition defaultConfig : VectorServiceConfig := {|
  chunkSize := 1000;
  chunkOverlap := 200;
  embeddingModel := "text-embedding-3-small";
  embeddingDimensions := 512;
  maxRetries := 3;
  batchSize := 100
|}.

Record VectorCrawlRequest : Type := {
  indexName : option string;
  namespace : option string;
  req_chunkSize : option Z;
  req_chunkOverlap : option Z
}.

Record EmbeddingInfo : Type := {
  model : string;
  dimensions : Z;
  totalTokens : Z
}.

Record VectorStoreResult : Type := {
  vs_success : bool;
  vs_message : string;
  vs_indexName : string;
  vs_namespace : option string;
  vectorsStored : Z;
  vs_totalChunks : Z;
  crawlSummary : CrawlSummary;
  embeddings : EmbeddingInfo
}.

(** The process configuration read by the service. *)
Class AppConfig : Type := {
  openai_apiKey : string;
  pinecone_apiKey : string;
  pinecone_indexName : string
}.

(** The embedding provider: [createEmbeddings k model input] is the [k]-th
    call of [openai.embeddings.create] of a run (counted from 0). An entry of
    [data] is [None] when it carries no array. *)
Inductive EmbedResponse : Type :=
| EmbedThrows
| EmbedData (data : list (option (list Q))).

Class EmbeddingProvider : Type := {
  createEmbeddings : nat -> string -> list string -> EmbedResponse
}.

(** The index provider: whether the [k]-th [upsert] of a run succeeds. *)
Class IndexProvider : Type := {
  upsert : nat -> string -> option string -> list VectorEmbedding -> bool
}.

(** [Date.now()]: the value of the [k]-th reading of a run. *)
Class Clock : Type := {
  now : nat -> Z
}.

(** What a run leaves behind: the inputs of the embedding calls issued, the
    number of clock readings, and the [upsert] calls issued (index,
    namespace, records), all in order. *)
Record World : Type := {
  embedCalls : list (list string);
  clockReads : nat;
  upsertCalls : list (string * option string * list VectorEmbedding)
}.

Definition emptyWorld : World :=
  {| embedCalls := []; clockReads := 0%nat; upsertCalls := [] |}.

(** A computation with effects on the world that returns, throws or runs
    out of fuel. *)
Definition M (A : Type) : Type := World -> World * Outcome A.

Definition ret {A} (a : A) : M A := fun w => (w, Return a).
Definition throw {A} (e : Exn) : M A := fun w => (w, Throw e).
Definition diverge {A} : M A := fun w => (w, Diverge).

Definition bind {A B} (m : M A) (k : A -> M B) : M B :=
  fun w =>
    match m w with
    | (w', Return a) => k a w'
    | (w', Throw e) => (w', Throw e)
    | (w', Diverge) => (w', Diverge)
    end.

(** [try { m } catch (error) { handler(error) }] *)
Definition tryCatch {A} (m : M A) (handler : Exn -> M A) : M A :=
  fun w =>
    match m w with
    | (w', Throw e) => handler e w'
    | r => r
    end.

Notation "x <- m ;; k" := (bind m (fun x => k))
  (at level 200, m at level 99, k at level 200, right associativity).
Notation "m ;;; k" := (bind m (fun _ => k))
  (at level 200, k at level 200, right associativity).

Definition newline : string := String "010"%char "".

Section WithProviders.
Context `{UrlApi} `{AppConfig} `{EmbeddingProvider} `{IndexProvider} `{Clock}.

(** [findRelevantHeading]: the first heading of the page, whatever the
    position. *)
Definition findRelevantHeading (page : CrawledPage) (_position : Z) : option Heading :=
  head (headings (metadata page)).

Definition optString (s : string) : option string :=
  if JS.truthy s then Some s else None.

(** The chunks of one page, from the windows of [chunkText]. *)
Definition pageChunksOf (page : CrawledPage) (domain : string) (chunkSize chunkOverlap : Z)
    (pageChunks : list string) : list TextChunk :=
  imap (fun index chunkContent =>
          let chunkPosition := Z.of_nat index * (chunkSize - chunkOverlap) in
          let relevantHeading := findRelevantHeading page chunkPosition in
          {| chunk_content := chunkContent;
             chunk_metadata :=
               {| c_url := url page;
                  c_title := title page;
                  chunkIndex := Z.of_nat index;
                  totalChunks := Z.of_nat (length pageChunks);
                  c_wordCount := Z.of_nat (length (JS.split_ws chunkContent));
                  section := h ← relevantHeading; optString (text h);
                  headingLevel :=
                    h ← relevantHeading; if level h =? 0 then None else Some (level h);
                  pageDepth := depth page;
                  domain := domain;
                  c_crawledAt := crawledAt page;
                  c_description := optString (description (metadata page));
                  c_language := optString (language (metadata page));
                  c_author := optString (author (metadata page));
                  c_canonical := optString (canonical (metadata page)) |} |})
       pageChunks.

(** The text that is chunked: title, blank line, content. *)
Definition fullText (page : CrawledPage) : string :=
  title page +:+ newline +:+ newline +:+ content page.

(** [processIntoChunks]: a page whose URL does not parse is skipped;
    [None] when [chunkText] does not return within the fuel. *)
Fixpoint processIntoChunks (fuel : nat) (pages : list CrawledPage)
    (chunkSize chunkOverlap : Z) : option (list TextChunk) :=
  match pages with
  | [] => Some []
  | page :: rest =>
      match parseURL (url page) with
      | None => processIntoChunks fuel rest chunkSize chunkOverlap
      | Some u =>
          match Chunker.chunkText fuel (fullText page) chunkSize chunkOverlap with
          | None => None
          | Some pageChunks =>
              match processIntoChunks fuel rest chunkSize chunkOverlap with
              | None => None
              | Some chunks =>
                  Some (pageChunksOf page (hostname u) chunkSize chunkOverlap pageChunks
                          ++ chunks)
              end
          end
      end
  end.

(** The world after one more reading of the clock. *)
Definition tick (w : World) : World :=
  {| embedCalls := embedCalls w; clockReads := S (clockReads w);
     upsertCalls := upsertCalls w |}.

Definition dateNow : M Z :=
  fun w => (tick w, Return (now (clockReads w))).

Definition is_idChar (c : ascii) : bool :=
  JS.is_alnum c || Ascii.eqb c "_" || Ascii.eqb c "-".

(** The id built from the parts of the URL, the chunk index and the clock
    reading. *)
Definition vectorIdOf (u : URL) (index : Z) (time : Z) : string :=
  let cleanHostname := JS.replaceOutside JS.is_alnum (hostname u) in
  let cleanPath := JS.replaceOutside JS.is_alnum (pathname u) in
  let baseId := cleanHostname +:+ cleanPath +:+ "_chunk_" +:+ pretty index in
  let timestamp := JS.lastChars 8 (pretty time) in
  let vectorId := baseId +:+ "_" +:+ timestamp in
  JS.replaceOutside is_idChar (JS.substring0 512 vectorId).

(** [generateVectorId] *)
Definition generateVectorId (chunk : TextChunk) : M string :=
  match parseURL (c_url (chunk_metadata chunk)) with
  | None => throw (PlainError "Invalid URL")
  | Some u =>
      time <- dateNow ;;
      ret (vectorIdOf u (chunkIndex (chunk_metadata chunk)) time)
  end.

(** The chunk's URL parses. *)
Definition parseable (chunk : TextChunk) : Prop :=
  is_Some (parseURL (c_url (chunk_metadata chunk))).

(** [openai.embeddings.create] *)
Definition callEmbeddings (model : string) (input : list string)
    : M (list (option (list Q))) :=
  fun w =>
    let w' := {| embedCalls := embedCalls w ++ [input]; clockReads := clockReads w;
                 upsertCalls := upsertCalls w |} in
    match createEmbeddings (length (embedCalls w)) model input with
    | EmbedThrows => (w', Throw (PlainError "embedding provider error"))
    | EmbedData data => (w', Return data)
    end.

(** The [batch.forEach] of [generateEmbeddings], from position [index]. *)
Fixpoint embedBatch (data : list (option (list Q))) (batch : list TextChunk)
    (index : nat) (embeddings : list VectorEmbedding) : M (list VectorEmbedding) :=
  match batch with
  | [] => ret embeddings
  | chunk :: rest =>
      match data !! index with
      | Some (Some embedding) =>
          vectorId <- generateVectorId chunk ;;
          if negb (JS.truthy vectorId) || (512 <? Z.of_nat (String.length vectorId))
          then embedBatch data rest (S index) embeddings
          else
            embedBatch data rest (S index)
              (embeddings ++
                 [{| vec_id := vectorId;
                     values := embedding;
                     vec_metadata := chunk_metadata chunk;
                     vec_content := JS.substring0 40000 (chunk_content chunk) |}])
      | _ => embedBatch data rest (S index) embeddings
      end
  end.

(** The [for (let i = 0; i < chunks.length; i += batchSize)] loop. *)
Fixpoint embedLoop (fuel : nat) (model : string) (chunks : list TextChunk) (i : nat)
    (embeddings : list VectorEmbedding) : M (list VectorEmbedding) :=
  match fuel with
  | O => diverge
  | S fuel' =>
      if (i <? length chunks)%nat then
        let batch := JS.slice chunks (Z.of_nat i) (Z.of_nat (i + batchSize defaultConfig)) in
        let batchTexts := map chunk_content batch in
        data <- callEmbeddings model batchTexts ;;
        embeddings' <- embedBatch data batch 0 embeddings ;;
        embedLoop fuel' model chunks (i + batchSize defaultConfig) embeddings'
      else ret embeddings
  end.

Definition initializeOpenAI : M unit :=
  if JS.truthy openai_apiKey then ret tt
  else throw (AppError "OpenAI API key is required" 500).

Definition initializePinecone : M unit :=
  if JS.truthy pinecone_apiKey then ret tt
  else throw (AppError "Pinecone API key is required" 500).

(** [generateEmbeddings]; the loop runs at most once per chunk. *)
Definition generateEmbeddings (chunks : list TextChunk) (model : string)
    : M (list VectorEmbedding) :=
  initializeOpenAI ;;;
  tryCatch (embedLoop (S (length chunks)) model chunks 0 [])
    (fun _ => throw (AppError "Failed to generate embeddings" 500)).

(** The validation of a record before it is sent. *)
Definition validVector (vector : VectorEmbedding) : bool :=
  JS.truthy (vec_id vector) && negb (length (values vector) =? 0)%nat.

(** [index.namespace(namespace).upsert(batch)] or [index.upsert(batch)] *)
Definition callUpsert (indexName : string) (namespace : option string)
    (batch : list VectorEmbedding) : M unit :=
  fun w =>
    let ns := ns ← namespace; optString ns in
    let w' := {| embedCalls := embedCalls w; clockReads := clockReads w;
                 upsertCalls := upsertCalls w ++ [(indexName, ns, batch)] |} in
    if upsert (length (upsertCalls w)) indexName ns batch
    then (w', Return tt)
    else (w', Throw (PlainError "index provider error")).

(** The [for] loop of [storeVectors]. *)
Fixpoint storeLoop (fuel : nat) (embeddings : list VectorEmbedding) (indexName : string)
    (namespace : option string) (i : nat) : M unit :=
  match fuel with
  | O => diverge
  | S fuel' =>
      if (i <? length embeddings)%nat then
        let batch := JS.slice embeddings (Z.of_nat i) (Z.of_nat (i + 100)) in
        if forallb validVector batch then
          callUpsert indexName namespace batch ;;;
          storeLoop fuel' embeddings indexName namespace (i + 100)
        else throw (AppError "Invalid vector format" 400)
      else ret tt
  end.

(** [storeVectors] *)
Definition storeVectors (embeddings : list VectorEmbedding) (indexName : string)
    (namespace : option string) : M unit :=
  initializePinecone ;;;
  tryCatch (storeLoop (S (length embeddings)) embeddings indexName namespace 0)
    (fun _ => throw (AppError "Failed to store vectors in Pinecone" 500)).

Definition lift {A} (o : option A) : M A :=
  match o with
  | Some a => ret a
  | None => diverge
  end.

(** [x || d] for an optional string. *)
Definition strOr (x : option string) (d : string) : string :=
  match x with
  | Some v => if JS.truthy v then v else d
  | None => d
  end.

(** The body of the [try] block of [crawlAndStore]. *)
Definition crawlAndStoreBody (fuel : nat) (pages : list CrawledPage)
    (request : VectorCrawlRequest) : M VectorStoreResult :=
  chunks <- lift (processIntoChunks fuel pages
                    (numOr (req_chunkSize request) (chunkSize defaultConfig))
                    (numOr (req_chunkOverlap request) (chunkOverlap defaultConfig))) ;;
  if (length chunks =? 0)%nat
  then throw (AppError "No text chunks generated from crawled pages" 400)
  else
    embeddings <- generateEmbeddings chunks (embeddingModel defaultConfig) ;;
    if (length embeddings =? 0)%nat
    then throw (AppError "No embeddings generated" 500)
    else
      let indexName := strOr (indexName request) pinecone_indexName in
      storeVectors embeddings indexName (namespace request) ;;;
      match hostnames pages with
      | None => throw (PlainError "Invalid URL")
      | Some hosts =>
          ret {| vs_success := true;
                 vs_message :=
                   "Successfully processed and stored " +:+ pretty (length embeddings)
                   +:+ " vectors from " +:+ pretty (length pages) +:+ " pages";
                 vs_indexName := indexName;
                 vs_namespace := ns ← namespace request; optString ns;
                 vectorsStored := Z.of_nat (length embeddings);
                 vs_totalChunks := Z.of_nat (length chunks);
                 crawlSummary :=
                   {| totalPages := Z.of_nat (length pages);
                      totalWords :=
                        fold_left (fun sum page => sum + wordCount (metadata page)) pages 0;
                      crawlDepth := Math_max (map depth pages);
                      uniqueDomains := JS.uniq ∅ hosts;
                      errors := [] |};
                 embeddings :=
                   {| model := embeddingModel defaultConfig;
                      dimensions :=
                        match embeddings with
                        | e :: _ =>
                            if (length (values e) =? 0)%nat
                            then embeddingDimensions defaultConfig
                            else Z.of_nat (length (values e))
                        | [] => embeddingDimensions defaultConfig
                        end;
                      totalTokens :=
                        fold_left (fun sum chunk => sum + c_wordCount (chunk_metadata chunk))
                          chunks 0 |} |}
      end.

(** [crawlAndStore]: an [AppError] passes through, anything else thrown
    becomes one. *)
Definition crawlAndStore (fuel : nat) (pages : list CrawledPage)
    (request : VectorCrawlRequest) : M VectorStoreResult :=
  tryCatch (crawlAndStoreBody fuel pages request)
    (fun error =>
       match error with
       | AppError _ _ => throw error
       | PlainError _ => throw (AppError "Failed to process and store vectors" 500)
       end).

End WithProviders.

End Vector.

(** ** Retrieval and answer synthesis (RAGService) *)

Module RAG.

(** The metadata keys of a match that the service reads. *)
Record MatchMetadata : Type := {
  m_content : option string;
  m_title : option string;
  m_url : option string;
  m_section : option string;
  m_source : option string
}.

(** A match as the index provider returns it: the score may be missing. *)
Record ProviderMatch : Type := {
  pm_id : string;
  pm_score : option Q;
  pm_metadata : option MatchMetadata
}.

Record RAGMatch : Type := {
  id : string;
  score : Q;
  metadata : option MatchMetadata
}.

Definition Filter : Type := list (string * string).

Record RAGSearchRequest : Type := {
  query : string;
  namespace : string;
  topK : option Z;
  includeMetadata : option bool;
  q_filter : option Filter
}.

(** [RAGQueryRequest] has the fields of [RAGSearchRequest]. *)
Definition RAGQueryRequest : Type := RAGSearchRequest.

Record RAGSearchResponse : Type := {
  matches : list RAGMatch;
  s_query : string;
  s_namespace : string;
  totalMatches : Z
}.

Record RAGQueryResponse : Type := {
  answer : string;
  sources : list RAGMatch;
  r_query : string;
  r_namespace : string;
  confidence : Q
}.

Record QueryParams : Type := {
  vector : list Q;
  p_topK : Z;
  p_includeMetadata : bool;
  p_filter : option Filter
}.

(** The three providers. [queryEmbedding q] is [None] when the call throws
    or the response carries no embedding; [queryIndex ns params] answers a
    query of the namespace [ns] ([None]: the default namespace), and its
    match list may be absent; [complete system user] gives the content of the
    first choice, if any. *)
Inductive QueryResponse : Type :=
| QueryThrows
| QueryMatches (matches : option (list ProviderMatch)).

Inductive CompletionResponse : Type :=
| CompletionThrows
| CompletionContent (content : option string).

Class Providers : Type := {
  queryEmbedding : string -> option (list Q);
  queryIndex : option string -> QueryParams -> QueryResponse;
  complete : string -> string -> CompletionResponse
}.

Definition quote : string := String (ascii_of_nat 34) "".
Definition newline : string := String "010"%char "".

Definition systemPrompt : string :=
"You are an intelligent AI assistant that provides comprehensive, accurate, and helpful answers based on the provided documentation context. Your role is to:

1. Analyze the user's question thoroughly
2. Use the provided context to generate detailed, accurate responses
3. Cite specific sources when referencing information
4. Provide structured, well-organized answers
5. Include relevant code examples, steps, or explanations when appropriate
6. If the context doesn't fully answer the question, clearly state what information is missing
7. Be conversational but professional in tone

Always structure your responses with:
- A clear, direct answer to the question
- Supporting details with source citations
- Practical examples or steps when relevant
- Additional context or related information that might be helpful

When citing sources, use the format: (Source X) where X is the source number provided in the context.".

Definition userPrompt (query context : string) : string :=
  "Based on the following documentation context, please provide a comprehensive and detailed answer to this question: "
  +:+ quote +:+ query +:+ quote +:+ newline +:+ newline
  +:+ "Context from documentation:" +:+ newline
  +:+ context +:+ newline +:+ newline
  +:+ "Please provide a thorough, well-structured answer that addresses the user's question using the information from the provided sources. Include specific details, examples, and step-by-step instructions where appropriate. Cite your sources using (Source X) format.".

Section WithProviders.
Context `{Providers}.

(** [x || d] on optional values. *)
Definition truthyStr (x : option string) : option string :=
  match x with
  | Some v => if JS.truthy v then Some v else None
  | None => None
  end.

Definition strOr (x : option string) (d : string) : string := default d (truthyStr x).

Definition topKOr (x : option Z) (d : Z) : Z :=
  match x with
  | Some v => if v =? 0 then d else v
  | None => d
  end.

(** [match.score || 0] *)
Definition scoreOr0 (x : option Q) : Q := default 0%Q x.

Definition toRAGMatch (m : ProviderMatch) : RAGMatch :=
  {| id := pm_id m; score := scoreOr0 (pm_score m); metadata := pm_metadata m |}.

(** The parameters of the index query. *)
Definition queryParamsOf (request : RAGSearchRequest) (queryVector : list Q) : QueryParams :=
  {| vector := queryVector;
     p_topK := topKOr (topK request) 5;
     p_includeMetadata := default true (includeMetadata request);
     p_filter :=
       match q_filter request with
       | Some f => if (0 <? Z.of_nat (length f)) then Some f else None
       | None => None
       end |}.

(** The namespace-specific query when a namespace is given. *)
Definition runQuery (request : RAGSearchRequest) (queryVector : list Q) : QueryResponse :=
  if JS.truthy (namespace request)
  then queryIndex (Some (namespace request)) (queryParamsOf request queryVector)
  else queryIndex None (queryParamsOf request queryVector).

(** [generateQueryEmbedding]: a provider failure and a response without an
    embedding both end in the same [AppError]. *)
Definition generateQueryEmbedding (query : string) : Outcome (list Q) :=
  match queryEmbedding query with
  | Some embedding => Return embedding
  | None => Throw (AppError "Failed to generate query embedding" 500)
  end.

(** The body of the [try] block of [performVectorSearch]. *)
Definition searchBody (request : RAGSearchRequest) : Outcome RAGSearchResponse :=
  match generateQueryEmbedding (query request) with
  | Throw e => Throw e
  | Diverge => Diverge
  | Return queryVector =>
      match runQuery request queryVector with
      | QueryThrows => Throw (PlainError "index provider error")
      | QueryMatches None => Throw (PlainError "No matches returned from vector search")
      | QueryMatches (Some ms) =>
          let matches := map toRAGMatch ms in
          Return {| matches := matches;
                    s_query := query request;
                    s_namespace := namespace request;
                    totalMatches := Z.of_nat (length matches) |}
      end
  end.

(** [performVectorSearch]: whatever the body throws is replaced by one
    [AppError]. *)
Definition performVectorSearch (request : RAGSearchRequest) : Outcome RAGSearchResponse :=
  match searchBody request with
  | Throw _ => Throw (AppError "Failed to perform vector search" 500)
  | r => r
  end.

(** [match.metadata?.content] is truthy. *)
Definition hasContent (m : RAGMatch) : bool :=
  match metadata m with
  | Some md => match truthyStr (m_content md) with Some _ => true | None => false end
  | None => false
  end.

(** The matches the context is built from. *)
Definition usedMatches (ms : list RAGMatch) : list RAGMatch :=
  filter (fun m => hasContent m = true) ms.

(** The context block of the match at position [index] of the usable ones. *)
Definition contextPart (index : nat) (m : RAGMatch) : string :=
  match metadata m with
  | Some md =>
      let source := default (strOr (m_source md) "Unknown source") (truthyStr (m_url md)) in
      let title := strOr (m_title md) "Untitled" in
      let section := strOr (m_section md) "" in
      "[Source " +:+ pretty (index + 1)%nat +:+ "] " +:+ title
      +:+ (if JS.truthy section then " - " +:+ section else "")
      +:+ newline +:+ "URL: " +:+ source
      +:+ newline +:+ "Content: " +:+ default "" (m_content md)
  | None => ""
  end.

Definition separator : string := newline +:+ newline +:+ "---" +:+ newline +:+ newline.

(** [clamp(x, 0, 100)] as [Math.min(Math.max(x, 0), 100)]. *)
Definition clamp100 (x : Q) : Q := Qmin (Qmax x 0) 100.

Definition sumScores (ms : list RAGMatch) : Q :=
  fold_left (fun sum m => (sum + score m)%Q) ms 0%Q.

Definition meanScore (ms : list RAGMatch) : Q :=
  (sumScores ms / inject_Z (Z.of_nat (length ms)))%Q.

(** The search request of an answer. *)
Definition searchRequestOf (request : RAGQueryRequest) : RAGSearchRequest :=
  {| query := query request;
     namespace := namespace request;
     topK := Some (topKOr (topK request) 5);
     includeMetadata := Some true;
     q_filter := q_filter request |}.

(** The body of the [try] block of [generateRAGAnswer]. *)
Definition answerBody (request : RAGQueryRequest) : Outcome RAGQueryResponse :=
  match performVectorSearch (searchRequestOf request) with
  | Throw e => Throw e
  | Diverge => Diverge
  | Return searchResponse =>
      if (length (matches searchResponse) =? 0)%nat
      then Throw (AppError "No relevant information found in the knowledge base" 404)
      else
        let contextParts := imap contextPart (usedMatches (matches searchResponse)) in
        if (length contextParts =? 0)%nat
        then Throw (AppError "No usable content found in search results" 404)
        else
          let context := JS.join separator contextParts in
          let avgScore := meanScore (matches searchResponse) in
          let confidence := clamp100 (avgScore * 100)%Q in
          match complete systemPrompt (userPrompt (query request) context) with
          | CompletionThrows => Throw (PlainError "completion provider error")
          | CompletionContent answer =>
              match truthyStr answer with
              | None => Throw (PlainError "Failed to generate answer from OpenAI")
              | Some answer =>
                  Return {| answer := answer;
                            sources := matches searchResponse;
                            r_query := query request;
                            r_namespace := namespace request;
                            confidence := confidence |}
              end
          end
  end.

(** [generateRAGAnswer]: an [AppError] passes through, anything else thrown
    becomes one. *)
Definition generateRAGAnswer (request : RAGQueryRequest) : Outcome RAGQueryResponse :=
  match answerBody request with
  | Throw (PlainError _) => Throw (AppError "Failed to generate intelligent response" 500)
  | r => r
  end.

End WithProviders.

End RAG.

(** ** Example worlds: a small site, providers and a clock *)

Module Fixture.

Import Crawler.

(** [splitAtChar sep s]: the part of [s] before the first [sep] and the
    rest, which starts with [sep] when there is one. *)
Fixpoint splitAtChar (sep : ascii) (s : string) : string * string :=
  match s with
  | EmptyString => ("", "")
  | String c s' =>
      if Ascii.eqb c sep then ("", s)
      else let '(a, b) := splitAtChar sep s' in (String c a, b)
  end.

Fixpoint dropChars (n : nat) (s : string) : string :=
  match n, s with
  | S n', String _ s' => dropChars n' s'
  | _, _ => s
  end.

(** A parser for the plain [https] URLs of the examples: host, path, query
    and fragment; an empty path reads as [/], a bare [?] or [#] as none. *)
Definition parseHttps (s : string) : option URL :=
  if String.prefix "https://" s then
    let rest := dropChars 8 s in
    let '(beforeHash, fragment) := splitAtChar "#" rest in
    let '(beforeQuery, query) := splitAtChar "?" beforeHash in
    let '(host, path) := splitAtChar "/" beforeQuery in
    if JS.truthy host then
      Some {| base := "https://" +:+ host;
              hostname := host;
              pathname := if JS.truthy path then path else "/";
              search := if String.eqb query "?" then "" else query;
              hash := if String.eqb fragment "#" then "" else fragment |}
    else None
  else None.

#[export] Instance httpsUrls : UrlApi :=
  {| parseURL := parseHttps; resolveURL := fun h _ => parseHttps h |}.

Definition emptyDoc : Document :=
  {| doc_title := ""; doc_h1 := ""; doc_description := ""; doc_author := "";
     doc_canonical := ""; doc_language := ""; doc_content := ""; doc_headings := [];
     doc_hrefs := [] |}.

Definition htmlPage (title body : string) (hrefs : list string) : FetchResult :=
  FetchResponse (Some "text/html; charset=utf-8") 200
    {| doc_title := title; doc_h1 := ""; doc_description := ""; doc_author := "";
       doc_canonical := ""; doc_language := ""; doc_content := body; doc_headings := [];
       doc_hrefs := hrefs |}.

(** A site served as a table of URLs; anything else is a 404. *)
Definition serve (site : list (string * FetchResult)) (u : string) : FetchResult :=
  match list_find (fun e => fst e = u) site with
  | Some (_, (_, r)) => r
  | None => FetchError "Request failed with status code 404" (Some 404)
  end.

Definition root : string := "https://docs.example.com/".

(** The home page links to four pages, the first of which links to two more. *)
Definition docsSite : list (string * FetchResult) :=
  [ (root, htmlPage "Home" "welcome"
             [root +:+ "a"; root +:+ "b"; root +:+ "c"; root +:+ "d"]);
    (root +:+ "a", htmlPage "A" "page a" [root +:+ "x"; root +:+ "y"]);
    (root +:+ "b", htmlPage "B" "page b" []);
    (root +:+ "c", htmlPage "C" "page c" []);
    (root +:+ "d", htmlPage "D" "page d" []);
    (root +:+ "x", htmlPage "X" "page x" []);
    (root +:+ "y", htmlPage "Y" "page y" []) ].

(** The home page links to two pages that both link to a third. *)
Definition diamondSite : list (string * FetchResult) :=
  [ (root, htmlPage "Home" "welcome" [root +:+ "a"; root +:+ "b"]);
    (root +:+ "a", htmlPage "A" "page a" [root +:+ "c"]);
    (root +:+ "b", htmlPage "B" "page b" [root +:+ "c"]);
    (root +:+ "c", htmlPage "C" "page c" []) ].

(** The home page is up, one of its two links is broken, one is a PDF. *)
Definition brokenSite : list (string * FetchResult) :=
  [ (root, htmlPage "Home" "welcome" [root +:+ "gone"; root +:+ "a"; root +:+ "paper"]);
    (root +:+ "a", htmlPage "A" "page a" []);
    (root +:+ "paper", FetchResponse (Some "application/pdf") 200 emptyDoc) ].

Definition webOf (site : list (string * FetchResult)) : Web :=
  {| fetch := serve site; crawlTime := fun _ => "2025-01-01T00:00:00.000Z" |}.

#[export] Instance inBatchOrder : Scheduler :=
  {| completionOrder := fun l => l;
     completionOrder_perm := fun l => Permutation_refl l |}.

Definition request (u : string) (depth pages : Z) : CrawlRequest :=
  {| req_url := u; req_maxDepth := Some depth; req_maxPages := Some pages;
     req_delay := None; req_includePatterns := None; req_excludePatterns := None;
     req_followExternalLinks := None |}.

(** An index with two matches for any query, the second without content, and
    a completion provider that answers. *)
Definition docMetadata (content : option string) : option RAG.MatchMetadata :=
  Some {| RAG.m_content := content; RAG.m_title := Some "Guide";
          RAG.m_url := Some (root +:+ "a"); RAG.m_section := None;
          RAG.m_source := None |}.

Definition twoMatches : RAG.Providers :=
  {| RAG.queryEmbedding := fun _ => Some [1 # 2]%Q;
     RAG.queryIndex := fun _ _ =>
       RAG.QueryMatches
         (Some [ {| RAG.pm_id := "a"; RAG.pm_score := Some (9 # 10)%Q;
                    RAG.pm_metadata := docMetadata (Some "Install the package.") |};
                 {| RAG.pm_id := "b"; RAG.pm_score := Some (1 # 10)%Q;
                    RAG.pm_metadata := docMetadata None |} ]);
     RAG.complete := fun _ _ => RAG.CompletionContent (Some "Run the installer (Source 1).") |}.

(** An index whose response carries no match list, and one with an empty
    list. *)
Definition noMatchList : RAG.Providers :=
  {| RAG.queryEmbedding := fun _ => Some [1 # 2]%Q;
     RAG.queryIndex := fun _ _ => RAG.QueryMatches None;
     RAG.complete := fun _ _ => RAG.CompletionThrows |}.

Definition emptyMatchList : RAG.Providers :=
  {| RAG.queryEmbedding := fun _ => Some [1 # 2]%Q;
     RAG.queryIndex := fun _ _ => RAG.QueryMatches (Some []);
     RAG.complete := fun _ _ => RAG.CompletionThrows |}.

Definition question : RAG.RAGSearchRequest :=
  {| RAG.query := "How do I install it?"; RAG.namespace := "docs";
     RAG.topK := None; RAG.includeMetadata := None; RAG.q_filter := None |}.

Definition appConfig : Vector.AppConfig :=
  {| Vector.openai_apiKey := "sk-test"; Vector.pinecone_apiKey := "pc-test";
     Vector.pinecone_indexName := "docs" |}.

(** An embedding provider that answers every input with a vector, and one
    whose second call fails. *)
Definition embedsAll : Vector.EmbeddingProvider :=
  {| Vector.createEmbeddings := fun _ _ input =>
       Vector.EmbedData (map (fun _ => Some [1 # 2; 1 # 2]%Q) input) |}.

Definition failsOnSecondCall : Vector.EmbeddingProvider :=
  {| Vector.createEmbeddings := fun k _ input =>
       if (k =? 1)%nat then Vector.EmbedThrows
       else Vector.EmbedData (map (fun _ => Some [1 # 2; 1 # 2]%Q) input) |}.

Definition storesAll : Vector.IndexProvider :=
  {| Vector.upsert := fun _ _ _ _ => true |}.

(** A clock that does not advance during the run: every reading falls in
    the same millisecond. *)
Definition sameMillisecond : Vector.Clock :=
  {| Vector.now := fun _ => 1762041600123 |}.

(** A clock that advances by one millisecond per reading. *)
Definition ticking : Vector.Clock :=
  {| Vector.now := fun k => 1762041600123 + Z.of_nat k |}.

Definition plainPage (u title body : string) : CrawledPage :=
  {| url := u;
     title := title;
     content := body;
     metadata :=
       {| description := ""; author := ""; canonical := ""; language := "en";
          contentType := "text/html"; wordCount := 0; links_internal := [];
          links_external := []; headings := [] |};
     crawledAt := "2025-01-01T00:00:00.000Z";
     status := 200;
     depth := 0 |}.

(** Two pages of a paginated guide: same path, different query. *)
Definition guidePages : list CrawledPage :=
  [ plainPage (root +:+ "guide?page=1") "Guide" "first part";
    plainPage (root +:+ "guide?page=2") "Guide" "second part" ].

(** A page of 150 tokens; with [chunkSize = 2] and [chunkOverlap = 1] it
    makes 150 chunks. *)
Definition page150 : CrawledPage :=
  plainPage (root +:+ "reference") "w" (JS.join " " (replicate 149 "w")).

Definition storeRequest (size overlap : Z) : Vector.VectorCrawlRequest :=
  {| Vector.indexName := None; Vector.namespace := Some "docs";
     Vector.req_chunkSize := Some size; Vector.req_chunkOverlap := Some overlap |}.

(** A page of 2,500 tokens: a one-word title and 2,499 words of content. *)
Definition longPage : CrawledPage :=
  {| url := root +:+ "long";
     title := "w";
     content := JS.join " " (replicate 2499 "w");
     metadata :=
       {| description := ""; author := ""; canonical := ""; language := "en";
          contentType := "text/html"; wordCount := 2499; links_internal := [];
          links_external := []; headings := [] |};
     crawledAt := "2025-01-01T00:00:00.000Z";
     status := 200;
     depth := 0 |}.

End Fixture.

(** ** The order and the origin of the pages of a crawl *)

Module CrawlOrder.

Import Crawler.

Section WithUrls.
Context `{UrlApi}.

(** Where a URL at depth [d] comes from: it is the seed, at depth 0, or a
    candidate link of a collected page one level up that is above the depth
    limit. *)
(** The links [extractUrls] reads. *)
Definition linksToProcess (page : CrawledPage) (config : WebCrawlerConfig) : list string :=
  if followExternalLinks config
  then links_internal (metadata page) ++ links_external (metadata page)
  else links_internal (metadata page).

Definition Origin (baseUrl : string) (config : WebCrawlerConfig)
    (collected : list CrawledPage) (u : string) (d : Z) : Prop :=
  (u = baseUrl /\ d = 0)
  \/ exists parent,
       parent ∈ collected /\ depth parent + 1 = d
       /\ depth parent < maxDepth config /\ u ∈ extractUrls parent config.

(** What holds of the collected pages and of the entries still to be
    processed (the rest of the batch, then the queue): depths never decrease
    along the two lists, the pending depths span at most two levels, and
    every entry and every page has an origin. *)
Record Traversal (baseUrl : string) (config : WebCrawlerConfig)
    (collected : list CrawledPage) (pending : list QueueItem) : Prop := {
  tr_sorted : StronglySorted Z.le (map depth collected ++ map snd pending);
  tr_level : forall d, head (map snd pending) = Some d ->
    Forall (fun x => x <= d + 1) (map snd pending);
  tr_pending : forall u d, (u, d) ∈ pending -> Origin baseUrl config collected u d;
  tr_pages : forall p, p ∈ collected ->
    Origin baseUrl config collected (url p) (depth p)
}.

End WithUrls.

End CrawlOrder.

(** ** More example sites *)

Module Samples.

Import Crawler.

(** The home page links to another host and to a page of its own. *)
Definition mixedSite : list (string * FetchResult) :=
  [ (Fixture.root,
     Fixture.htmlPage "Home" "welcome"
       ["https://other.example.org/z"; Fixture.root +:+ "a"]);
    ("https://other.example.org/z", Fixture.htmlPage "Z" "elsewhere" []);
    (Fixture.root +:+ "a", Fixture.htmlPage "A" "page a" []) ].

Definition followingExternalLinks (u : string) (depth pages : Z) : CrawlRequest :=
  {| req_url := u; req_maxDepth := Some depth; req_maxPages := Some pages;
     req_delay := None; req_includePatterns := None; req_excludePatterns := None;
     req_followExternalLinks := Some true |}.

(** A page with a link to a login form, a link with a fragment and a link
    to another host. *)
Definition linkedPage : CrawledPage :=
  {| url := Fixture.root;
     title := "Home";
     content := "welcome";
     metadata :=
       {| description := ""; author := ""; canonical := ""; language := "en";
          contentType := "text/html"; wordCount := 1;
          links_internal :=
            [Fixture.root +:+ "a"; Fixture.root +:+ "login"; Fixture.root +:+ "b#top"];
          links_external := ["https://other.example.org/z"]; headings := [] |};
     crawledAt := "2025-01-01T00:00:00.000Z";
     status := 200;
     depth := 0 |}.

(** What the parser finds in a home page with a blank title, a blank
    heading, an empty [href] and a repeated link. *)
Definition homeDoc : Document :=
  {| doc_title := "  "; doc_h1 := " Home "; doc_description := ""; doc_author := "";
     doc_canonical := ""; doc_language := ""; doc_content := " welcome to the docs ";
     doc_headings := [ {| level := 1; text := " Home "; id := None |};
                       {| level := 2; text := "  "; id := None |} ];
     doc_hrefs := ["https://other.example.org/z"; Fixture.root +:+ "a"; "";
                   Fixture.root +:+ "a"] |}.

(** The chunks of the two pages of the guide, one per page. *)
Definition guideChunks : list Vector.TextChunk :=
  default [] (@Vector.processIntoChunks Fixture.httpsUrls 10 Fixture.guidePages 1000 200).


(** A page whose URL does not parse. *)
Definition strayPage : CrawledPage :=
  Fixture.plainPage "not a url" "Stray" "some text".

(** A request with a chunk size of 150 that leaves the overlap out. *)
Definition smallChunks : Vector.VectorCrawlRequest :=
  {| Vector.indexName := None; Vector.namespace := Some "docs";
     Vector.req_chunkSize := Some 150; Vector.req_chunkOverlap := None |}.

End Samples.

(** ** Requests built by the controllers *)

Module Controllers.

Import Crawler.

(** The request [analyzePage] crawls with. *)
Definition analyzePageRequest (url : string) : CrawlRequest :=
  {| req_url := url; req_maxDepth := Some 1; req_maxPages := Some 1;
     req_delay := Some 500; req_includePatterns := None; req_excludePatterns := None;
     req_followExternalLinks := None |}.





Section WithProviders.
Context `{UrlApi} `{Web} `{Scheduler} `{Vector.AppConfig} `{Vector.EmbeddingProvider}
  `{Vector.IndexProvider} `{Vector.Clock}.


End WithProviders.

End Controllers.

(** ** Tokens *)

Module ChunkWords.

(** A token: not empty and free of whitespace. *)
Definition token (w : string) : Prop := w <> "" /\ JS.spaceless w = true.

End ChunkWords.

(** ** What a run of the vector service relates *)

Module VectorRuns.

Import Crawler Vector.

Section WithProviders.
Context `{UrlApi} `{EmbeddingProvider} `{IndexProvider}.

(** [builtFrom chunk e]: the record [e] was built from [chunk]: same
    metadata, the content cut at 40,000 code units, and an id made from the
    URL and the index of the chunk at some clock reading. *)
Definition builtFrom (chunk : TextChunk) (e : VectorEmbedding) : Prop :=
  vec_metadata e = chunk_metadata chunk
  /\ vec_content e = JS.substring0 40000 (chunk_content chunk)
  /\ exists u time,
       parseURL (c_url (chunk_metadata chunk)) = Some u
       /\ vec_id e = vectorIdOf u (chunkIndex (chunk_metadata chunk)) time.

(** [answered values]: the provider returned the array [values] in a
    response. *)
Definition answered (values : list Q) : Prop :=
  exists k model input data j,
    createEmbeddings k model input = EmbedData data /\ data !! j = Some (Some values).

(** [embeddingOf chunk e]: [e] was built from [chunk] and holds an array of
    the provider. *)
Definition embeddingOf (chunk : TextChunk) (e : VectorEmbedding) : Prop :=
  builtFrom chunk e /\ answered (values e).

(** The embedding provider answers every call with an array for every
    input. *)
Definition answersAll : Prop :=
  forall k model input,
    exists data,
      createEmbeddings k model input = EmbedData data
      /\ Forall2 (fun _ d => is_Some d) input data.

(** No array of the provider is empty. *)
Definition nonEmptyArrays : Prop := forall values, answered values -> values <> [].

(** The index provider accepts every [upsert]. *)
Definition acceptsAll : Prop :=
  forall k indexName namespace batch, upsert k indexName namespace batch = true.

(** A batch of a loop that takes up to 100 items at a time. *)
Definition isBatch {A} (b : list A) : Prop := (0 < length b <= 100)%nat.

End WithProviders.

End VectorRuns.

(** ** Users: the in-memory model, the service and the pagination helper *)

Module Users.

Record User : Type := {
  id : string;
  email : string;
  firstName : string;
  lastName : string;
  createdAt : Z;
  updatedAt : Z
}.

Record CreateUserRequest : Type := {
  c_email : string;
  c_firstName : string;
  c_lastName : string;
  c_password : string
}.

(** A key that is absent from the request is [None]. *)
Record UpdateUserRequest : Type := {
  u_email : option string;
  u_firstName : option string;
  u_lastName : option string
}.

Inductive SortOrder : Type := Asc | Desc.

(** What the service takes from its surroundings: [randomIndex k] is
    [Math.floor(Math.random() * chars.length)] at the [k]-th draw of a run,
    [newDate k] the [k]-th [new Date()], and [sortUsers] what
    [Array.prototype.sort] makes of a copy of the list with the comparator of
    [findAll] (which never answers 0): some reordering of the list. *)
Class Runtime : Type := {
  randomIndex : nat -> nat;
  randomIndex_lt : forall k, (randomIndex k < 62)%nat;
  newDate : nat -> Z;
  sortUsers : string -> SortOrder -> list User -> list User;
  sortUsers_perm : forall sortBy sortOrder users,
    Permutation (sortUsers sortBy sortOrder users) users
}.

(** The module-level array [users] and the draws and clock readings made so
    far. Calls are taken one at a time: no other call runs between the
    [await]s of a call. *)
Record Store : Type := {
  users : list User;
  draws : nat;
  dateReads : nat
}.

Definition M (A : Type) : Type := Store -> Store * Outcome A.

Definition ret {A} (a : A) : M A := fun s => (s, Return a).
Definition throw {A} (e : Exn) : M A := fun s => (s, Throw e).

Definition bind {A B} (m : M A) (k : A -> M B) : M B :=
  fun s =>
    match m s with
    | (s', Return a) => k a s'
    | (s', Throw e) => (s', Throw e)
    | (s', Diverge) => (s', Diverge)
    end.

(** [try { m } catch (error) { handler(error) }] *)
Definition tryCatch {A} (m : M A) (handler : Exn -> M A) : M A :=
  fun s =>
    match m s with
    | (s', Throw e) => handler e s'
    | r => r
    end.

Notation "x <- m ;; k" := (bind m (fun x => k))
  (at level 200, m at level 99, k at level 200, right associativity).

(** A quotient of two integers as a JavaScript number, after [Math.ceil]. *)
Inductive JSQuotient : Type :=
| Finite (z : Z)
| PosInfinity
| MinusInfinity
| NaN.

(** [Math.ceil(a / b)] for integers [a] and [b] (below 2^53 in size, where
    the rounding of the quotient does not reach the next integer). *)
Definition ceilDiv (a b : Z) : JSQuotient :=
  if b =? 0 then
    if 0 <? a then PosInfinity else if a <? 0 then MinusInfinity else NaN
  else Finite (Qceiling (inject_Z a / inject_Z b)).

(** [x < q] for an integer [x]. *)
Definition ltQuotient (x : Z) (q : JSQuotient) : bool :=
  match q with
  | Finite z => x <? z
  | PosInfinity => true
  | MinusInfinity => false
  | NaN => false
  end.

Record PaginationMeta : Type := {
  currentPage : Z;
  totalPages : JSQuotient;
  totalItems : Z;
  itemsPerPage : Z;
  hasNextPage : bool;
  hasPrevPage : bool
}.

(** [getPaginationMeta] *)
Definition getPaginationMeta (currentPage totalItems itemsPerPage : Z) : PaginationMeta :=
  let totalPages := ceilDiv totalItems itemsPerPage in
  {| currentPage := currentPage;
     totalPages := totalPages;
     totalItems := totalItems;
     itemsPerPage := itemsPerPage;
     hasNextPage := ltQuotient currentPage totalPages;
     hasPrevPage := 1 <? currentPage |}.

Definition chars : string :=
  "ABCDEFGHIJKLMNOPQRSTUVWXYZabcdefghijklmnopqrstuvwxyz0123456789".

(** [chars.charAt(i)] *)
Definition charAt (s : string) (i : nat) : string :=
  match String.get i s with
  | Some c => String c ""
  | None => ""
  end.

Section WithRuntime.
Context `{Runtime}.

(** The loop of [generateRandomString], from draw [k]. *)
Fixpoint randomChars (n k : nat) (result : string) : string :=
  match n with
  | O => result
  | S n' => randomChars n' (S k) (result +:+ charAt chars (randomIndex k))
  end.

(** [generateRandomString] *)
Definition generateRandomString (length : Z) : M string :=
  fun s =>
    ({| users := users s; draws := (draws s + Z.to_nat length)%nat;
        dateReads := dateReads s |},
     Return (randomChars (Z.to_nat length) (draws s) "")).

Definition date : M Z :=
  fun s =>
    ({| users := users s; draws := draws s; dateReads := S (dateReads s) |},
     Return (newDate (dateReads s))).

(** *** [UserModel] *)

Definition findAll (page limit : Z) (sortBy : string) (sortOrder : SortOrder)
    : M (list User * Z) :=
  fun s =>
    let startIndex := (page - 1) * limit in
    let endIndex := startIndex + limit in
    let sortedUsers := sortUsers sortBy sortOrder (users s) in
    (s, Return (JS.slice sortedUsers startIndex endIndex, Z.of_nat (length (users s)))).

Definition findById (id' : string) : M (option User) :=
  fun s => (s, Return (snd <$> list_find (fun user => id user = id') (users s))).

Definition findByEmail (email' : string) : M (option User) :=
  fun s => (s, Return (snd <$> list_find (fun user => email user = email') (users s))).

Definition create (userData : CreateUserRequest) : M User :=
  id' <- generateRandomString 12 ;;
  created <- date ;;
  updated <- date ;;
  fun s =>
    let newUser := {| id := id'; email := c_email userData;
                      firstName := c_firstName userData;
                      lastName := c_lastName userData;
                      createdAt := created; updatedAt := updated |} in
    ({| users := users s ++ [newUser]; draws := draws s; dateReads := dateReads s |},
     Return newUser).

Definition updateById (id' : string) (updateData : UpdateUserRequest) : M (option User) :=
  fun s =>
    match list_find (fun user => id user = id') (users s) with
    | None => (s, Return None)
    | Some (userIndex, existingUser) =>
        (updated <- date ;;
         fun s' =>
           let updatedUser :=
             {| id := id existingUser;
                email := default (email existingUser) (u_email updateData);
                firstName := default (firstName existingUser) (u_firstName updateData);
                lastName := default (lastName existingUser) (u_lastName updateData);
                createdAt := createdAt existingUser;
                updatedAt := updated |} in
           ({| users := <[userIndex := updatedUser]> (users s'); draws := draws s';
               dateReads := dateReads s' |},
            Return (Some updatedUser))) s
    end.

Definition deleteById (id' : string) : M bool :=
  fun s =>
    match list_find (fun user => id user = id') (users s) with
    | None => (s, Return false)
    | Some (userIndex, _) =>
        ({| users := delete userIndex (users s); draws := draws s;
            dateReads := dateReads s |},
         Return true)
    end.

Definition emailExists (email' : string) : M bool :=
  fun s => (s, Return (existsb (fun user => String.eqb (email user) email') (users s))).

(** *** [UserService] *)

(** [throw error instanceof AppError ? error : new AppError(message, 500)] *)
Definition rethrow {A} (message : string) (error : Exn) : M A :=
  match error with
  | AppError _ _ => throw error
  | PlainError _ => throw (AppError message 500)
  end.

Definition getAllUsers (page limit : Z) (sortBy : string) (sortOrder : SortOrder)
    : M (list User * PaginationMeta) :=
  tryCatch
    (found <- findAll page limit sortBy sortOrder ;;
     ret (fst found, getPaginationMeta page (snd found) limit))
    (fun _ => throw (AppError "Failed to fetch users" 500)).

Definition getUserById (id' : string) : M User :=
  tryCatch
    (user <- findById id' ;;
     match user with
     | Some user => ret user
     | None => throw (AppError "User not found" 404)
     end)
    (rethrow "Failed to fetch user").

Definition createUser (userData : CreateUserRequest) : M User :=
  tryCatch
    (existingUser <- findByEmail (c_email userData) ;;
     match existingUser with
     | Some _ => throw (AppError "Email already exists" 409)
     | None => create userData
     end)
    (rethrow "Failed to create user").

Definition updateUser (id' : string) (updateData : UpdateUserRequest) : M User :=
  tryCatch
    (existingUser <- findById id' ;;
     match existingUser with
     | None => throw (AppError "User not found" 404)
     | Some existingUser =>
         taken <-
           match u_email updateData with
           | Some email' =>
               if JS.truthy email' && negb (String.eqb email' (email existingUser))
               then emailExists email'
               else ret false
           | None => ret false
           end ;;
         if taken : bool then throw (AppError "Email already exists" 409)
         else
           updatedUser <- updateById id' updateData ;;
           match updatedUser with
           | Some updatedUser => ret updatedUser
           | None => throw (AppError "Failed to update user" 500)
           end
     end)
    (rethrow "Failed to update user").

Definition deleteUser (id' : string) : M unit :=
  tryCatch
    (userExists <- findById id' ;;
     match userExists with
     | None => throw (AppError "User not found" 404)
     | Some _ =>
         deleted <- deleteById id' ;;
         if deleted : bool then ret tt
         else throw (AppError "Failed to delete user" 500)
     end)
    (rethrow "Failed to delete user").

End WithRuntime.

End Users.

(** ** Reading pages of users *)

Module UserPages.

Import Users.

Section WithRuntime.
Context `{Runtime}.

(** The users that [getAllUsers] returns for a page. *)
Definition pageOf (page limit : Z) (sortBy : string) (sortOrder : SortOrder) (s : Store)
    : list User :=
  match getAllUsers page limit sortBy sortOrder s with
  | (_, Return (users, _)) => users
  | _ => []
  end.

End WithRuntime.

End UserPages.

(** ** An example runtime and store *)

Module UserFixture.

Import Users.

(** Draws that walk through the alphabet, a clock that advances by one
    millisecond per reading, and a sort that keeps the order of creation or
    reverses it. *)
Definition walk (k : nat) : nat := (k mod 62)%nat.

Definition byCreation (sortBy : string) (sortOrder : SortOrder) (users : list User)
    : list User :=
  match sortOrder with
  | Asc => users
  | Desc => rev users
  end.

#[export] Instance runtime : Runtime :=
  {| randomIndex := walk;
     randomIndex_lt := fun k => Nat.mod_upper_bound k 62 (Nat.neq_succ_0 61);
     newDate := fun k => 1762041600000 + Z.of_nat k;
     sortUsers := byCreation;
     sortUsers_perm := fun _ sortOrder users =>
       match sortOrder as o return Permutation (byCreation "" o users) users with
       | Asc => Permutation_refl users
       | Desc => Permutation_sym (Permutation_rev users)
       end |}.

Definition emptyStore : Store := {| users := []; draws := 0; dateReads := 0 |}.

Definition user (n : Z) (name : string) : User :=
  {| id := name; email := name +:+ "@example.com"; firstName := name; lastName := "Doe";
     createdAt := n; updatedAt := n |}.

(** A store of five users. *)
Definition fiveUsers : Store :=
  {| users := [user 1 "ann"; user 2 "bob"; user 3 "cy"; user 4 "dee"; user 5 "eve"];
     draws := 60; dateReads := 10 |}.

Definition newcomer : CreateUserRequest :=
  {| c_email := "fay@example.com"; c_firstName := "Fay"; c_lastName := "Doe";
     c_password := "secret" |}.

End UserFixture.

(** * Properties *)

(** ** Facts about the string and array primitives *)

Module JSFacts.

Import JS.

Lemma rel_index_nonneg (len : nat) (k : Z) :
  0 <= k -> rel_index len k = Nat.min (Z.to_nat k) len.
Proof.
  intros Hk. unfold rel_index.
  destruct (k <? 0) eqn:E; [apply Z.ltb_lt in E; lia | reflexivity].
Qed.

Lemma length_slice {A} (xs : list A) (a b : Z) :
  0 <= a -> 0 <= b ->
  length (slice xs a b)
  = (Nat.min (Z.to_nat b) (length xs) - Nat.min (Z.to_nat a) (length xs))%nat.
Proof.
  intros Ha Hb. unfold slice.
  rewrite !rel_index_nonneg by assumption.
  rewrite length_take, length_drop. lia.
Qed.

(** A slice that starts inside the list and has a positive width is not empty. *)
Lemma slice_cons {A} (xs : list A) (a b : Z) :
  0 <= a < Z.of_nat (length xs) -> a < b ->
  exists x rest, xs !! Z.to_nat a = Some x /\ slice xs a b = x :: rest.
Proof.
  intros Ha Hb. unfold slice.
  rewrite !rel_index_nonneg by lia.
  rewrite (Nat.min_l (Z.to_nat a)) by lia.
  destruct (lookup_lt_is_Some_2 xs (Z.to_nat a)) as [x Hx]; [lia|].
  exists x. rewrite (drop_S _ _ _ Hx).
  destruct (Nat.min (Z.to_nat b) (length xs) - Z.to_nat a)%nat eqn:E; [lia|].
  simpl. eauto.
Qed.

Lemma split_ws_nonempty (s : string) : split_ws s <> [].
Proof.
  induction s as [|c s IH]; simpl; [discriminate|].
  destruct (is_space c).
  - destruct s as [|c' s']; [discriminate|].
    destruct (is_space c'); [exact IH | discriminate].
  - destruct (split_ws s); discriminate.
Qed.

Lemma length_split_ws_pos (s : string) : (0 < length (split_ws s))%nat.
Proof.
  pose proof (split_ws_nonempty s). destruct (split_ws s); simpl; [congruence | lia].
Qed.

Lemma trimEnd_empty (s : string) : trimEnd s = "" <-> blank s = true.
Proof.
  induction s as [|c s IH]; simpl; [tauto|].
  destruct (trimEnd s) eqn:E.
  - destruct (is_space c); simpl; [tauto | split; discriminate].
  - split; [discriminate|].
    intros Hb. apply andb_true_iff in Hb as [_ Hb].
    apply IH in Hb. discriminate.
Qed.

Lemma blank_trimStart (s : string) : blank (trimStart s) = blank s.
Proof.
  induction s as [|c s IH]; simpl; [reflexivity|].
  destruct (is_space c) eqn:E; simpl; [exact IH | now rewrite E].
Qed.

Lemma truthy_trim (s : string) : truthy (trim s) = negb (blank s).
Proof.
  unfold trim. rewrite <- (blank_trimStart s).
  destruct (trimEnd (trimStart s)) eqn:E.
  - apply trimEnd_empty in E. now rewrite E.
  - destruct (blank (trimStart s)) eqn:B; [|reflexivity].
    apply trimEnd_empty in B. congruence.
Qed.

(** No field of [split_ws] contains whitespace. *)
Lemma split_ws_spaceless (s : string) : Forall (fun w => spaceless w = true) (split_ws s).
Proof.
  induction s as [|c s IH]; simpl.
  - repeat constructor.
  - destruct (is_space c) eqn:E.
    + destruct s as [|c' s']; [repeat constructor|].
      destruct (is_space c'); [exact IH | constructor; [reflexivity | exact IH]].
    + destruct (split_ws s) as [|h t]; [repeat constructor; simpl; now rewrite E|].
      inversion IH; subst. constructor; [simpl; rewrite E; assumption | assumption].
Qed.

Lemma blank_app (s t : string) : blank (s +:+ t) = blank s && blank t.
Proof.
  induction s as [|c s IH]; simpl; [reflexivity|].
  rewrite IH. now rewrite andb_assoc.
Qed.

Lemma spaceless_not_blank (w : string) : spaceless w = true -> w <> "" -> blank w = false.
Proof.
  destruct w as [|c w]; [congruence|]. simpl.
  intros Hs _. apply andb_true_iff in Hs as [Hc _].
  destruct (is_space c); [discriminate | reflexivity].
Qed.

(** Joining fields of which the first is a non-empty token gives non-blank text. *)
Lemma join_not_blank (w : string) (ws : list string) :
  spaceless w = true -> w <> "" -> blank (join " " (w :: ws)) = false.
Proof.
  intros Hs Hne. unfold join. simpl.
  destruct ws; [now apply spaceless_not_blank|].
  change (blank (w +:+ (" " +:+ String.concat " " (s :: ws))) = false).
  rewrite blank_app, (spaceless_not_blank w Hs Hne). reflexivity.
Qed.

End JSFacts.

(** ** Chunker *)

Module ChunkerFacts.

Import JS JSFacts Chunker.

Lemma chunkLoop_S fuel words chunkSize overlap i chunks :
  chunkLoop (S fuel) words chunkSize overlap i chunks
  = if i <? Z.of_nat (length words)
    then chunkLoop fuel words chunkSize overlap (i + (chunkSize - overlap))
           (pushWindow words chunkSize i chunks)
    else Some chunks.
Proof. reflexivity. Qed.

(** More fuel does not change a result. *)
Lemma chunkLoop_fuel_mono fuel fuel' words chunkSize overlap i chunks r :
  chunkLoop fuel words chunkSize overlap i chunks = Some r ->
  (fuel <= fuel')%nat ->
  chunkLoop fuel' words chunkSize overlap i chunks = Some r.
Proof.
  revert fuel' i chunks.
  induction fuel as [|fuel IH]; intros fuel' i chunks Hr Hle; [discriminate|].
  destruct fuel' as [|fuel']; [lia|].
  rewrite chunkLoop_S in *.
  destruct (i <? Z.of_nat (length words)); [|assumption].
  apply IH; [assumption | lia].
Qed.

(** With a positive step the loop returns once the fuel exceeds the number
    of words left. *)
Lemma chunkLoop_terminates fuel words chunkSize overlap i chunks :
  overlap < chunkSize ->
  (Z.to_nat (Z.of_nat (length words) - i) < fuel)%nat ->
  exists r, chunkLoop fuel words chunkSize overlap i chunks = Some r.
Proof.
  intros Hstep. revert i chunks.
  induction fuel as [|fuel IH]; intros i chunks Hfuel; [lia|].
  rewrite chunkLoop_S.
  destruct (i <? Z.of_nat (length words)) eqn:E; [|eauto].
  apply Z.ltb_lt in E. apply IH. lia.
Qed.

(** With a step of zero or less the loop never leaves the list. *)
Lemma chunkLoop_diverges fuel words chunkSize overlap i chunks :
  chunkSize <= overlap ->
  i < Z.of_nat (length words) ->
  chunkLoop fuel words chunkSize overlap i chunks = None.
Proof.
  intros Hstep. revert i chunks.
  induction fuel as [|fuel IH]; intros i chunks Hi; [reflexivity|].
  rewrite chunkLoop_S.
  destruct (i <? Z.of_nat (length words)) eqn:E; [|apply Z.ltb_ge in E; lia].
  apply IH. lia.
Qed.

Lemma chunkText_length fuel text chunkSize overlap chunks :
  chunkText fuel text chunkSize overlap = Some chunks -> (1 <= length chunks)%nat.
Proof.
  unfold chunkText.
  destruct (chunkLoop _ _ _ _ _ _) as [r|]; [|discriminate].
  intros [= <-].
  destruct (0 <? Z.of_nat (length r)) eqn:E; [apply Z.ltb_lt in E; lia | simpl; lia].
Qed.

Lemma chunkText_fuel_mono fuel fuel' text chunkSize overlap chunks :
  chunkText fuel text chunkSize overlap = Some chunks ->
  (fuel <= fuel')%nat ->
  chunkText fuel' text chunkSize overlap = Some chunks.
Proof.
  unfold chunkText. intros Hr Hle.
  destruct (chunkLoop fuel _ _ _ _ _) as [r|] eqn:E; [|discriminate].
  now rewrite (chunkLoop_fuel_mono _ _ _ _ _ _ _ _ E Hle).
Qed.

Lemma chunkText_terminates fuel text chunkSize overlap :
  overlap < chunkSize ->
  (length (split_ws text) < fuel)%nat ->
  exists chunks, chunkText fuel text chunkSize overlap = Some chunks.
Proof.
  intros Hstep Hfuel. unfold chunkText.
  destruct (chunkLoop_terminates fuel (split_ws text) chunkSize overlap 0 [] Hstep)
    as [r ->]; [lia | eauto].
Qed.

Lemma chunkText_diverges fuel text chunkSize overlap :
  chunkSize <= overlap -> chunkText fuel text chunkSize overlap = None.
Proof.
  intros Hstep. unfold chunkText.
  rewrite chunkLoop_diverges; [reflexivity | assumption |].
  pose proof (length_split_ws_pos text). lia.
Qed.

(** A window that starts at a token is kept. *)
Lemma pushWindow_token words chunkSize i chunks :
  Forall (fun w => w <> "") words ->
  Forall (fun w => spaceless w = true) words ->
  0 <= i < Z.of_nat (length words) -> 0 < chunkSize ->
  pushWindow words chunkSize i chunks
  = chunks ++ [trim (join " " (slice words i (i + chunkSize)))].
Proof.
  intros Hne Hsp Hi Hc. unfold pushWindow.
  destruct (slice_cons words i (i + chunkSize)) as (w & rest & Hw & ->); [lia | lia |].
  rewrite truthy_trim, join_not_blank; [reflexivity | |].
  - eapply Forall_lookup_1 in Hsp; eauto.
  - eapply Forall_lookup_1 in Hne; eauto.
Qed.

(** The loop collects, in order, the chunk of every window that starts
    below the number of words, and nothing else. *)
Lemma chunkLoop_windows words chunkSize overlap :
  overlap < chunkSize -> 0 < chunkSize ->
  Forall (fun w => w <> "") words ->
  Forall (fun w => spaceless w = true) words ->
  forall fuel k chunks r,
    (forall j, (j < k)%nat ->
       Z.of_nat j * (chunkSize - overlap) < Z.of_nat (length words)
       /\ chunks !! j = Some (windowChunk words chunkSize overlap j)) ->
    length chunks = k ->
    chunkLoop fuel words chunkSize overlap (Z.of_nat k * (chunkSize - overlap)) chunks
    = Some r ->
    forall j,
      r !! j = if Z.of_nat j * (chunkSize - overlap) <? Z.of_nat (length words)
               then Some (windowChunk words chunkSize overlap j) else None.
Proof.
  intros Hstep Hsize Hne Hsp.
  induction fuel as [|fuel IH]; intros k chunks r Hinv Hlen Hr j; [discriminate|].
  rewrite chunkLoop_S in Hr.
  destruct (Z.of_nat k * (chunkSize - overlap) <? Z.of_nat (length words)) eqn:E.
  - apply Z.ltb_lt in E.
    rewrite pushWindow_token in Hr by (assumption || nia).
    replace (Z.of_nat k * (chunkSize - overlap) + (chunkSize - overlap))
      with (Z.of_nat (S k) * (chunkSize - overlap)) in Hr by lia.
    refine (IH (S k) _ r _ _ Hr j); [|rewrite length_app; simpl; lia].
    intros j' Hj'. destruct (decide (j' = k)) as [->|Hnk].
    + split; [exact E|].
      rewrite lookup_app_r by lia. rewrite Hlen, Nat.sub_diag. reflexivity.
    + destruct (Hinv j' ltac:(lia)) as [Hlt Hl]. split; [exact Hlt|].
      rewrite lookup_app_l by lia. exact Hl.
  - apply Z.ltb_ge in E. injection Hr as <-.
    destruct (Nat.lt_ge_cases j k) as [Hj|Hj].
    + destruct (Hinv j Hj) as [Hlt Hl].
      apply Z.ltb_lt in Hlt. now rewrite Hlt.
    + rewrite lookup_ge_None_2 by lia.
      destruct (Z.of_nat j * (chunkSize - overlap) <? Z.of_nat (length words)) eqn:E';
        [|reflexivity].
      apply Z.ltb_lt in E'. nia.
Qed.

End ChunkerFacts.

(** ** Chunking of pages (VectorService.processIntoChunks) *)

Module VectorChunkFacts.

Import JS JSFacts Chunker ChunkerFacts Crawler Vector.

Section WithUrls.
Context `{UrlApi}.

Lemma pageChunksOf_spec page dom chunkSize chunkOverlap pageChunks c :
  c ∈ pageChunksOf page dom chunkSize chunkOverlap pageChunks ->
  totalChunks (chunk_metadata c) = Z.of_nat (length pageChunks)
  /\ c_url (chunk_metadata c) = url page.
Proof.
  unfold pageChunksOf. intros Hc.
  apply elem_of_lookup_imap_1 in Hc as (i & x & -> & _). simpl. auto.
Qed.

(** Every page gets its chunks when the fuel exceeds the token count of
    each page. *)
Lemma processIntoChunks_total fuel pages chunkSize chunkOverlap :
  chunkOverlap < chunkSize ->
  Forall (fun page => (length (split_ws (fullText page)) < fuel)%nat) pages ->
  exists chunks,
    processIntoChunks fuel pages chunkSize chunkOverlap = Some chunks
    /\ Forall (fun c => 1 <= totalChunks (chunk_metadata c)) chunks
    /\ forall page, page ∈ pages -> is_Some (parseURL (url page)) ->
         exists c, c ∈ chunks /\ c_url (chunk_metadata c) = url page.
Proof.
  intros Hstep Hfuel.
  induction Hfuel as [|page pages Hpage Hpages (chunks & IH & Htot & Hall)]; simpl.
  - exists []. split; [reflexivity|]. split; [constructor|].
    intros page Hin. inversion Hin.
  - destruct (parseURL (url page)) as [u|] eqn:Hu.
    + destruct (chunkText_terminates fuel (fullText page) chunkSize chunkOverlap Hstep Hpage)
        as [pageChunks Hpc].
      rewrite Hpc, IH.
      pose proof (chunkText_length _ _ _ _ _ Hpc) as Hlen.
      eexists. split; [reflexivity|]. split.
      * apply Forall_app. split; [|assumption].
        apply Forall_forall. intros c Hc.
        apply pageChunksOf_spec in Hc as [-> _]. lia.
      * intros page' Hin Hsome.
        apply elem_of_cons in Hin as [->|Hin].
        -- destruct pageChunks as [|pc rest]; [simpl in Hlen; lia|].
           eexists. split; [apply elem_of_app; left; unfold pageChunksOf; simpl; left|].
           reflexivity.
        -- destruct (Hall page' Hin Hsome) as (c & Hc & Hcu).
           exists c. split; [apply elem_of_app; right; assumption | assumption].
    + exists chunks. split; [assumption|]. split; [assumption|].
      intros page' Hin Hsome.
      apply elem_of_cons in Hin as [->|Hin]; [rewrite Hu in Hsome; destruct Hsome; discriminate|].
      auto.
Qed.

(** C8. For every text and every pair with [0 <= chunkOverlap < chunkSize],
    [chunkText] returns (the fuel of one turn per word and one more is
    enough, and more fuel gives the same list) at least one chunk, the whole
    text when the loop kept no window; so [processIntoChunks] returns, every
    chunk it makes has [totalChunks >= 1], and every page whose URL parses
    gets a chunk. With [chunkSize <= chunkOverlap] the loop of [chunkText]
    never ends, whatever the text. *)
Theorem chunkText_returns_a_chunk (chunkSize chunkOverlap : Z) :
  (0 <= chunkOverlap < chunkSize ->
   (forall text,
      exists chunks,
        (forall fuel, (length (split_ws text) < fuel)%nat ->
                      chunkText fuel text chunkSize chunkOverlap = Some chunks)
        /\ (1 <= length chunks)%nat
        /\ (forall fuel, chunkLoop fuel (split_ws text) chunkSize chunkOverlap 0 [] = Some [] ->
                         chunks = [text]))
   /\ (forall fuel pages,
         Forall (fun page => (length (split_ws (fullText page)) < fuel)%nat) pages ->
         exists chunks,
           processIntoChunks fuel pages chunkSize chunkOverlap = Some chunks
           /\ Forall (fun c => 1 <= totalChunks (chunk_metadata c)) chunks
           /\ forall page, page ∈ pages -> is_Some (parseURL (url page)) ->
                exists c, c ∈ chunks /\ c_url (chunk_metadata c) = url page))
  /\ (chunkSize <= chunkOverlap ->
      forall fuel text, chunkText fuel text chunkSize chunkOverlap = None).
Proof.
  split.
  - intros [_ Hstep]. split.
    + intros text.
      destruct (chunkText_terminates (S (length (split_ws text))) text chunkSize chunkOverlap
                  Hstep) as [chunks Hc]; [lia|].
      exists chunks. split; [|split].
      * intros fuel Hfuel. eapply chunkText_fuel_mono; [exact Hc | lia].
      * eapply chunkText_length; eassumption.
      * intros fuel Hloop. unfold chunkText in Hc.
        destruct (chunkLoop (S _) _ _ _ _ _) as [r|] eqn:E; [|discriminate].
        destruct (Nat.le_ge_cases fuel (S (length (split_ws text)))) as [Hle|Hle].
        -- rewrite (chunkLoop_fuel_mono _ _ _ _ _ _ _ _ Hloop Hle) in E.
           injection E as <-. now injection Hc as <-.
        -- rewrite (chunkLoop_fuel_mono _ _ _ _ _ _ _ _ E Hle) in Hloop.
           injection Hloop as ->. now injection Hc as <-.
    + intros fuel pages. now apply processIntoChunks_total.
  - intros Hstep fuel text. now apply chunkText_diverges.
Qed.

End WithUrls.

#[local] Existing Instance Fixture.httpsUrls.

(** The theorem at [chunkSize = 1000, chunkOverlap = 200], and the loop that
    does not end at [chunkSize = 100, chunkOverlap = 200]. *)
Lemma chunkText_returns_a_chunk_witness :
  (exists chunks,
     processIntoChunks 2600 [Fixture.longPage] 1000 200 = Some chunks
     /\ Forall (fun c => 1 <= totalChunks (chunk_metadata c)) chunks)
  /\ chunkText 2600 (fullText Fixture.longPage) 100 200 = None.
Proof.
  split.
  - destruct (proj1 (chunkText_returns_a_chunk 1000 200) ltac:(lia)) as [_ Hp].
    destruct (Hp 2600%nat [Fixture.longPage]) as (chunks & Hc & Htot & _).
    + constructor; [apply Nat.ltb_lt; vm_compute; reflexivity | constructor].
    + exists chunks. split; assumption.
  - apply (proj2 (chunkText_returns_a_chunk 100 200)). lia.
Defined.





End VectorChunkFacts.

(** ** Retrieval and answer synthesis *)

Module RAGFacts.

Import RAG.

Lemma clamp100_bounds (x : Q) : (0 <= clamp100 x /\ clamp100 x <= 100)%Q.
Proof.
  unfold clamp100. split.
  - apply Q.min_glb; [apply Q.le_max_r | discriminate].
  - apply Q.le_min_r.
Qed.

Section WithProviders.
Context `{Providers}.

Lemma usedMatches_all (ms : list RAGMatch) :
  Forall (fun m => hasContent m = true) ms -> usedMatches ms = ms.
Proof.
  unfold usedMatches. induction 1 as [|m ms Hm _ IH]; [reflexivity|].
  rewrite filter_cons_True by assumption. now rewrite IH.
Qed.

(** The converse: a match list that the filter leaves unchanged has content
    in every match. *)
Lemma usedMatches_all_inv (ms : list RAGMatch) :
  usedMatches ms = ms -> Forall (fun m => hasContent m = true) ms.
Proof.
  unfold usedMatches. intros E. apply Forall_forall. intros m Hm.
  rewrite <- E in Hm. apply list_elem_of_filter in Hm. apply Hm.
Qed.

(** C3, amended. For every answer that [generateRAGAnswer] returns, the
    search it ran returned a match list of which at least one match has
    content. The context is built from the matches with content only: the
    answer is what the completion provider gave for the prompt whose context
    is the blocks of exactly those matches, in their order. The returned
    sources, however, are the whole match list, and the confidence is
    [clamp(mean(score) * 100, 0, 100)] with the mean taken over the whole
    match list; it lies within [0, 100]. The sources are the matches used for
    the context exactly when every match has content. *)
Theorem answer_sources_and_confidence (request : RAGQueryRequest) (r : RAGQueryResponse) :
  generateRAGAnswer request = Return r ->
  exists searchResponse,
    performVectorSearch (searchRequestOf request) = Return searchResponse
    /\ usedMatches (matches searchResponse) <> []
    /\ sources r = matches searchResponse
    /\ confidence r = clamp100 (meanScore (matches searchResponse) * 100)%Q
    /\ (0 <= confidence r /\ confidence r <= 100)%Q
    /\ (Forall (fun m => hasContent m = true) (matches searchResponse) ->
        sources r = usedMatches (matches searchResponse))
    /\ (forall m, m ∈ usedMatches (matches searchResponse)
                  <-> m ∈ matches searchResponse /\ hasContent m = true)
    /\ usedMatches (matches searchResponse) `sublist_of` matches searchResponse
    /\ complete systemPrompt
         (userPrompt (query request)
            (JS.join separator
               (imap contextPart (usedMatches (matches searchResponse)))))
       = CompletionContent (Some (answer r))
    /\ (sources r = usedMatches (matches searchResponse) ->
        Forall (fun m => hasContent m = true) (matches searchResponse)).
Proof.
  unfold generateRAGAnswer, answerBody. intros Hr.
  destruct (performVectorSearch (searchRequestOf request)) as [resp|e|] eqn:Hs;
    [|destruct e; discriminate|discriminate].
  exists resp. split; [reflexivity|].
  destruct (length (matches resp) =? 0)%nat; [discriminate|].
  rewrite length_imap in Hr.
  destruct (length (usedMatches (matches resp)) =? 0)%nat eqn:Hused; [discriminate|].
  destruct (complete _ _) as [|content] eqn:Hcomplete; [discriminate|].
  destruct content as [content|]; [|discriminate].
  unfold truthyStr in Hr. destruct (JS.truthy content) eqn:Ht; [|discriminate].
  injection Hr as <-. cbn [sources confidence answer].
  split; [intros E; rewrite E in Hused; discriminate|].
  split; [reflexivity|]. split; [reflexivity|]. split; [apply clamp100_bounds|].
  split; [intros Hall; now rewrite usedMatches_all|].
  split; [intros m; unfold usedMatches; rewrite list_elem_of_filter; tauto|].
  split; [apply sublist_filter|].
  split; [reflexivity|].
  intros E. apply usedMatches_all_inv. now symmetry.
Qed.

(** C7, amended. When the query embedding is there and the index provider
    returns no match list, [performVectorSearch] throws the [AppError]
    "Failed to perform vector search" with status 500, the error it throws
    when the provider call itself fails, and not one of the NotFound kind;
    when the provider returns an empty list, it returns a result with no
    match and [totalMatches = 0]. *)
Theorem search_no_list_vs_empty_list (request : RAGSearchRequest) (queryVector : list Q) :
  queryEmbedding (query request) = Some queryVector ->
  (runQuery request queryVector = QueryMatches None ->
   performVectorSearch request = Throw (AppError "Failed to perform vector search" 500))
  /\ (runQuery request queryVector = QueryThrows ->
      performVectorSearch request = Throw (AppError "Failed to perform vector search" 500))
  /\ isNotFound (AppError "Failed to perform vector search" 500) = false
  /\ (runQuery request queryVector = QueryMatches (Some []) ->
      performVectorSearch request
      = Return {| matches := []; s_query := query request;
                  s_namespace := namespace request; totalMatches := 0 |}).
Proof.
  intros He. unfold performVectorSearch, searchBody, generateQueryEmbedding. rewrite He.
  repeat split; intros ->; reflexivity.
Qed.

End WithProviders.

(** C3, as stated, fails: of the two matches of this index only the first
    has content and is used for the context, yet both are returned as
    sources, and the confidence is 50, the clamped mean over both, where the
    mean over the match used gives 90. *)
Lemma answer_sources_include_unused_matches :
  exists r,
    @generateRAGAnswer Fixture.twoMatches Fixture.question = Return r
    /\ length (sources r) = 2%nat
    /\ length (usedMatches (sources r)) = 1%nat
    /\ sources r <> usedMatches (sources r)
    /\ (confidence r == 50)%Q
    /\ (clamp100 (meanScore (usedMatches (sources r)) * 100) == 90)%Q
    /\ ~ (confidence r == clamp100 (meanScore (usedMatches (sources r)) * 100))%Q.
Proof.
  eexists. split; [vm_compute; reflexivity|]. simpl sources; simpl confidence.
  split; [reflexivity|]. split; [reflexivity|].
  split; [intros E; apply (f_equal length) in E; vm_compute in E; discriminate|].
  split; [reflexivity|]. split; [reflexivity|].
  intros E. vm_compute in E. discriminate.
Qed.

(** The index with two matches: the completion is asked with the block of
    the one match that has content, and both matches are returned. *)
Lemma answer_sources_and_confidence_witness :
  exists r searchResponse,
    @generateRAGAnswer Fixture.twoMatches Fixture.question = Return r
    /\ @performVectorSearch Fixture.twoMatches (searchRequestOf Fixture.question)
       = Return searchResponse
    /\ sources r = matches searchResponse
    /\ (0 <= confidence r /\ confidence r <= 100)%Q
    /\ @complete Fixture.twoMatches systemPrompt
         (userPrompt (query Fixture.question)
            (JS.join separator (imap contextPart (usedMatches (matches searchResponse)))))
       = CompletionContent (Some (answer r)).
Proof.
  destruct (@generateRAGAnswer Fixture.twoMatches Fixture.question) as [r| |] eqn:E;
    [|vm_compute in E; discriminate|vm_compute in E; discriminate].
  destruct (@answer_sources_and_confidence Fixture.twoMatches Fixture.question r E)
    as (resp & Hs & _ & Hsrc & _ & Hb & _ & _ & _ & Hc & _).
  exists r, resp. split; [reflexivity|]. split; [exact Hs|]. split; [exact Hsrc|].
  split; [exact Hb | exact Hc].
Defined.

(** C7, as stated, fails: when the response carries no match list the
    error thrown has status 500 and is not of the NotFound kind. *)
Lemma search_no_list_is_not_NotFound :
  exists e,
    @performVectorSearch Fixture.noMatchList Fixture.question = Throw e
    /\ e = AppError "Failed to perform vector search" 500
    /\ isNotFound e = false.
Proof. eexists. split; [vm_compute; reflexivity|]. split; reflexivity. Qed.

Lemma search_no_list_vs_empty_list_witness :
  @performVectorSearch Fixture.noMatchList Fixture.question
  = Throw (AppError "Failed to perform vector search" 500)
  /\ @performVectorSearch Fixture.emptyMatchList Fixture.question
     = Return {| matches := []; s_query := query Fixture.question;
                 s_namespace := namespace Fixture.question; totalMatches := 0 |}.
Proof.
  split.
  - apply (proj1 (@search_no_list_vs_empty_list Fixture.noMatchList Fixture.question
                    [1 # 2]%Q eq_refl)).
    reflexivity.
  - apply (proj2 (proj2 (proj2 (@search_no_list_vs_empty_list Fixture.emptyMatchList
                                  Fixture.question [1 # 2]%Q eq_refl)))).
    reflexivity.
Defined.

End RAGFacts.

(** ** Embedding and storage *)


(** ** Embedding and storage *)

Module VectorFacts.

Import JS JSFacts Crawler Vector.

(** *** The format of vector ids *)

Lemma length_replaceOutside keep s :
  String.length (replaceOutside keep s) = String.length s.
Proof. induction s as [|c s IH]; simpl; [reflexivity | now rewrite IH]. Qed.

Lemma length_substring0 n s :
  0 <= n -> Z.of_nat (String.length (substring0 n s)) <= n.
Proof.
  revert n. induction s as [|c s IH]; intros n Hn; simpl; [lia|].
  destruct (0 <? n) eqn:E; simpl; [|lia].
  apply Z.ltb_lt in E. specialize (IH (n - 1) ltac:(lia)). lia.
Qed.

Lemma substring0_nonempty n c s : 0 < n -> substring0 n (String c s) <> "".
Proof.
  intros Hn. simpl. destruct (0 <? n) eqn:E; [discriminate|].
  apply Z.ltb_ge in E. lia.
Qed.

Lemma replaceOutside_nonempty keep s : s <> "" -> replaceOutside keep s <> "".
Proof. destruct s; [congruence | discriminate]. Qed.

Lemma replaceOutside_idChars s : allChars is_idChar (replaceOutside is_idChar s).
Proof.
  unfold allChars. induction s as [|c s IH]; simpl; constructor; [|assumption].
  destruct (is_idChar c) eqn:E; [assumption | reflexivity].
Qed.

Lemma substring0_app_l n a b :
  Z.of_nat (String.length a) >= n -> substring0 n (a +:+ b) = substring0 n a.
Proof.
  revert n. induction a as [|c a IH]; intros n Hn; simpl in *.
  - destruct b; simpl; [reflexivity|].
    destruct (0 <? n) eqn:E; [apply Z.ltb_lt in E; lia | reflexivity].
  - destruct (0 <? n); [|reflexivity].
    f_equal. apply IH. lia.
Qed.

Lemma length_app_string a b :
  String.length (a +:+ b) = (String.length a + String.length b)%nat.
Proof. induction a as [|c a IH]; simpl; [reflexivity | now rewrite IH]. Qed.

Lemma app_string_assoc a b c : (a +:+ b) +:+ c = a +:+ (b +:+ c).
Proof.
  induction a as [|x a IH]; [reflexivity|].
  change (String x ((a +:+ b) +:+ c) = String x (a +:+ (b +:+ c))).
  now rewrite IH.
Qed.

(** A vector id is not empty, has at most 512 code units, all of them
    letters, digits, [_] or [-], and is a function of the host name, the
    path, the chunk index and the clock reading. *)
Lemma vectorIdOf_format (u : URL) (index time : Z) :
  vectorIdOf u index time <> ""
  /\ Z.of_nat (String.length (vectorIdOf u index time)) <= 512
  /\ allChars is_idChar (vectorIdOf u index time).
Proof.
  unfold vectorIdOf. split; [|split].
  - apply replaceOutside_nonempty.
    destruct (replaceOutside is_alnum (hostname u)) as [|c h];
      [|apply substring0_nonempty; lia].
    destruct (replaceOutside is_alnum (pathname u)) as [|c p];
      apply substring0_nonempty; lia.
  - rewrite length_replaceOutside. apply length_substring0. lia.
  - apply replaceOutside_idChars.
Qed.

(** When host name and path have 512 code units or more, the chunk index and
    the clock reading are cut off: all chunks of the page get one id. *)
Lemma vectorIdOf_long_path (u : URL) (index index' time time' : Z) :
  (512 <= String.length (hostname u) + String.length (pathname u))%nat ->
  vectorIdOf u index time = vectorIdOf u index' time'.
Proof.
  intros Hlen. unfold vectorIdOf. cbv zeta.
  rewrite !app_string_assoc.
  rewrite <- !(app_string_assoc (replaceOutside is_alnum (hostname u))
                 (replaceOutside is_alnum (pathname u))).
  assert (Hhp : Z.of_nat (String.length (replaceOutside is_alnum (hostname u)
                                          +:+ replaceOutside is_alnum (pathname u))) >= 512)
    by (rewrite length_app_string, !length_replaceOutside; lia).
  now rewrite !(substring0_app_l 512 _ _ Hhp).
Qed.

(** *** Embedding in batches *)

Section WithProviders.
Context `{UrlApi} `{AppConfig} `{EmbeddingProvider} `{IndexProvider} `{Clock}.

Lemma embedLoop_S fuel model chunks i embeddings :
  embedLoop (S fuel) model chunks i embeddings
  = if (i <? length chunks)%nat then
      data <- callEmbeddings model
                (map chunk_content (slice chunks (Z.of_nat i) (Z.of_nat (i + 100)))) ;;
      embeddings' <- embedBatch data (slice chunks (Z.of_nat i) (Z.of_nat (i + 100)))
                       0 embeddings ;;
      embedLoop fuel model chunks (i + 100) embeddings'
    else ret embeddings.
Proof. reflexivity. Qed.

(** Making the ids of a batch reads the clock and nothing else; it does not
    diverge, and it returns when the URLs of the batch parse. *)
Lemma embedBatch_run data batch : forall index embeddings w,
  embedCalls (embedBatch data batch index embeddings w).1 = embedCalls w
  /\ upsertCalls (embedBatch data batch index embeddings w).1 = upsertCalls w
  /\ (embedBatch data batch index embeddings w).2 <> Diverge
  /\ (Forall parseable batch ->
      exists embeddings', (embedBatch data batch index embeddings w).2 = Return embeddings').
Proof.
  induction batch as [|chunk batch IH]; intros index embeddings w.
  - simpl. split; [reflexivity|]. split; [reflexivity|]. split; [discriminate | eauto].
  - assert (Hrest : forall e w',
              embedCalls w' = embedCalls w -> upsertCalls w' = upsertCalls w ->
              embedCalls (embedBatch data batch (S index) e w').1 = embedCalls w
              /\ upsertCalls (embedBatch data batch (S index) e w').1 = upsertCalls w
              /\ (embedBatch data batch (S index) e w').2 <> Diverge
              /\ (Forall parseable (chunk :: batch) ->
                  exists embeddings', (embedBatch data batch (S index) e w').2
                                      = Return embeddings')).
    { intros e w' Hc Hs.
      destruct (IH (S index) e w') as (Hc' & Hs' & Hd & Hr).
      split; [congruence|]. split; [congruence|]. split; [assumption|].
      intros Hall. inversion Hall; subst. auto. }
    destruct (data !! index) as [[embedding|]|] eqn:Hdata.
    + destruct (parseURL (c_url (chunk_metadata chunk))) as [u|] eqn:Hu.
      * assert (Heq : exists e,
                  embedBatch data (chunk :: batch) index embeddings w
                  = embedBatch data batch (S index) e (tick w)).
        { simpl. rewrite Hdata. unfold bind, generateVectorId. rewrite Hu.
          unfold bind, dateNow, ret.
          match goal with
          | |- context [if ?b then _ else _] => destruct b
          end; eauto. }
        destruct Heq as [e ->]. now apply Hrest.
      * assert (Heq : embedBatch data (chunk :: batch) index embeddings w
                      = (w, Throw (PlainError "Invalid URL"))).
        { simpl. rewrite Hdata. unfold bind, generateVectorId. now rewrite Hu. }
        rewrite Heq. simpl.
        split; [reflexivity|]. split; [reflexivity|]. split; [discriminate|].
        intros Hall. inversion Hall as [|? ? Hp _]; subst.
        unfold parseable in Hp. rewrite Hu in Hp. destruct Hp; discriminate.
    + simpl. rewrite Hdata. now apply Hrest.
    + simpl. rewrite Hdata. now apply Hrest.
Qed.

Lemma callEmbeddings_run model input w :
  embedCalls (callEmbeddings model input w).1 = embedCalls w ++ [input]
  /\ upsertCalls (callEmbeddings model input w).1 = upsertCalls w
  /\ (callEmbeddings model input w).2
     = match createEmbeddings (length (embedCalls w)) model input with
       | EmbedThrows => Throw (PlainError "embedding provider error")
       | EmbedData data => Return data
       end.
Proof.
  unfold callEmbeddings.
  destruct (createEmbeddings _ _ _); simpl; auto.
Qed.

(** The embedding loop issues no [upsert]. *)
Lemma embedLoop_upserts fuel model chunks : forall i embeddings w,
  upsertCalls (embedLoop fuel model chunks i embeddings w).1 = upsertCalls w.
Proof.
  induction fuel as [|fuel IH]; intros i embeddings w; [reflexivity|].
  rewrite embedLoop_S.
  destruct (i <? length chunks)%nat; [|reflexivity].
  set (batch := slice chunks (Z.of_nat i) (Z.of_nat (i + 100))).
  destruct (callEmbeddings_run model (map chunk_content batch) w) as (_ & Hu & _).
  unfold bind at 1.
  destruct (callEmbeddings model (map chunk_content batch) w) as [w1 [data|e|]];
    simpl in *; try assumption.
  destruct (embedBatch_run data batch 0%nat embeddings w1) as (_ & Hu' & _).
  unfold bind at 1.
  destruct (embedBatch data batch 0%nat embeddings w1) as [w2 [embeddings'|e|]];
    simpl in *; [rewrite IH|..]; congruence.
Qed.

(** If the provider throws on the call for the [k]-th batch from [i], the
    loop throws. *)
Lemma embedLoop_throws model chunks k : forall fuel i embeddings w,
  (k < fuel)%nat ->
  (i + k * 100 < length chunks)%nat ->
  createEmbeddings (length (embedCalls w) + k) model
    (map chunk_content
       (slice chunks (Z.of_nat (i + k * 100)) (Z.of_nat (i + k * 100 + 100))))
  = EmbedThrows ->
  exists e, (embedLoop fuel model chunks i embeddings w).2 = Throw e.
Proof.
  induction k as [|k IH]; intros fuel i embeddings w Hfuel Hi Hthrow;
    (destruct fuel as [|fuel]; [lia|]); rewrite embedLoop_S;
    (destruct (i <? length chunks)%nat eqn:E; [|apply Nat.ltb_ge in E; lia]);
    set (batch := slice chunks (Z.of_nat i) (Z.of_nat (i + 100)));
    destruct (callEmbeddings_run model (map chunk_content batch) w) as (Hc & _ & Ho);
    unfold bind at 1;
    destruct (callEmbeddings model (map chunk_content batch) w) as [w1 o]; simpl in Hc, Ho.
  - rewrite Nat.add_0_r in Hthrow. simpl in Hthrow. rewrite Nat.add_0_r in Hthrow.
    subst batch. rewrite Hthrow in Ho. subst o. eauto.
  - destruct o as [data|e|];
      [|eauto
       |exfalso;
        destruct (createEmbeddings (length (embedCalls w)) model (map chunk_content batch));
        discriminate Ho].
    destruct (embedBatch_run data batch 0%nat embeddings w1) as (Hc' & _ & Hd & _).
    unfold bind at 1.
    destruct (embedBatch data batch 0%nat embeddings w1) as [w2 [embeddings'|e|]];
      simpl in *; [|eauto|congruence].
    apply IH; [lia | lia |].
    rewrite Hc', Hc, length_app. simpl.
    replace (length (embedCalls w) + 1 + k)%nat with (length (embedCalls w) + S k)%nat by lia.
    replace (i + 100 + k * 100)%nat with (i + (100 + k * 100))%nat by lia.
    exact Hthrow.
Qed.

(** A failed batch makes [generateEmbeddings] throw its [AppError], and
    no [upsert] is issued. *)
Lemma generateEmbeddings_fails chunks model k w :
  truthy openai_apiKey = true ->
  (k * 100 < length chunks)%nat ->
  createEmbeddings (length (embedCalls w) + k) model
    (map chunk_content (slice chunks (Z.of_nat (k * 100)) (Z.of_nat (k * 100 + 100))))
  = EmbedThrows ->
  (generateEmbeddings chunks model w).2 = Throw (AppError "Failed to generate embeddings" 500)
  /\ upsertCalls (generateEmbeddings chunks model w).1 = upsertCalls w.
Proof.
  intros Hkey Hk Hthrow. unfold generateEmbeddings, initializeOpenAI.
  rewrite Hkey. unfold bind, ret, tryCatch.
  destruct (embedLoop_throws model chunks k (S (length chunks)) 0%nat [] w) as [e He];
    [lia | simpl; lia | exact Hthrow |].
  pose proof (embedLoop_upserts (S (length chunks)) model chunks 0%nat [] w) as Hu.
  destruct (embedLoop (S (length chunks)) model chunks 0%nat [] w) as [w1 o].
  simpl in He, Hu. subst o. simpl. auto.
Qed.


Lemma Forall_slice {A} (P : A -> Prop) (xs : list A) (a b : Z) :
  Forall P xs -> Forall P (slice xs a b).
Proof. intros Hall. unfold slice. now apply Forall_take, Forall_drop. Qed.

(** With 150 chunks whose first batch goes through, two calls are issued:
    one for chunks 0..99 and one for chunks 100..149. *)
Lemma embedLoop_150 fuel chunks model data w :
  length chunks = 150%nat ->
  Forall parseable chunks ->
  createEmbeddings (length (embedCalls w)) model (map chunk_content (slice chunks 0 100))
  = EmbedData data ->
  embedCalls (embedLoop (S (S (S fuel))) model chunks 0 [] w).1
  = embedCalls w ++ [map chunk_content (slice chunks 0 100);
                     map chunk_content (slice chunks 100 200)].
Proof.
  intros Hlen Hall Hfirst.
  rewrite embedLoop_S, Hlen. change (0 <? 150)%nat with true. cbv iota.
  change (Z.of_nat 0) with 0. change (Z.of_nat (0 + 100)) with 100.
  change (0 + 100)%nat with 100%nat.
  set (b1 := slice chunks 0 100) in *.
  destruct (callEmbeddings_run model (map chunk_content b1) w) as (Hc1 & _ & Ho1).
  rewrite Hfirst in Ho1. unfold bind at 1.
  destruct (callEmbeddings model (map chunk_content b1) w) as [w1 o1].
  cbn [fst snd] in Hc1, Ho1. subst o1.
  destruct (embedBatch_run data b1 0%nat [] w1) as (Hc1' & _ & _ & Hr1).
  destruct (Hr1 (Forall_slice _ _ _ _ Hall)) as [embeddings1 He1].
  unfold bind at 1.
  destruct (embedBatch data b1 0%nat [] w1) as [w1' o1'].
  cbn [fst snd] in Hc1', He1. subst o1'.
  rewrite embedLoop_S, Hlen. change (100 <? 150)%nat with true. cbv iota.
  change (Z.of_nat 100) with 100. change (Z.of_nat (100 + 100)) with 200.
  change (100 + 100)%nat with 200%nat.
  set (b2 := slice chunks 100 200).
  assert (Hcalls : forall w', embedCalls w' = embedCalls w1' ++ [map chunk_content b2] ->
                              embedCalls w' = embedCalls w ++ [map chunk_content b1;
                                                             map chunk_content b2]).
  { intros w' ->. rewrite Hc1', Hc1, <- app_assoc. reflexivity. }
  destruct (callEmbeddings_run model (map chunk_content b2) w1') as (Hc2 & _ & _).
  unfold bind at 1.
  destruct (callEmbeddings model (map chunk_content b2) w1') as [w2 [data2|e|]];
    cbn [fst snd] in Hc2 |- *; [|now apply Hcalls..].
  destruct (embedBatch_run data2 b2 0%nat embeddings1 w2) as (Hc2' & _).
  unfold bind at 1.
  destruct (embedBatch data2 b2 0%nat embeddings1 w2) as [w2' [embeddings2|e|]];
    cbn [fst snd] in Hc2' |- *; [|apply Hcalls; congruence..].
  rewrite embedLoop_S, Hlen. change (200 <? 150)%nat with false. cbv iota.
  unfold ret. cbn [fst]. apply Hcalls. congruence.
Qed.

Lemma generateEmbeddings_150 chunks model data w :
  truthy openai_apiKey = true ->
  length chunks = 150%nat ->
  Forall parseable chunks ->
  createEmbeddings (length (embedCalls w)) model (map chunk_content (slice chunks 0 100))
  = EmbedData data ->
  embedCalls (generateEmbeddings chunks model w).1
  = embedCalls w ++ [map chunk_content (slice chunks 0 100);
                     map chunk_content (slice chunks 100 200)].
Proof.
  intros Hkey Hlen Hall Hfirst. unfold generateEmbeddings, initializeOpenAI.
  rewrite Hkey. unfold bind at 1, ret at 1.
  pose proof (embedLoop_150 148 chunks model data w Hlen Hall Hfirst) as Hloop.
  unfold tryCatch. rewrite Hlen.
  change (S 150) with (S (S (S 148))).
  destruct (embedLoop (S (S (S 148))) model chunks 0 [] w) as [w' [r|e|]];
    exact Hloop.
Qed.

(** When [generateEmbeddings] throws an [AppError], [crawlAndStore] throws
    it too and issues no [upsert]. *)
Lemma crawlAndStore_embedding_error fuel pages request chunks message code w :
  processIntoChunks fuel pages
    (numOr (req_chunkSize request) (chunkSize defaultConfig))
    (numOr (req_chunkOverlap request) (chunkOverlap defaultConfig)) = Some chunks ->
  chunks <> [] ->
  (generateEmbeddings chunks (embeddingModel defaultConfig) w).2
  = Throw (AppError message code) ->
  upsertCalls (generateEmbeddings chunks (embeddingModel defaultConfig) w).1 = upsertCalls w ->
  (crawlAndStore fuel pages request w).2 = Throw (AppError message code)
  /\ upsertCalls (crawlAndStore fuel pages request w).1 = upsertCalls w.
Proof.
  intros Hchunks Hne Hthrow Hups.
  assert (Hrun : crawlAndStore fuel pages request w
                 = ((generateEmbeddings chunks (embeddingModel defaultConfig) w).1,
                    Throw (AppError message code))).
  { unfold crawlAndStore, tryCatch, crawlAndStoreBody.
    rewrite Hchunks. unfold lift, bind, ret.
    destruct chunks as [|c chunks]; [congruence|].
    change (length (c :: chunks) =? 0)%nat with false. cbv beta iota.
    destruct (generateEmbeddings (c :: chunks) (embeddingModel defaultConfig) w) as [w' o].
    cbn [fst snd] in *. subst o. reflexivity. }
  rewrite Hrun. auto.
Qed.

(** C5. With the API key set: (1) for 150 chunks whose URLs parse and a
    first provider call that answers, exactly two provider calls are issued,
    with the texts of chunks 0..99 and of chunks 100..149, 100 and 50 inputs,
    in the order of the chunks; (2) if the provider call for any batch throws,
    [generateEmbeddings] throws the [AppError] "Failed to generate
    embeddings" and returns no embedding; (3) and [crawlAndStore] then throws
    that error without issuing any [upsert], so no vector of any batch is
    stored. *)
Theorem embedding_batches_fail_fast :
  truthy openai_apiKey = true ->
  (forall chunks model data,
     length chunks = 150%nat ->
     Forall parseable chunks ->
     createEmbeddings 0 model (map chunk_content (slice chunks 0 100)) = EmbedData data ->
     embedCalls (generateEmbeddings chunks model emptyWorld).1
     = [map chunk_content (slice chunks 0 100); map chunk_content (slice chunks 100 200)]
     /\ length (map chunk_content (slice chunks 0 100)) = 100%nat
     /\ length (map chunk_content (slice chunks 100 200)) = 50%nat)
  /\ (forall chunks model k,
        (k * 100 < length chunks)%nat ->
        createEmbeddings k model
          (map chunk_content (slice chunks (Z.of_nat (k * 100)) (Z.of_nat (k * 100 + 100))))
        = EmbedThrows ->
        (generateEmbeddings chunks model emptyWorld).2
        = Throw (AppError "Failed to generate embeddings" 500))
  /\ (forall fuel pages request chunks k,
        processIntoChunks fuel pages
          (numOr (req_chunkSize request) (chunkSize defaultConfig))
          (numOr (req_chunkOverlap request) (chunkOverlap defaultConfig)) = Some chunks ->
        (k * 100 < length chunks)%nat ->
        createEmbeddings k (embeddingModel defaultConfig)
          (map chunk_content (slice chunks (Z.of_nat (k * 100)) (Z.of_nat (k * 100 + 100))))
        = EmbedThrows ->
        (crawlAndStore fuel pages request emptyWorld).2
        = Throw (AppError "Failed to generate embeddings" 500)
        /\ upsertCalls (crawlAndStore fuel pages request emptyWorld).1 = []).
Proof.
  intros Hkey. split; [|split].
  - intros chunks model data Hlen Hall Hfirst.
    split; [|split].
    + now rewrite (generateEmbeddings_150 chunks model data emptyWorld Hkey Hlen Hall Hfirst).
    + rewrite length_map, length_slice by lia. rewrite Hlen. reflexivity.
    + rewrite length_map, length_slice by lia. rewrite Hlen. reflexivity.
  - intros chunks model k Hk Hthrow.
    now apply (generateEmbeddings_fails chunks model k emptyWorld Hkey Hk).
  - intros fuel pages request chunks k Hchunks Hk Hthrow.
    destruct (generateEmbeddings_fails chunks (embeddingModel defaultConfig) k emptyWorld
                Hkey Hk Hthrow) as [Ho Hu].
    apply (crawlAndStore_embedding_error fuel pages request chunks _ _ emptyWorld);
      try assumption.
    intros ->. simpl in Hk. lia.
Qed.

End WithProviders.

#[local] Existing Instance Fixture.httpsUrls.
#[local] Existing Instance Fixture.appConfig.
#[local] Existing Instance Fixture.storesAll.

(** The page of 150 chunks with a provider whose second call fails: two
    calls, of 100 and 50 inputs, the error, and nothing stored. *)
Lemma embedding_batches_fail_fast_witness :
  let run := @crawlAndStore _ _ Fixture.failsOnSecondCall _ Fixture.ticking 200
               [Fixture.page150] (Fixture.storeRequest 2 1) emptyWorld in
  run.2 = Throw (AppError "Failed to generate embeddings" 500)
  /\ upsertCalls run.1 = []
  /\ map length (embedCalls run.1) = [100; 50]%nat.
Proof.
  pose proof (@embedding_batches_fail_fast _ _ Fixture.failsOnSecondCall _ Fixture.ticking
                eq_refl) as (_ & _ & Hstore).
  destruct (@processIntoChunks Fixture.httpsUrls 200 [Fixture.page150] 2 1)
    as [chunks|] eqn:Hchunks; [|vm_compute in Hchunks; discriminate].
  destruct (Hstore 200%nat [Fixture.page150] (Fixture.storeRequest 2 1) chunks 1%nat)
    as [Ho Hu].
  - exact Hchunks.
  - vm_compute in Hchunks. injection Hchunks as <-. vm_compute. lia.
  - reflexivity.
  - split; [exact Ho|]. split; [exact Hu|]. vm_compute. reflexivity.
Defined.

(** C9, at the failing input: the chunks of two pages that differ in the
    query only, embedded within one millisecond, get the same vector id. *)
Theorem vector_ids_collide_in_batch :
  exists chunks e1 e2 w,
    @processIntoChunks Fixture.httpsUrls 10 Fixture.guidePages 1000 200 = Some chunks
    /\ @generateEmbeddings _ _ Fixture.embedsAll Fixture.sameMillisecond chunks
         (embeddingModel defaultConfig) emptyWorld = (w, Return [e1; e2])
    /\ c_url (vec_metadata e1) <> c_url (vec_metadata e2)
    /\ vec_id e1 = "docs_example_com_guide_chunk_0_41600123"
    /\ vec_id e2 = vec_id e1.
Proof.
  do 4 eexists. split; [vm_compute; reflexivity|].
  split; [vm_compute; reflexivity|].
  split; [discriminate|]. split; reflexivity.
Qed.

End VectorFacts.

(** ** Crawler *)

Module CrawlerFacts.

Import JS JSFacts Crawler.

Set Warnings "-clear-no-such-hyp".

Section WithWeb.
Context `{UrlApi} `{Web} `{Scheduler}.

(** *** Fetching one page *)

Lemma extractPageData_Some doc u d s page :
  extractPageData doc u d s = Some page ->
  url page = u /\ depth page = d /\ is_Some (parseURL u).
Proof.
  unfold extractPageData.
  destruct (parseURL u) as [pu|]; [|discriminate].
  destruct (classifyLinks _ _ _) as [internal external].
  intros [= <-]. simpl. eauto.
Qed.

Lemma extractPageData_None doc u d s :
  extractPageData doc u d s = None <-> parseURL u = None.
Proof.
  unfold extractPageData.
  destruct (parseURL u) as [pu|]; [|tauto].
  destruct (classifyLinks _ _ _). split; discriminate.
Qed.

Lemma fetchPage_Crawled u d page :
  fetchPage u d = Crawled page ->
  url page = u /\ depth page = d /\ is_Some (parseURL u).
Proof.
  unfold fetchPage.
  destruct (fetch u) as [msg st|[ct|] st doc]; try discriminate.
  destruct (includes ct "text/html"); [|discriminate].
  destruct (extractPageData doc u d st) as [p|] eqn:E; [|discriminate].
  intros [= <-]. eapply extractPageData_Some; eassumption.
Qed.

Lemma fetchPage_Failed u d e : fetchPage u d = Failed e -> err_url e = u.
Proof.
  unfold fetchPage.
  destruct (fetch u) as [msg st|[ct|] st doc]; try discriminate.
  - intros [= <-]. reflexivity.
  - destruct (includes ct "text/html"); [|discriminate].
    destruct (extractPageData doc u d st); [discriminate|].
    intros [= <-]. reflexivity.
Qed.

(** Whether a fetch fails, and with which entry, does not depend on the
    depth the URL was queued at. *)
Lemma fetchPage_Failed_depth u d d' e :
  fetchPage u d = Failed e -> fetchPage u d' = Failed e.
Proof.
  unfold fetchPage.
  destruct (fetch u) as [msg st|[ct|] st doc]; try discriminate; [tauto|].
  destruct (includes ct "text/html"); [|discriminate].
  destruct (extractPageData doc u d st) as [p|] eqn:E; [discriminate|].
  apply extractPageData_None in E.
  apply (extractPageData_None doc u d' st) in E. now rewrite E.
Qed.

Lemma fetchPage_Crawled_depth u d d' page :
  fetchPage u d = Crawled page -> exists page', fetchPage u d' = Crawled page'.
Proof.
  unfold fetchPage.
  destruct (fetch u) as [msg st|[ct|] st doc]; try discriminate.
  destruct (includes ct "text/html"); [|discriminate].
  destruct (extractPageData doc u d st) as [p|] eqn:E; [|discriminate].
  intros _.
  destruct (extractPageData doc u d' st) as [p'|] eqn:E'; [eauto|].
  apply extractPageData_None in E'.
  apply (extractPageData_None doc u d st) in E'. congruence.
Qed.

(** *** Dispatching a batch *)

Lemma dispatch_spec batch : forall visited visited' results,
  dispatch batch visited = (visited', results) ->
  map fst results = batch
  /\ (forall u, u ∈ visited' <-> u ∈ visited \/ u ∈ map fst batch)
  /\ (forall q o, (q, Some o) ∈ results -> o = fetchPage (fst q) (snd q) /\ fst q ∉ visited)
  /\ (forall u, u ∈ map fst batch -> u ∉ visited ->
        exists d, ((u, d), Some (fetchPage u d)) ∈ results)
  /\ NoDup (map url (newPages results)).
Proof.
  induction batch as [|[u d] batch IH]; intros visited visited' results Hd; simpl in Hd.
  - injection Hd as <- <-. simpl.
    split; [reflexivity|]. split; [set_solver|].
    split; [intros q o Hin; inversion Hin|].
    split; [intros u Hin; inversion Hin | constructor].
  - unfold crawlSinglePage in Hd. destruct (decide (u ∈ visited)) as [Hv|Hv].
    + destruct (dispatch batch visited) as [v rs] eqn:E.
      injection Hd as <- <-.
      destruct (IH _ _ _ E) as (Hb & Hvis & Hout & Hall & Hnd).
      simpl. split; [now rewrite Hb|].
      split; [intros u'; rewrite Hvis; set_solver|].
      split.
      { intros q o Hin. apply elem_of_cons in Hin as [Heq|Hin]; [discriminate|eauto]. }
      split; [|exact Hnd].
      intros u' Hin Hnv. apply elem_of_cons in Hin as [->|Hin]; [contradiction|].
      destruct (Hall u' Hin Hnv) as [d' Hd']. exists d'. now right.
    + destruct (dispatch batch ({[u]} ∪ visited)) as [v rs] eqn:E.
      injection Hd as <- <-.
      destruct (IH _ _ _ E) as (Hb & Hvis & Hout & Hall & Hnd).
      simpl. split; [now rewrite Hb|].
      split; [intros u'; rewrite Hvis; set_solver|].
      split.
      { intros q o Hin. apply elem_of_cons in Hin as [Heq|Hin].
        - injection Heq as -> ->. simpl. auto.
        - destruct (Hout q o Hin) as [Ho Hq]. split; [assumption | set_solver]. }
      split.
      { intros u' Hin Hnv.
        destruct (decide (u' = u)) as [->|Hne]; [exists d; now left|].
        apply elem_of_cons in Hin as [->|Hin]; [contradiction|].
        destruct (Hall u' Hin ltac:(set_solver)) as [d' Hd']. exists d'. now right. }
      unfold newPages in *. simpl.
      destruct (fetchPage u d) as [page| |e] eqn:Hf; simpl; try exact Hnd.
      apply NoDup_cons. split; [|exact Hnd].
      intros Hin. apply list_elem_of_fmap in Hin as (p' & Hurl & Hp').
      apply list_elem_of_omap in Hp' as ([q o] & Hin & Ho). simpl in Ho.
      destruct o as [[p''| |]|]; try discriminate. injection Ho as ->.
      destruct (Hout _ _ Hin) as [Hfp Hq].
      symmetry in Hfp. apply fetchPage_Crawled in Hfp as (Hu' & _).
      apply fetchPage_Crawled in Hf as (Hu & _).
      apply Hq. rewrite <- Hu', <- Hurl, Hu. set_solver.
Qed.


(** *** The enqueue step *)

(** The inner loop appends to the queue; what it appends are candidates
    that are not visited, at the next depth, and it appends only while
    pages collected plus queue length is below [maxPages]. *)
Lemma enqueue_spec config visited crawled depth newUrls : forall queue,
  exists added,
    enqueue config visited crawled depth newUrls queue = queue ++ added
    /\ Forall (fun item => fst item ∈ newUrls /\ (fst item ∉ visited) /\ snd item = depth + 1) added
    /\ (added <> [] ->
        Z.of_nat crawled + Z.of_nat (length queue) < maxPages config
        /\ Z.of_nat crawled + Z.of_nat (length (queue ++ added)) <= maxPages config).
Proof.
  induction newUrls as [|newUrl rest IH]; intros queue; simpl.
  - exists []. rewrite app_nil_r. split; [reflexivity|]. split; [constructor | congruence].
  - destruct (negb (bool_decide (newUrl ∈ visited))
              && (Z.of_nat crawled + Z.of_nat (length queue) <? maxPages config)) eqn:E.
    + apply andb_true_iff in E as [Hv Hlt].
      apply negb_true_iff, bool_decide_eq_false in Hv. apply Z.ltb_lt in Hlt.
      destruct (IH (queue ++ [(newUrl, depth + 1)])) as (added & Heq & Hall & Hlen).
      exists ((newUrl, depth + 1) :: added).
      rewrite Heq, <- app_assoc. split; [reflexivity|]. split.
      * constructor; [simpl; split; [left | auto]|].
        eapply Forall_impl; [exact Hall|].
        intros item (Hin & Hnv & Hd). split; [now right | auto].
      * intros _. split; [assumption|].
        destruct added as [|a added'].
        -- rewrite length_app. simpl. lia.
        -- destruct Hlen as [_ Hlen]; [discriminate|].
           rewrite <- app_assoc in Hlen. exact Hlen.
    + destruct (IH queue) as (added & Heq & Hall & Hlen).
      exists added. split; [assumption|]. split; [|assumption].
      eapply Forall_impl; [exact Hall|].
      intros item (Hin & Hnv & Hd). split; [now right | auto].
Qed.

Lemma enqueue_length config visited crawled depth newUrls queue :
  Z.of_nat (length (enqueue config visited crawled depth newUrls queue))
  <= Z.max (Z.of_nat (length queue)) (maxPages config - Z.of_nat crawled).
Proof.
  destruct (enqueue_spec config visited crawled depth newUrls queue)
    as (added & -> & _ & Hlen).
  destruct added as [|a added]; [rewrite app_nil_r; lia|].
  destruct Hlen as [_ Hlen]; [discriminate | lia].
Qed.

(** *** Processing the settled results of a batch *)

Lemma processResult_spec config st r :
  visitedUrls (processResult config st r) = visitedUrls st
  /\ crawlErrors (processResult config st r) = crawlErrors st
  /\ crawledPages (processResult config st r) = crawledPages st ++ newPages [r]
  /\ (newPages [r] = [] -> urlQueue (processResult config st r) = urlQueue st)
  /\ (exists added,
        urlQueue (processResult config st r) = urlQueue st ++ added
        /\ Forall (fun item => (fst item ∉ visitedUrls st)
                               /\ snd item = snd (fst r) + 1 /\ snd (fst r) < maxDepth config) added)
  /\ Z.of_nat (length (urlQueue (processResult config st r)))
     <= Z.max (Z.of_nat (length (urlQueue st)))
          (maxPages config - Z.of_nat (length (crawledPages st)) - 1).
Proof.
  destruct r as [[u d] [[page| |e]|]]; unfold newPages; simpl;
    try (rewrite app_nil_r; repeat split; try lia;
         exists []; rewrite app_nil_r; split; [reflexivity | constructor]).
  split; [reflexivity|]. split; [reflexivity|]. split; [reflexivity|].
  split; [discriminate|].
  destruct (d <? maxDepth config) eqn:E.
  - apply Z.ltb_lt in E. split.
    + destruct (enqueue_spec config (visitedUrls st) (length (crawledPages st ++ [page]))
                  d (extractUrls page config) (urlQueue st)) as (added & Heq & Hall & _).
      exists added. split; [assumption|].
      eapply Forall_impl; [exact Hall|]. intros item (_ & Hnv & Hd). auto.
    + etransitivity; [apply enqueue_length|].
      rewrite length_app. simpl. lia.
  - split; [|lia].
    exists []. rewrite app_nil_r. split; [reflexivity | constructor].
Qed.

Lemma processResults_spec config results : forall st,
  let st' := fold_left (processResult config) results st in
  visitedUrls st' = visitedUrls st
  /\ crawlErrors st' = crawlErrors st
  /\ crawledPages st' = crawledPages st ++ newPages results
  /\ (newPages results = [] -> urlQueue st' = urlQueue st)
  /\ (exists added,
        urlQueue st' = urlQueue st ++ added
        /\ Forall (fun item => (fst item ∉ visitedUrls st)
                               /\ exists r, r ∈ results /\ snd item = snd (fst r) + 1
                                            /\ snd (fst r) < maxDepth config) added)
  /\ Z.of_nat (length (urlQueue st'))
     <= Z.max (Z.of_nat (length (urlQueue st)))
          (maxPages config - Z.of_nat (length (crawledPages st)) - 1).
Proof.
  induction results as [|r results IH]; intros st; cbn [fold_left].
  - unfold newPages. simpl. rewrite app_nil_r. repeat split; try lia.
    exists []. rewrite app_nil_r. split; [reflexivity | constructor].
  - destruct (processResult_spec config st r) as (Hv & He & Hp & Hq0 & (a1 & Ha1 & Hall1) & Hl).
    destruct (IH (processResult config st r)) as (Hv' & He' & Hp' & Hq0' & (a2 & Ha2 & Hall2) & Hl').
    split; [congruence|]. split; [congruence|].
    assert (Hnew : newPages (r :: results) = newPages [r] ++ newPages results).
    { unfold newPages. simpl. destruct r as [q [[p| |e]|]]; reflexivity. }
    split; [rewrite Hp', Hp, Hnew, app_assoc; reflexivity|].
    split; [|split].
    + rewrite Hnew. intros Hnil. apply app_eq_nil in Hnil as [Hn1 Hn2].
      rewrite Hq0' by assumption. now apply Hq0.
    + exists (a1 ++ a2). rewrite Ha2, Ha1, app_assoc. split; [reflexivity|].
      apply Forall_app. split.
      * eapply Forall_impl; [exact Hall1|]. intros item (Hnv & Hd & Hlt).
        split; [assumption|]. exists r. split; [left | auto].
      * eapply Forall_impl; [exact Hall2|]. intros item (Hnv & r' & Hin & Hd & Hlt).
        split; [congruence|]. exists r'. split; [now right | auto].
    + rewrite Hp, length_app in Hl'. lia.
Qed.


(** *** One batch keeps the invariant *)

Lemma elem_of_newPages results page :
  page ∈ newPages results <-> exists q, (q, Some (Crawled page)) ∈ results.
Proof.
  unfold newPages. rewrite list_elem_of_omap. split.
  - intros ([q o] & Hin & Ho). simpl in Ho.
    destruct o as [[p| |e]|]; try discriminate. injection Ho as ->. eauto.
  - intros [q Hin]. exists (q, Some (Crawled page)). auto.
Qed.

Lemma elem_of_batchErrors results e :
  e ∈ batchErrors results <-> exists q, (q, Some (Failed e)) ∈ results.
Proof.
  unfold batchErrors. rewrite list_elem_of_omap. split.
  - intros ([q o] & Hin & Ho). simpl in Ho.
    destruct o as [[p| |e']|]; try discriminate. injection Ho as ->. eauto.
  - intros [q Hin]. exists (q, Some (Failed e)). auto.
Qed.

Lemma length_newPages results : (length (newPages results) <= length results)%nat.
Proof.
  induction results as [|[q o] results IH]; [reflexivity|].
  assert (Hstep : (length (newPages ((q, o) :: results)) <= S (length (newPages results)))%nat).
  { unfold newPages. destruct o as [[p| |e]|]; simpl; first [apply le_n | apply le_S, le_n]. }
  simpl length at 2. lia.
Qed.

Lemma elem_of_map_fst {A B} (x : A * B) (l : list (A * B)) : x ∈ l -> fst x ∈ map fst l.
Proof. intros Hin. apply list_elem_of_In, in_map, list_elem_of_In, Hin. Qed.

Lemma crawlBatch_invariant config st :
  Invariant config st ->
  continues config st = true ->
  Invariant config (crawlBatch config st).
Proof.
  intros Inv Hcont. unfold crawlBatch.
  set (n := Z.to_nat (maxConcurrent config)).
  set (batch := take n (urlQueue st)).
  destruct (dispatch batch (visitedUrls st)) as [visited results] eqn:Hdisp.
  destruct (dispatch_spec _ _ _ _ Hdisp) as (Hfst & Hvis & Hout & Hall & Hnd).
  set (st1 := {| visitedUrls := visited; crawledPages := crawledPages st;
                 crawlErrors := crawlErrors st ++ completionOrder (batchErrors results);
                 urlQueue := drop n (urlQueue st) |}).
  destruct (processResults_spec config results st1)
    as (Hv & He & Hp & _ & (added & Hq & Hadded) & Hlen).
  set (st' := fold_left (processResult config) results st1) in *.
  simpl in Hv, He, Hp, Hq, Hlen, Hadded.
  assert (Hinb : forall q o, (q, o) ∈ results -> q ∈ batch).
  { intros q o Hin. rewrite <- Hfst. apply (elem_of_map_fst (q, o)), Hin. }
  assert (Hbatch : forall q o, (q, o) ∈ results -> q ∈ urlQueue st).
  { intros q o Hin. apply (subseteq_take n). fold batch. eauto. }
  assert (Hnew : forall p, p ∈ newPages results ->
            exists q, q ∈ urlQueue st /\ fetchPage (fst q) (snd q) = Crawled p
                      /\ url p = fst q /\ depth p = snd q /\ (fst q ∉ visitedUrls st)
                      /\ fst q ∈ visited).
  { intros p Hin. apply elem_of_newPages in Hin as [q Hin].
    destruct (Hout _ _ Hin) as [Hf Hnv]. symmetry in Hf.
    destruct (fetchPage_Crawled _ _ _ Hf) as (Hu & Hd & _).
    exists q. repeat split; try assumption; [eauto|].
    apply Hvis. right. apply elem_of_map_fst. eauto. }
  assert (Hcond := Hcont). unfold continues in Hcond.
  apply andb_true_iff in Hcond as [_ Hc]. apply Z.ltb_lt in Hc.
  split.
  - (* pages were fetched *)
    intros p. rewrite Hv, Hp. intros Hin. apply elem_of_app in Hin as [Hin|Hin].
    + destruct (inv_pages_fetched _ _ Inv p Hin) as [Hu Hd].
      split; [apply Hvis; now left | assumption].
    + destruct (Hnew p Hin) as (q & _ & Hf & Hu & _ & _ & Hq').
      split; [now rewrite Hu|]. exists (snd q). now rewrite Hu.
  - (* no URL twice *)
    rewrite Hp, map_app. apply NoDup_app. split; [apply (inv_pages_nodup _ _ Inv)|].
    split; [|assumption].
    intros u Hold Hnew'.
    apply list_elem_of_fmap in Hold as (p & -> & Hp').
    apply list_elem_of_fmap in Hnew' as (p' & Hu' & Hp'').
    destruct (Hnew p' Hp'') as (q & _ & _ & Hu & _ & Hnv & _).
    apply Hnv. rewrite <- Hu, <- Hu'. apply (inv_pages_fetched _ _ Inv p Hp').
  - (* failures are recorded *)
    intros u d e. rewrite Hv, He. intros Hu Hf. simpl.
    destruct (decide (u ∈ visitedUrls st)) as [Hold|Hnv].
    + apply elem_of_app. left. eapply inv_failures; eassumption.
    + apply Hvis in Hu as [Hu|Hu]; [contradiction|].
      destruct (Hall u Hu Hnv) as [d0 Hin].
      rewrite (fetchPage_Failed_depth _ _ d0 _ Hf) in Hin.
      apply elem_of_app. right.
      rewrite (completionOrder_perm (batchErrors results)).
      apply elem_of_batchErrors. eauto.
  - (* successes are collected *)
    intros u d p. rewrite Hv, Hp. intros Hu Hf.
    destruct (decide (u ∈ visitedUrls st)) as [Hold|Hnv].
    + destruct (inv_successes _ _ Inv u d p Hold Hf) as (p' & Hp' & Hu').
      exists p'. split; [apply elem_of_app; now left | assumption].
    + apply Hvis in Hu as [Hu|Hu]; [contradiction|].
      destruct (Hall u Hu Hnv) as [d0 Hin].
      destruct (fetchPage_Crawled_depth _ _ d0 _ Hf) as [p' Hf'].
      rewrite Hf' in Hin. exists p'.
      split; [apply elem_of_app; right; apply elem_of_newPages; eauto|].
      apply (fetchPage_Crawled _ _ _ Hf').
  - (* errors are failures *)
    intros e. rewrite Hv, He. simpl. intros Hin. apply elem_of_app in Hin as [Hin|Hin].
    + destruct (inv_errors _ _ Inv e Hin) as [Hu Hd].
      split; [apply Hvis; now left | assumption].
    + rewrite (completionOrder_perm (batchErrors results)) in Hin.
      apply elem_of_batchErrors in Hin as [q Hin].
      destruct (Hout _ _ Hin) as [Hf _]. symmetry in Hf.
      pose proof (fetchPage_Failed _ _ _ Hf) as Hu. rewrite Hu.
      split; [|eauto].
      apply Hvis. right. apply elem_of_map_fst. eauto.
  - (* queue length *)
    pose proof (inv_queue_length _ _ Inv) as Hql.
    rewrite length_drop in Hlen. lia.
  - (* queue depth *)
    intros u d. rewrite Hq. intros Hin. apply elem_of_app in Hin as [Hin|Hin].
    + apply (inv_queue_depth _ _ Inv u d). now apply (subseteq_drop n).
    + rewrite Forall_forall in Hadded.
      destruct (Hadded _ Hin) as (_ & r & _ & Hd & Hlt). simpl in Hd. lia.
  - (* page depth *)
    intros p. rewrite Hp. intros Hin. apply elem_of_app in Hin as [Hin|Hin].
    + now apply (inv_page_depth _ _ Inv).
    + destruct (Hnew p Hin) as ([u d] & Hqin & _ & _ & Hd & _). simpl in Hd.
      rewrite Hd. apply (inv_queue_depth _ _ Inv u d Hqin).
  - (* number of pages *)
    rewrite Hp, length_app.
    pose proof (length_newPages results) as Hle.
    assert (length results = length batch) as Hlr by (rewrite <- Hfst; now rewrite length_map).
    assert (length batch <= n)%nat by (subst batch; rewrite length_take; lia).
    fold n. lia.
Qed.


(** *** Termination of the crawl loop *)

Lemma crawlBatch_measure config st :
  Invariant config st ->
  continues config st = true ->
  0 < maxConcurrent config ->
  (crawlMeasure config (crawlBatch config st) < crawlMeasure config st)%nat.
Proof.
  intros Inv Hcont Hn. unfold crawlMeasure, crawlBatch.
  set (n := Z.to_nat (maxConcurrent config)).
  destruct (dispatch (take n (urlQueue st)) (visitedUrls st)) as [visited results].
  set (st1 := {| visitedUrls := visited; crawledPages := crawledPages st;
                 crawlErrors := crawlErrors st ++ completionOrder (batchErrors results);
                 urlQueue := drop n (urlQueue st) |}).
  destruct (processResults_spec config results st1) as (_ & _ & Hp & Hq0 & _ & Hlen).
  set (st' := fold_left (processResult config) results st1) in *.
  simpl in Hp, Hq0, Hlen.
  unfold continues in Hcont. apply andb_true_iff in Hcont as [Hq Hc].
  apply Z.ltb_lt in Hq, Hc.
  pose proof (inv_queue_length _ _ Inv) as Hql.
  rewrite Hp, length_app.
  destruct (newPages results) as [|p ps] eqn:Hnew.
  - rewrite Hq0 by reflexivity. rewrite length_drop. simpl. rewrite Nat.add_0_r.
    assert (0 < n)%nat by (subst n; lia). lia.
  - rewrite length_drop in Hlen. simpl length.
    set (c := length (crawledPages st)) in *.
    set (P := Z.to_nat (maxPages config)).
    assert (HP : Z.of_nat P = maxPages config) by (subst P; lia).
    assert (Hq' : (length (urlQueue st') <= P)%nat) by lia.
    assert (Ha : (Z.to_nat (maxPages config - Z.of_nat (c + S (length ps))) <= P - c - 1)%nat)
      by lia.
    assert (Hb : Z.to_nat (maxPages config - Z.of_nat c) = (P - c)%nat) by lia.
    rewrite Hb.
    assert (Hc' : (c < P)%nat) by lia.
    apply Nat.le_lt_trans with ((P - c - 1) * S P + P)%nat.
    + apply Nat.add_le_mono; [apply Nat.mul_le_mono_r; exact Ha | exact Hq'].
    + replace (P - c)%nat with (S (P - c - 1)) by lia. simpl. lia.
Qed.

(** The loop ends within any fuel above the measure, in a state that
    satisfies the invariant and the exit condition. *)
Lemma crawlLoop_terminates config : forall fuel st,
  0 < maxConcurrent config ->
  Invariant config st ->
  (crawlMeasure config st < fuel)%nat ->
  exists st',
    crawlLoop fuel config st = Some st'
    /\ Invariant config st'
    /\ continues config st' = false.
Proof.
  induction fuel as [|fuel IH]; intros st Hn Inv Hfuel; [lia|].
  simpl. destruct (continues config st) eqn:Hcont; [|eauto].
  apply IH; [assumption | now apply crawlBatch_invariant |].
  pose proof (crawlBatch_measure config st Inv Hcont Hn). lia.
Qed.

Lemma crawlLoop_fuel_mono config : forall fuel fuel' st st',
  crawlLoop fuel config st = Some st' ->
  (fuel <= fuel')%nat ->
  crawlLoop fuel' config st = Some st'.
Proof.
  induction fuel as [|fuel IH]; intros fuel' st st' Hr Hle; [discriminate|].
  destruct fuel' as [|fuel']; [lia|]. simpl in *.
  destruct (continues config st); [|assumption].
  apply IH; [assumption | lia].
Qed.

Lemma initialState_invariant config baseUrl : Invariant config (initialState baseUrl).
Proof.
  split; simpl; try (intros; set_solver); try lia.
  - constructor.
  - intros u d Hin. apply list_elem_of_singleton in Hin. injection Hin as _ <-. lia.
Qed.

Lemma configOf_maxConcurrent request baseDomain :
  maxConcurrent (configOf request baseDomain) = 3.
Proof. reflexivity. Qed.

(** From the initial state the loop ends within [crawlFuel]. *)
Lemma crawlLoop_initial config baseUrl :
  0 < maxConcurrent config ->
  exists st,
    crawlLoop (crawlFuel config) config (initialState baseUrl) = Some st
    /\ Invariant config st
    /\ continues config st = false.
Proof.
  intros Hn. apply crawlLoop_terminates; [assumption | apply initialState_invariant |].
  unfold crawlMeasure, crawlFuel. simpl.
  rewrite Z.sub_0_r. lia.
Qed.

(** *** The summary *)

Lemma hostnames_Some (ps : list CrawledPage) :
  (forall p, p ∈ ps -> is_Some (parseURL (url p))) ->
  exists hosts, hostnames ps = Some hosts.
Proof.
  intros Hall. unfold hostnames.
  destruct (mapM _ ps) as [hosts|] eqn:E; [eauto|].
  apply mapM_None in E. apply Exists_exists in E as (p & Hin & Hp).
  destruct (Hall p Hin) as [u Hu]. rewrite Hu in Hp. discriminate.
Qed.

Lemma summarize_invariant config st :
  Invariant config st ->
  exists r,
    summarize st = Return r
    /\ success r = true
    /\ pages r = crawledPages st
    /\ errors (summary r) = crawlErrors st
    /\ totalPages (summary r) = Z.of_nat (length (crawledPages st))
    /\ crawlDepth (summary r) = Math_max (map depth (crawledPages st)).
Proof.
  intros Inv. unfold summarize.
  destruct (hostnames_Some (crawledPages st)) as [hosts ->].
  - intros p Hin. destruct (inv_pages_fetched _ _ Inv p Hin) as [_ [d Hf]].
    apply (fetchPage_Crawled _ _ _ Hf).
  - eexists. split; [reflexivity|]. simpl. auto.
Qed.


(** *** The crawl as a whole *)

Lemma crawlLoop_invariant config : forall fuel st st',
  Invariant config st ->
  crawlLoop fuel config st = Some st' ->
  Invariant config st'.
Proof.
  induction fuel as [|fuel IH]; intros st st' Inv Hr; [discriminate|].
  simpl in Hr. destruct (continues config st) eqn:Hcont.
  - eapply IH; [|exact Hr]. now apply crawlBatch_invariant.
  - now injection Hr as <-.
Qed.

Lemma crawlDocumentation_run fuel request baseUrl b st :
  normalizeUrl (req_url request) = Return baseUrl ->
  parseURL baseUrl = Some b ->
  crawlLoop fuel (configOf request (hostname b)) (initialState baseUrl) = Some st ->
  exists r,
    crawlDocumentation fuel request = Return r
    /\ summarize st = Return r
    /\ success r = true
    /\ pages r = crawledPages st
    /\ errors (summary r) = crawlErrors st
    /\ totalPages (summary r) = Z.of_nat (length (crawledPages st))
    /\ crawlDepth (summary r) = Math_max (map depth (crawledPages st)).
Proof.
  intros Hnorm Hbase Hloop.
  pose proof (crawlLoop_invariant _ _ _ _ (initialState_invariant _ baseUrl) Hloop) as Inv.
  destruct (summarize_invariant _ st Inv) as (r & Hsum & Hrest).
  exists r. split; [|split; assumption].
  unfold crawlDocumentation, crawlBody. now rewrite Hnorm, Hbase, Hloop, Hsum.
Qed.

Lemma fetchPage_FetchError u d msg status :
  fetch u = FetchError msg status ->
  fetchPage u d
  = Failed {| err_url := u; err_error := msg; err_status := statusField status |}.
Proof. intros Hf. unfold fetchPage. now rewrite Hf. Qed.

(** C6. A request whose URL does not parse makes [crawlDocumentation]
    throw. For a request whose URL parses (and whose normalised form parses
    again, as every serialised URL does), [crawlDocumentation] returns a
    result once the fuel reaches [crawlFuel], and with less fuel it is still
    running: it never throws. In the result, every URL a fetch was issued for
    (the visited URLs) is accounted for: a rejected fetch left its entry
    [{url, error, status?}] in the error list, a page that was fetched and
    extracted is among the pages, whatever happened to the other URLs of its
    batch; and every entry of the error list comes from such a failure. *)
Theorem crawl_page_failures_are_data (request : CrawlRequest) :
  (parseURL (req_url request) = None ->
   forall fuel,
     crawlDocumentation fuel request = Throw (AppError "Failed to crawl documentation" 500))
  /\ (forall baseUrl b,
        normalizeUrl (req_url request) = Return baseUrl ->
        parseURL baseUrl = Some b ->
        let config := configOf request (hostname b) in
        exists st r,
          crawlLoop (crawlFuel config) config (initialState baseUrl) = Some st
          /\ (forall fuel, (crawlFuel config <= fuel)%nat ->
                           crawlDocumentation fuel request = Return r)
          /\ (forall fuel, crawlDocumentation fuel request = Return r
                           \/ crawlDocumentation fuel request = Diverge)
          /\ success r = true
          /\ pages r = crawledPages st
          /\ (forall u msg status,
                u ∈ visitedUrls st -> fetch u = FetchError msg status ->
                {| err_url := u; err_error := msg; err_status := statusField status |}
                ∈ errors (summary r))
          /\ (forall u d e,
                u ∈ visitedUrls st -> fetchPage u d = Failed e -> e ∈ errors (summary r))
          /\ (forall u d p,
                u ∈ visitedUrls st -> fetchPage u d = Crawled p ->
                exists p', p' ∈ pages r /\ url p' = u)
          /\ (forall e, e ∈ errors (summary r) ->
                err_url e ∈ visitedUrls st
                /\ exists d, fetchPage (err_url e) d = Failed e)).
Proof.
  split.
  - intros Hbad fuel. unfold crawlDocumentation, crawlBody, normalizeUrl.
    now rewrite Hbad.
  - intros baseUrl b Hnorm Hbase config.
    destruct (crawlLoop_initial config baseUrl) as (st & Hloop & Inv & _);
      [reflexivity|].
    destruct (crawlDocumentation_run _ request baseUrl b st Hnorm Hbase Hloop)
      as (r & Hrun & Hsum & Hsucc & Hpages & Herrs & _).
    exists st, r. split; [exact Hloop|].
    assert (Hmono : forall fuel, (crawlFuel config <= fuel)%nat ->
                                 crawlDocumentation fuel request = Return r).
    { intros fuel Hle.
      pose proof (crawlLoop_fuel_mono _ _ _ _ _ Hloop Hle) as Hloop'.
      destruct (crawlDocumentation_run _ request baseUrl b st Hnorm Hbase Hloop')
        as (r' & Hrun' & Hsum' & _).
      congruence. }
    split; [exact Hmono|]. split.
    { intros fuel.
      destruct (Nat.le_ge_cases (crawlFuel config) fuel) as [Hle|Hle]; [left; auto|].
      destruct (crawlLoop fuel config (initialState baseUrl)) as [st'|] eqn:Hloop'.
      - left.
        pose proof (crawlLoop_fuel_mono _ _ _ _ _ Hloop' Hle) as Heq.
        rewrite Hloop in Heq. injection Heq as ->.
        destruct (crawlDocumentation_run _ request baseUrl b st' Hnorm Hbase Hloop')
          as (r' & Hrun' & Hsum' & _).
        congruence.
      - right. unfold crawlDocumentation, crawlBody.
        rewrite Hnorm, Hbase. fold config. now rewrite Hloop'. }
    split; [exact Hsucc|]. split; [exact Hpages|].
    rewrite Herrs, Hpages. split; [|split; [|split]].
    + intros u msg status Hu Hf.
      apply (inv_failures _ _ Inv u 0 _ Hu). now apply fetchPage_FetchError.
    + intros u d e. apply (inv_failures _ _ Inv).
    + intros u d p. apply (inv_successes _ _ Inv).
    + apply (inv_errors _ _ Inv).
Qed.

(** C10. When the loop of a crawl ends without a page, [crawlDocumentation]
    returns a result with [success = true], no page, [totalPages = 0], the
    errors collected, and [crawlDepth = -Infinity], the maximum of no
    depth. *)
Theorem crawl_zero_pages (fuel : nat) (request : CrawlRequest) (baseUrl : string)
    (b : URL) (st : CrawlState) :
  normalizeUrl (req_url request) = Return baseUrl ->
  parseURL baseUrl = Some b ->
  crawlLoop fuel (configOf request (hostname b)) (initialState baseUrl) = Some st ->
  crawledPages st = [] ->
  crawlDocumentation fuel request
  = Return {| success := true;
              message := "Successfully crawled 0 pages";
              pages := [];
              summary := {| totalPages := 0;
                            totalWords := 0;
                            crawlDepth := NegInfinity;
                            uniqueDomains := [];
                            errors := crawlErrors st |} |}.
Proof.
  intros Hnorm Hbase Hloop Hnone.
  unfold crawlDocumentation, crawlBody. rewrite Hnorm, Hbase, Hloop.
  unfold summarize. rewrite Hnone. reflexivity.
Qed.

(** The number of pages stays below [maxPages] plus the batch size, and no
    page is deeper than [maxDepth] (or 0 when [maxDepth] is negative). *)
Lemma crawl_bounds (fuel : nat) (request : CrawlRequest) (r : CrawlResult) :
  crawlDocumentation fuel request = Return r ->
  exists config,
    (forall b, config = configOf request b ->
               maxPages config = maxPages (mergeConfig request)
               /\ maxDepth config = maxDepth (mergeConfig request))
    /\ Z.of_nat (length (pages r)) < Z.max 1 (maxPages (mergeConfig request) + 3)
    /\ forall p, p ∈ pages r -> depth p <= Z.max 0 (maxDepth (mergeConfig request)).
Proof.
  unfold crawlDocumentation, crawlBody. intros Hr.
  destruct (normalizeUrl (req_url request)) as [baseUrl| |] eqn:Hnorm; try discriminate.
  destruct (parseURL baseUrl) as [b|] eqn:Hbase; [|discriminate].
  destruct (crawlLoop fuel _ _) as [st|] eqn:Hloop; [|discriminate].
  pose proof (crawlLoop_invariant _ _ _ _ (initialState_invariant _ baseUrl) Hloop) as Inv.
  destruct (summarize_invariant _ st Inv) as (r' & Hsum & _ & Hpages & _).
  rewrite Hsum in Hr. injection Hr as ->.
  exists (configOf request (hostname b)).
  split; [intros b' ->; split; reflexivity|].
  rewrite Hpages. split.
  - apply (inv_pages_length _ _ Inv).
  - apply (inv_page_depth _ _ Inv).
Qed.

Lemma uniq_spec xs : forall seen,
  NoDup (uniq seen xs) /\ forall x, x ∈ uniq seen xs -> x ∈ xs /\ x ∉ seen.
Proof.
  induction xs as [|x xs IH]; intros seen; simpl.
  - split; [constructor | intros x Hin; inversion Hin].
  - destruct (decide (x ∈ seen)) as [Hs|Hs].
    + destruct (IH seen) as [Hnd Hin]. split; [assumption|].
      intros y Hy. destruct (Hin y Hy). split; [now right | assumption].
    + destruct (IH ({[x]} ∪ seen)) as [Hnd Hin]. split.
      * apply NoDup_cons. split; [|assumption].
        intros Hx. destruct (Hin x Hx) as [_ Hn]. set_solver.
      * intros y Hy. apply elem_of_cons in Hy as [->|Hy]; [split; [now left | assumption]|].
        destruct (Hin y Hy) as [Hy1 Hy2]. split; [now right | set_solver].
Qed.

(** The enqueue loop, closed form: the URLs appended are the first
    unvisited ones of [newUrls], as many as there is room for below
    [maxPages]; of the queue only the length is read. *)
Lemma enqueue_exact config visited crawled depth newUrls : forall queue,
  enqueue config visited crawled depth newUrls queue
  = queue ++ map (fun newUrl => (newUrl, depth + 1))
      (take (Z.to_nat (maxPages config - Z.of_nat crawled - Z.of_nat (length queue)))
         (filter (fun newUrl => newUrl ∉ visited) newUrls)).
Proof.
  induction newUrls as [|newUrl rest IH]; intros queue; cbn [enqueue].
  - rewrite filter_nil, take_nil. cbn [map]. now rewrite app_nil_r.
  - destruct (decide (newUrl ∈ visited)) as [Hv|Hv].
    + rewrite bool_decide_eq_true_2 by assumption. cbn [negb andb].
      rewrite filter_cons_False by (intros Hn; now apply Hn). apply IH.
    + rewrite bool_decide_eq_false_2 by assumption. cbn [negb andb].
      rewrite filter_cons_True by assumption.
      destruct (Z.of_nat crawled + Z.of_nat (length queue) <? maxPages config) eqn:Hroom.
      * apply Z.ltb_lt in Hroom. rewrite IH, length_app. cbn [length].
        replace (Z.to_nat (maxPages config - Z.of_nat crawled - Z.of_nat (length queue)))
          with (S (Z.to_nat (maxPages config - Z.of_nat crawled
                             - Z.of_nat (length queue + 1)))) by lia.
        cbn [take map]. now rewrite <- app_assoc.
      * apply Z.ltb_ge in Hroom. rewrite IH.
        replace (Z.to_nat (maxPages config - Z.of_nat crawled - Z.of_nat (length queue)))
          with 0%nat by lia.
        reflexivity.
Qed.

(** A visited URL of a batch resolves to no page, at its position. *)
Lemma dispatch_visited : forall batch visited (j : nat) u d,
  batch !! j = Some (u, d) -> u ∈ visited ->
  (dispatch batch visited).2 !! j = Some ((u, d), None).
Proof.
  induction batch as [|[u' d'] batch IH]; intros visited j u d Hj Hv; [discriminate|].
  cbn [dispatch]. unfold crawlSinglePage.
  destruct (decide (u' ∈ visited)) as [Hv'|Hv'].
  - destruct (dispatch batch visited) as [v rs] eqn:E. cbn [snd].
    destruct j as [|j]; cbn in Hj |- *.
    + now injection Hj as -> ->.
    + specialize (IH visited j u d Hj Hv). now rewrite E in IH.
  - destruct (dispatch batch ({[u']} ∪ visited)) as [v rs] eqn:E. cbn [snd].
    destruct j as [|j]; cbn in Hj |- *.
    + injection Hj as -> ->. contradiction.
    + specialize (IH ({[u']} ∪ visited) j u d Hj ltac:(set_solver)). now rewrite E in IH.
Qed.

(** The second of two entries of a batch with the same URL resolves to no
    page. *)
Lemma dispatch_repeat : forall batch visited (i j : nat) u d d',
  (i < j)%nat -> batch !! i = Some (u, d) -> batch !! j = Some (u, d') ->
  (dispatch batch visited).2 !! j = Some ((u, d'), None).
Proof.
  induction batch as [|[u0 d0] batch IH]; intros visited i j u d d' Hlt Hi Hj; [discriminate|].
  destruct j as [|j]; [lia|]. cbn in Hj.
  cbn [dispatch].
  destruct (crawlSinglePage u0 d0 visited) as [visited1 res] eqn:Hc.
  destruct (dispatch batch visited1) as [v rs] eqn:E. cbn [snd]. cbn.
  destruct i as [|i]; cbn in Hi.
  - injection Hi as -> ->.
    assert (Hv : u ∈ visited1).
    { unfold crawlSinglePage in Hc. destruct (decide (u ∈ visited)); injection Hc as <- _;
        set_solver. }
    pose proof (dispatch_visited batch visited1 j u d' Hj Hv) as Hd.
    now rewrite E in Hd.
  - specialize (IH visited1 i j u d d' ltac:(lia) Hi Hj). now rewrite E in IH.
Qed.

(** C4, amended. (1) A page's candidates are its links that pass the
    filters, cut before the fragment, without repeats. (2) The enqueue step
    appends candidates at depth + 1 that are not in the visited set, and only
    while pages collected plus queue length is below [maxPages]. (3) A queued
    URL that is visited by the time its batch is dispatched resolves to no
    page without a fetch. (4) So no URL is twice among the pages of a crawl.
    (5) What is appended is exactly the first unvisited candidates, as many
    as there is room for below [maxPages]: of the queue only the length is
    read, its URLs are not consulted. (6) This is the queue after a page of a
    batch was collected, with the page counted among the pages collected, and
    nothing is appended from a page at [maxDepth] or deeper. (7) Hence an
    unvisited candidate that is already queued is queued again when there is
    room, and the queue then holds its URL twice. (8) Of two entries of one
    batch with the same URL, the second resolves to no page. *)
Theorem enqueue_dedups_against_visited_only :
  (forall page config,
     NoDup (extractUrls page config)
     /\ forall u, u ∈ extractUrls page config ->
          exists link, candidate page config link = Some u /\ u = beforeHash link)
  /\ (forall config visited crawled depth newUrls queue,
        exists added,
          enqueue config visited crawled depth newUrls queue = queue ++ added
          /\ Forall (fun item => fst item ∈ newUrls /\ (fst item ∉ visited)
                                 /\ snd item = depth + 1) added
          /\ (added <> [] ->
              Z.of_nat crawled + Z.of_nat (length queue) < maxPages config
              /\ Z.of_nat crawled + Z.of_nat (length (queue ++ added)) <= maxPages config))
  /\ (forall batch visited u d,
        (u, d) ∈ batch -> u ∈ visited ->
        ((u, d), None) ∈ snd (dispatch batch visited))
  /\ (forall config fuel baseUrl st,
        crawlLoop fuel config (initialState baseUrl) = Some st ->
        NoDup (map url (crawledPages st)))
  /\ (forall config visited crawled depth newUrls queue,
        enqueue config visited crawled depth newUrls queue
        = queue ++ map (fun newUrl => (newUrl, depth + 1))
            (take (Z.to_nat (maxPages config - Z.of_nat crawled - Z.of_nat (length queue)))
               (filter (fun newUrl => newUrl ∉ visited) newUrls)))
  /\ (forall config st u d page,
        urlQueue (processResult config st ((u, d), Some (Crawled page)))
        = if d <? maxDepth config
          then urlQueue st ++ map (fun newUrl => (newUrl, d + 1))
                 (take (Z.to_nat (maxPages config - Z.of_nat (length (crawledPages st) + 1)
                                  - Z.of_nat (length (urlQueue st))))
                    (filter (fun newUrl => newUrl ∉ visitedUrls st) (extractUrls page config)))
          else urlQueue st)
  /\ (forall config visited crawled depth newUrls queue u d',
        u ∈ newUrls -> u ∉ visited -> (u, d') ∈ queue ->
        Z.of_nat crawled + Z.of_nat (length queue) + Z.of_nat (length newUrls)
        <= maxPages config ->
        (u, depth + 1) ∈ drop (length queue)
                           (enqueue config visited crawled depth newUrls queue)
        /\ ~ NoDup (map fst (enqueue config visited crawled depth newUrls queue)))
  /\ (forall batch visited (i j : nat) u d d',
        (i < j)%nat -> batch !! i = Some (u, d) -> batch !! j = Some (u, d') ->
        (dispatch batch visited).2 !! j = Some ((u, d'), None)).
Proof.
  split; [|split; [|split; [|split; [|split; [|split; [|split]]]]]].
  - intros page config. unfold extractUrls.
    destruct (uniq_spec (omap (candidate page config)
                (if followExternalLinks config
                 then links_internal (metadata page) ++ links_external (metadata page)
                 else links_internal (metadata page))) ∅) as [Hnd Hin].
    split; [exact Hnd|].
    intros u Hu. destruct (Hin u Hu) as [Hc _].
    apply list_elem_of_omap in Hc as (link & _ & Hc). exists link. split; [assumption|].
    unfold candidate in Hc.
    destruct (parseURL link); [|discriminate].
    repeat match type of Hc with
           | (if ?b then _ else _) = _ => destruct b; try discriminate
           end.
    now injection Hc.
  - intros. apply enqueue_spec.
  - intros batch visited u d Hin Hv.
    apply list_elem_of_lookup in Hin as [j Hj].
    eapply list_elem_of_lookup_2. apply (dispatch_visited batch visited j u d Hj Hv).
  - intros config fuel baseUrl st Hloop.
    apply (inv_pages_nodup config).
    eapply crawlLoop_invariant; [apply initialState_invariant | exact Hloop].
  - intros. apply enqueue_exact.
  - intros config st u d page. cbn [processResult urlQueue].
    destruct (d <? maxDepth config); [|reflexivity].
    rewrite enqueue_exact, length_app. reflexivity.
  - intros config visited crawled depth newUrls queue u d' Hin Hv Hq Hroom.
    rewrite enqueue_exact.
    assert (Hadded : (u, depth + 1)
                     ∈ map (fun newUrl => (newUrl, depth + 1))
                         (take (Z.to_nat (maxPages config - Z.of_nat crawled
                                          - Z.of_nat (length queue)))
                            (filter (fun newUrl => newUrl ∉ visited) newUrls))).
    { rewrite take_ge.
      - apply list_elem_of_In, in_map_iff. exists u. split; [reflexivity|].
        apply list_elem_of_In, list_elem_of_filter. auto.
      - pose proof (length_filter (fun newUrl => newUrl ∉ visited) newUrls). lia. }
    split.
    + now rewrite drop_app_length.
    + rewrite map_app. intros Hnd. apply NoDup_app in Hnd as (_ & Hdisj & _).
      apply (Hdisj u).
      * apply list_elem_of_In, in_map_iff. exists (u, d'). split; [reflexivity|].
        now apply list_elem_of_In.
      * apply list_elem_of_In, in_map_iff. exists (u, depth + 1). split; [reflexivity|].
        now apply list_elem_of_In.
  - apply dispatch_repeat.
Qed.

End WithWeb.

(** *** The example sites *)

#[local] Existing Instance Fixture.httpsUrls.
#[local] Existing Instance Fixture.inBatchOrder.

(** C1, at the failing input: with [maxDepth = 2] and [maxPages = 5] the
    crawl of the seven-page site returns seven pages. After the first batch
    of three the collection holds four pages and the queue three entries: the
    enqueue guard did not count the two entries of the batch that were still
    to be processed, and the loop condition lets a whole batch start while a
    single page is missing. *)
Theorem crawl_exceeds_maxPages :
  exists r,
    @crawlDocumentation Fixture.httpsUrls (Fixture.webOf Fixture.docsSite) Fixture.inBatchOrder 32
      (Fixture.request Fixture.root 2 5) = Return r
    /\ maxPages (mergeConfig (Fixture.request Fixture.root 2 5)) = 5
    /\ length (pages r) = 7%nat
    /\ totalPages (summary r) = 7
    /\ errors (summary r) = [].
Proof.
  eexists. split; [vm_compute; reflexivity|].
  repeat split.
Qed.

(** C4, as stated, fails: after the second batch of the crawl of the
    diamond-shaped site the queue holds the same URL twice. *)
Lemma frontier_holds_url_twice :
  let config := configOf (Fixture.request Fixture.root 3 50) "docs.example.com" in
  let st := @crawlBatch Fixture.httpsUrls (Fixture.webOf Fixture.diamondSite) Fixture.inBatchOrder config
              (@crawlBatch Fixture.httpsUrls (Fixture.webOf Fixture.diamondSite) Fixture.inBatchOrder config
                 (initialState Fixture.root)) in
  urlQueue st = [("https://docs.example.com/c", 2); ("https://docs.example.com/c", 2)]
  /\ ~ NoDup (map fst (urlQueue st)).
Proof.
  assert (Hq : urlQueue
                 (@crawlBatch Fixture.httpsUrls (Fixture.webOf Fixture.diamondSite) Fixture.inBatchOrder
                    (configOf (Fixture.request Fixture.root 3 50) "docs.example.com")
                    (@crawlBatch Fixture.httpsUrls (Fixture.webOf Fixture.diamondSite) Fixture.inBatchOrder
                       (configOf (Fixture.request Fixture.root 3 50) "docs.example.com")
                       (initialState Fixture.root)))
               = [("https://docs.example.com/c", 2); ("https://docs.example.com/c", 2)])
    by (vm_compute; reflexivity).
  cbv zeta. rewrite Hq. split; [reflexivity|].
  simpl. intros Hnd. apply NoDup_cons in Hnd as [Hnin _].
  apply Hnin. now left.
Qed.

(** The crawl of the diamond-shaped site: the URL queued twice is crawled
    once, and it is queued a second time while the queue holds it. *)
Lemma enqueue_dedups_against_visited_only_witness :
  (exists st,
     @crawlLoop Fixture.httpsUrls (Fixture.webOf Fixture.diamondSite) Fixture.inBatchOrder 10
       (configOf (Fixture.request Fixture.root 3 50) "docs.example.com")
       (initialState Fixture.root) = Some st
     /\ length (crawledPages st) = 4%nat
     /\ NoDup (map url (crawledPages st)))
  /\ ~ NoDup (map fst
               (enqueue (configOf (Fixture.request Fixture.root 3 50) "docs.example.com")
                  {[ "https://docs.example.com/"; "https://docs.example.com/a";
                     "https://docs.example.com/b" ]}
                  3 1 ["https://docs.example.com/c"] [("https://docs.example.com/c", 2)])).
Proof.
  split.
  - destruct (@crawlLoop Fixture.httpsUrls (Fixture.webOf Fixture.diamondSite)
                Fixture.inBatchOrder 10
                (configOf (Fixture.request Fixture.root 3 50) "docs.example.com")
                (initialState Fixture.root)) as [st|] eqn:Hloop;
      [|vm_compute in Hloop; discriminate].
    exists st. split; [reflexivity|]. split.
    + vm_compute in Hloop. injection Hloop as <-. reflexivity.
    + exact (proj1 (proj2 (proj2 (proj2
               (@enqueue_dedups_against_visited_only Fixture.httpsUrls
                  (Fixture.webOf Fixture.diamondSite) Fixture.inBatchOrder)))) _ _ _ _ Hloop).
  - apply (proj1 (proj2 (proj2 (proj2 (proj2 (proj2 (proj2
             (@enqueue_dedups_against_visited_only Fixture.httpsUrls
                (Fixture.webOf Fixture.diamondSite) Fixture.inBatchOrder)))))))
             (configOf (Fixture.request Fixture.root 3 50) "docs.example.com")
             {[ "https://docs.example.com/"; "https://docs.example.com/a";
                "https://docs.example.com/b" ]}
             3%nat 1 ["https://docs.example.com/c"] [("https://docs.example.com/c", 2)]
             "https://docs.example.com/c" 2).
    + left.
    + compute_done.
    + left.
    + vm_compute. discriminate.
Defined.

(** The crawl of the site with a broken link and a PDF: the page next to
    the broken link is collected, the failure is an entry of the error list,
    and a malformed seed makes the crawl throw. *)
Lemma crawl_page_failures_are_data_witness :
  (exists r,
     @crawlDocumentation Fixture.httpsUrls (Fixture.webOf Fixture.brokenSite) Fixture.inBatchOrder 200
       (Fixture.request Fixture.root 3 10) = Return r
     /\ {| err_url := "https://docs.example.com/gone";
           err_error := "Request failed with status code 404";
           err_status := Some 404 |} ∈ errors (summary r)
     /\ exists p, p ∈ pages r /\ url p = "https://docs.example.com/a")
  /\ @crawlDocumentation Fixture.httpsUrls (Fixture.webOf Fixture.brokenSite) Fixture.inBatchOrder 200
       (Fixture.request "docs.example.com" 3 10)
     = Throw (AppError "Failed to crawl documentation" 500).
Proof.
  split.
  - destruct (proj2 (@crawl_page_failures_are_data Fixture.httpsUrls (Fixture.webOf Fixture.brokenSite) Fixture.inBatchOrder
                       (Fixture.request Fixture.root 3 10))
                Fixture.root
                {| base := "https://docs.example.com"; hostname := "docs.example.com";
                   pathname := "/"; search := ""; hash := "" |}
                eq_refl eq_refl)
      as (st & r & Hloop & Hret & _ & _ & _ & Herr & _ & Hpage & _).
    exists r. split; [apply Hret; vm_compute; lia|].
    vm_compute in Hloop. injection Hloop as <-.
    split.
    + apply (Herr "https://docs.example.com/gone"
               "Request failed with status code 404" (Some 404));
        [|reflexivity].
      compute_done.
    + eapply (Hpage "https://docs.example.com/a" 1);
        [|vm_compute; reflexivity].
      compute_done.
  - apply (proj1 (@crawl_page_failures_are_data Fixture.httpsUrls (Fixture.webOf Fixture.brokenSite) Fixture.inBatchOrder
                    (Fixture.request "docs.example.com" 3 10))).
    vm_compute. reflexivity.
Defined.

(** A seed that answers 404: no page, one error, depth [-Infinity]. *)
Lemma crawl_zero_pages_witness :
  @crawlDocumentation Fixture.httpsUrls (Fixture.webOf Fixture.brokenSite) Fixture.inBatchOrder 5
    (Fixture.request "https://docs.example.com/zzz" 3 10)
  = Return {| success := true;
              message := "Successfully crawled 0 pages";
              pages := [];
              summary :=
                {| totalPages := 0;
                   totalWords := 0;
                   crawlDepth := NegInfinity;
                   uniqueDomains := [];
                   errors :=
                     [{| err_url := "https://docs.example.com/zzz";
                         err_error := "Request failed with status code 404";
                         err_status := Some 404 |}] |} |}.
Proof.
  destruct (@crawlLoop Fixture.httpsUrls (Fixture.webOf Fixture.brokenSite) Fixture.inBatchOrder 5
              (configOf (Fixture.request "https://docs.example.com/zzz" 3 10)
                 "docs.example.com")
              (initialState "https://docs.example.com/zzz")) as [st|] eqn:Hloop;
    [|vm_compute in Hloop; discriminate].
  rewrite (@crawl_zero_pages Fixture.httpsUrls (Fixture.webOf Fixture.brokenSite) Fixture.inBatchOrder 5
             (Fixture.request "https://docs.example.com/zzz" 3 10)
             "https://docs.example.com/zzz"
             {| base := "https://docs.example.com"; hostname := "docs.example.com";
                pathname := "/zzz"; search := ""; hash := "" |}
             st eq_refl eq_refl Hloop).
  - vm_compute in Hloop. injection Hloop as <-. reflexivity.
  - vm_compute in Hloop. injection Hloop as <-. reflexivity.
Defined.

End CrawlerFacts.

(** ** Breadth-first order and the origin of pages *)

Module CrawlOrderFacts.

Import JS JSFacts Crawler CrawlerFacts CrawlOrder.

Set Warnings "-clear-no-such-hyp".

Lemma StronglySorted_app_le (l k : list Z) :
  StronglySorted Z.le l -> StronglySorted Z.le k ->
  (forall x y, x ∈ l -> y ∈ k -> x <= y) ->
  StronglySorted Z.le (l ++ k).
Proof.
  intros Hl Hk Hlk. induction Hl as [|a l Hl IH Ha]; simpl; [assumption|].
  constructor.
  - apply IH. intros x y Hx Hy. apply Hlk; [now right | assumption].
  - apply Forall_app. split; [assumption|].
    apply Forall_forall. intros y Hy. apply Hlk; [now left | assumption].
Qed.

Lemma StronglySorted_app_inv (l k : list Z) :
  StronglySorted Z.le (l ++ k) ->
  StronglySorted Z.le l /\ StronglySorted Z.le k
  /\ forall x y, x ∈ l -> y ∈ k -> x <= y.
Proof.
  induction l as [|a l IH]; simpl; intros Hs.
  - split; [constructor|]. split; [assumption|]. intros x y Hx. inversion Hx.
  - apply StronglySorted_inv in Hs as [Hs Ha].
    destruct (IH Hs) as (Hl & Hk & Hlk). apply Forall_app in Ha as [Hal Hak].
    split; [constructor; assumption|]. split; [assumption|].
    intros x y Hx Hy. apply elem_of_cons in Hx as [->|Hx]; [|auto].
    rewrite Forall_forall in Hak. auto.
Qed.

Lemma StronglySorted_replicate (k : nat) (d : Z) : StronglySorted Z.le (replicate k d).
Proof.
  induction k as [|k IH]; simpl; constructor; [assumption|].
  apply Forall_forall. intros x Hx. apply elem_of_replicate in Hx as [-> _]. lia.
Qed.

Section WithWeb.
Context `{UrlApi} `{Web} `{Scheduler}.

Lemma Origin_mono baseUrl config collected collected' u d :
  collected ⊆ collected' ->
  Origin baseUrl config collected u d -> Origin baseUrl config collected' u d.
Proof.
  intros Hsub [Hseed|(parent & Hin & Hrest)]; [now left|].
  right. exists parent. split; [now apply Hsub | assumption].
Qed.

(** An entry that gives no page is dropped. *)
Lemma Traversal_skip baseUrl config collected q pending :
  Traversal baseUrl config collected (q :: pending) ->
  Traversal baseUrl config collected pending.
Proof.
  intros [Hs Hl Hp Hc]. simpl in Hs, Hl.
  apply StronglySorted_app_inv in Hs as (Hsc & Hsp & Hcp).
  apply StronglySorted_inv in Hsp as [Hsp Hq].
  split.
  - apply StronglySorted_app_le; [assumption..|].
    intros x y Hx Hy. apply Hcp; [assumption | now right].
  - intros d Hd.
    specialize (Hl (snd q) eq_refl). apply Forall_cons in Hl as [_ Hl].
    destruct pending as [|q' pending]; [discriminate|]. simpl in Hd. injection Hd as <-.
    apply Forall_cons in Hq as [Hq _].
    eapply Forall_impl; [exact Hl|]. simpl. intros x Hx. lia.
  - intros u d Hin. apply Hp. now right.
  - exact Hc.
Qed.

(** An entry that gives a page: the page joins the collection and its
    candidates join the queue one level down. *)
Lemma Traversal_page baseUrl config collected u d pending page added :
  Traversal baseUrl config collected ((u, d) :: pending) ->
  url page = u -> depth page = d ->
  Forall (fun item => fst item ∈ extractUrls page config /\ snd item = d + 1) added ->
  (added <> [] -> d < maxDepth config) ->
  Traversal baseUrl config (collected ++ [page]) (pending ++ added).
Proof.
  intros [Hs Hl Hp Hc] Hu Hd Hadded Hdepth. simpl in Hs, Hl.
  apply StronglySorted_app_inv in Hs as (Hsc & Hsp & Hcp).
  apply StronglySorted_inv in Hsp as [Hsp Hq].
  specialize (Hl d eq_refl). apply Forall_cons in Hl as [_ Hl].
  assert (Hsub : collected ⊆ collected ++ [page]) by (intros x Hx; apply elem_of_app; now left).
  assert (Hmap : map snd added = replicate (length added) (d + 1)).
  { clear -Hadded. induction Hadded as [|item added [_ Hi] _ IH]; simpl; [reflexivity|].
    now rewrite Hi, IH. }
  split.
  - rewrite !map_app, Hmap. cbn [map]. rewrite Hd.
    rewrite <- app_assoc. cbn [app].
    apply StronglySorted_app_le; [assumption| |].
    + constructor.
      * apply StronglySorted_app_le; [assumption | apply StronglySorted_replicate|].
        intros x y Hx Hy. apply elem_of_replicate in Hy as [-> _].
        rewrite Forall_forall in Hl. now apply Hl.
      * apply Forall_app. split; [assumption|].
        apply Forall_forall. intros y Hy. apply elem_of_replicate in Hy as [-> _]. lia.
    + intros x y Hx Hy. apply elem_of_cons in Hy as [->|Hy]; [apply Hcp; [assumption | now left]|].
      apply elem_of_app in Hy as [Hy|Hy]; [apply Hcp; [assumption | now right]|].
      apply elem_of_replicate in Hy as [-> _].
      specialize (Hcp x d Hx ltac:(now left)). lia.
  - intros d' Hd'. rewrite map_app, Hmap in Hd' |- *.
    apply Forall_app. split.
    + destruct pending as [|q' pending]; [constructor|]. simpl in Hd'. injection Hd' as <-.
      apply Forall_cons in Hq as [Hq _].
      eapply Forall_impl; [exact Hl|]. simpl. intros x Hx. lia.
    + apply Forall_forall. intros y Hy. apply elem_of_replicate in Hy as [-> _].
      destruct pending as [|q' pending].
      * simpl in Hd'. destruct (length added); simpl in Hd'; [discriminate|].
        injection Hd' as <-. lia.
      * simpl in Hd'. injection Hd' as <-. apply Forall_cons in Hq as [Hq _]. lia.
  - intros u' d' Hin. apply elem_of_app in Hin as [Hin|Hin].
    + eapply Origin_mono; [exact Hsub|]. apply Hp. now right.
    + right. exists page. rewrite Forall_forall in Hadded.
      destruct (Hadded _ Hin) as [Hex Hsnd]. simpl in Hex, Hsnd.
      split; [apply elem_of_app; right; now left|].
      split; [lia|]. split; [|assumption].
      rewrite Hd. apply Hdepth. intros ->. inversion Hin.
  - intros p Hin. apply elem_of_app in Hin as [Hin|Hin].
    + eapply Origin_mono; [exact Hsub|]. now apply Hc.
    + apply list_elem_of_singleton in Hin as ->. rewrite Hu, Hd.
      eapply Origin_mono; [exact Hsub|]. apply Hp. now left.
Qed.


Lemma processResults_traversal baseUrl config results : forall st,
  (forall q p, (q, Some (Crawled p)) ∈ results -> url p = fst q /\ depth p = snd q) ->
  Traversal baseUrl config (crawledPages st) (map fst results ++ urlQueue st) ->
  Traversal baseUrl config
    (crawledPages (fold_left (processResult config) results st))
    (urlQueue (fold_left (processResult config) results st)).
Proof.
  induction results as [|[[u d] o] results IH]; intros st Hres Htr; [exact Htr|].
  cbn [fold_left]. apply IH.
  - intros q p Hin. apply Hres. now right.
  - cbn [map fst app] in Htr.
    destruct o as [[page| |e]|]; try (eapply Traversal_skip; exact Htr).
    destruct (Hres (u, d) page ltac:(now left)) as [Hu Hd]. simpl in Hu, Hd.
    simpl. destruct (d <? maxDepth config) eqn:E.
    + apply Z.ltb_lt in E.
      destruct (enqueue_spec config (visitedUrls st) (length (crawledPages st ++ [page]))
                  d (extractUrls page config) (urlQueue st)) as (added & -> & Hall & _).
      rewrite app_assoc.
      eapply Traversal_page; [exact Htr | assumption | assumption | | intros _; exact E].
      eapply Forall_impl; [exact Hall|]. intros item (Hin & _ & Hs). auto.
    + rewrite <- (app_nil_r (map fst results ++ urlQueue st)).
      eapply Traversal_page; [exact Htr | assumption | assumption | apply Forall_nil_2 | intros Hn; now destruct Hn].
Qed.

Lemma crawlBatch_traversal baseUrl config st :
  Traversal baseUrl config (crawledPages st) (urlQueue st) ->
  Traversal baseUrl config (crawledPages (crawlBatch config st))
    (urlQueue (crawlBatch config st)).
Proof.
  intros Htr. unfold crawlBatch.
  set (n := Z.to_nat (maxConcurrent config)).
  destruct (dispatch (take n (urlQueue st)) (visitedUrls st)) as [visited results] eqn:Hdisp.
  destruct (dispatch_spec _ _ _ _ Hdisp) as (Hfst & _ & Hout & _).
  apply processResults_traversal.
  - intros q p Hin. destruct (Hout _ _ Hin) as [Hf _]. symmetry in Hf.
    destruct (fetchPage_Crawled _ _ _ Hf) as (Hu & Hd & _). auto.
  - simpl. rewrite Hfst, take_drop. exact Htr.
Qed.

Lemma crawlLoop_traversal baseUrl config : forall fuel st st',
  Traversal baseUrl config (crawledPages st) (urlQueue st) ->
  crawlLoop fuel config st = Some st' ->
  Traversal baseUrl config (crawledPages st') (urlQueue st').
Proof.
  induction fuel as [|fuel IH]; intros st st' Htr Hr; [discriminate|].
  simpl in Hr. destruct (continues config st).
  - eapply IH; [|exact Hr]. now apply crawlBatch_traversal.
  - now injection Hr as <-.
Qed.

Lemma initialState_traversal baseUrl config :
  Traversal baseUrl config (crawledPages (initialState baseUrl))
    (urlQueue (initialState baseUrl)).
Proof.
  split; simpl.
  - repeat constructor.
  - intros d [= <-]. repeat constructor. lia.
  - intros u d Hin. apply list_elem_of_singleton in Hin. injection Hin as -> ->. now left.
  - intros p Hin. inversion Hin.
Qed.

(** What a returned result was computed from. *)
Lemma crawlDocumentation_Return fuel request r :
  crawlDocumentation fuel request = Return r ->
  exists baseUrl b st,
    normalizeUrl (req_url request) = Return baseUrl
    /\ parseURL baseUrl = Some b
    /\ crawlLoop fuel (configOf request (hostname b)) (initialState baseUrl) = Some st
    /\ summarize st = Return r
    /\ pages r = crawledPages st.
Proof.
  unfold crawlDocumentation, crawlBody. intros Hr.
  destruct (normalizeUrl (req_url request)) as [baseUrl| |] eqn:Hnorm; try discriminate.
  destruct (parseURL baseUrl) as [b|] eqn:Hbase; [|discriminate].
  destruct (crawlLoop fuel _ _) as [st|] eqn:Hloop; [|discriminate].
  exists baseUrl, b, st. repeat split; try assumption.
  - destruct (summarize st); congruence.
  - unfold summarize in Hr. destruct (hostnames (crawledPages st)); [|discriminate].
    now injection Hr as <-.
Qed.

(** The maximum of depths that never decrease is the last one. *)
Lemma Math_max_sorted (l : list Z) :
  StronglySorted Z.le l ->
  Math_max l = match last l with Some d => Num d | None => NegInfinity end.
Proof.
  unfold Math_max.
  assert (Hgen : forall l a, StronglySorted Z.le (a :: l) ->
            fold_left (fun acc x => match acc with
                                    | NegInfinity => Num x
                                    | Num a => Num (Z.max a x)
                                    end) l (Num a)
            = Num (default a (last l))).
  { clear l. induction l as [|x l IH]; intros a Hs; [reflexivity|].
    apply StronglySorted_inv in Hs as [Hs Ha]. apply Forall_cons in Ha as [Hax _].
    cbn [fold_left]. rewrite Z.max_r by lia. rewrite (IH x Hs).
    rewrite last_cons. destruct (last l); reflexivity. }
  intros Hs. destruct l as [|a l]; [reflexivity|].
  cbn [fold_left]. rewrite (Hgen l a Hs).
  rewrite last_cons. destruct (last l); reflexivity.
Qed.

(** X1. The pages of a result are in breadth-first order: along the page
    list the depth never decreases, so [crawlDepth] is the depth of the last
    page ([-Infinity] when there is none). *)
Theorem crawl_breadth_first (fuel : nat) (request : CrawlRequest) (r : CrawlResult) :
  crawlDocumentation fuel request = Return r ->
  StronglySorted Z.le (map depth (pages r))
  /\ crawlDepth (summary r)
     = match last (pages r) with
       | Some p => Num (depth p)
       | None => NegInfinity
       end.
Proof.
  intros Hr.
  destruct (crawlDocumentation_Return _ _ _ Hr) as (baseUrl & b & st & _ & _ & Hloop & Hsum & Hp).
  pose proof (crawlLoop_traversal baseUrl _ _ _ _ (initialState_traversal baseUrl _) Hloop)
    as [Hs _ _ _].
  apply StronglySorted_app_inv in Hs as (Hs & _).
  rewrite Hp. split; [exact Hs|].
  unfold summarize in Hsum. destruct (hostnames (crawledPages st)); [|discriminate].
  injection Hsum as <-. simpl. rewrite (Math_max_sorted _ Hs).
  assert (Hlast : last (map depth (crawledPages st)) = depth <$> last (crawledPages st))
    by apply fmap_last.
  rewrite Hlast. destruct (last (crawledPages st)); reflexivity.
Qed.

(** *** The filters of [extractUrls] *)

Lemma beforeHash_no_hash (s : string) : "#"%char ∉ list_ascii_of_string (beforeHash s).
Proof.
  induction s as [|c s IH]; simpl; [intros Hin; inversion Hin|].
  destruct (Ascii.eqb c "#") eqn:E; simpl; [intros Hin; inversion Hin|].
  apply Ascii.eqb_neq in E. intros Hin. apply elem_of_cons in Hin as [Heq|Hin]; auto.
Qed.

Lemma existsb_false {A} (f : A -> bool) (l : list A) :
  existsb f l = false -> forall x, x ∈ l -> f x = false.
Proof.
  intros He x Hx. destruct (f x) eqn:E; [|reflexivity].
  assert (existsb f l = true) by (apply existsb_exists; exists x; split;
                                  [now apply list_elem_of_In | assumption]).
  congruence.
Qed.

Lemma candidate_Some page config link u :
  candidate page config link = Some u ->
  exists linkUrl,
    parseURL link = Some linkUrl
    /\ (allowedDomains config <> [] -> hostname linkUrl ∈ allowedDomains config)
    /\ existsb (excludes (url page) link linkUrl) (excludePatterns config) = false
    /\ (includePatterns config <> [] ->
        existsb (fun pattern => includes (pathname linkUrl) pattern || includes link pattern)
          (includePatterns config) = true)
    /\ u = beforeHash link /\ u <> "".
Proof.
  unfold candidate. destruct (parseURL link) as [linkUrl|]; [|discriminate].
  destruct (_ && negb (bool_decide (hostname linkUrl ∈ allowedDomains config))) eqn:Ed;
    [discriminate|].
  destruct (existsb _ (excludePatterns config)) eqn:Ee; [discriminate|].
  destruct (_ && negb (existsb _ (includePatterns config))) eqn:Ei; [discriminate|].
  destruct (truthy (beforeHash link)) eqn:Et; [|discriminate].
  intros [= <-]. exists linkUrl. split; [reflexivity|].
  split; [|split; [exact Ee|split; [|split; [reflexivity|]]]].
  - intros Hne. apply andb_false_iff in Ed as [Ed|Ed].
    + apply Z.ltb_ge in Ed. destruct (allowedDomains config); [congruence | simpl in Ed; lia].
    + apply negb_false_iff, bool_decide_eq_true in Ed. exact Ed.
  - intros Hne. apply andb_false_iff in Ei as [Ei|Ei].
    + apply Z.ltb_ge in Ei. destruct (includePatterns config); [congruence | simpl in Ei; lia].
    + now apply negb_false_iff in Ei.
  - intros Heq. rewrite Heq in Et. discriminate.
Qed.

(** X2. Every URL that [extractUrls] returns is a link of the page (an
    external one only with [followExternalLinks]) that parses, whose host name
    is an allowed domain when any is set, in which no ordinary exclude pattern
    occurs (neither in the path nor in the link), in which an include pattern
    occurs when any is set, cut before its fragment: it is not empty and holds
    no [#]. The exclude pattern [?] stands for a query with [search=], [q=] or
    [query=], the exclude pattern [#] for a link to a fragment of the page
    itself. *)
Theorem extractUrls_filters (page : CrawledPage) (config : WebCrawlerConfig) (u : string) :
  u ∈ extractUrls page config ->
  exists link linkUrl,
    link ∈ linksToProcess page config
    /\ parseURL link = Some linkUrl
    /\ (allowedDomains config <> [] -> hostname linkUrl ∈ allowedDomains config)
    /\ (forall pattern,
          pattern ∈ excludePatterns config -> pattern <> "?" -> pattern <> "#" ->
          includes (pathname linkUrl) pattern = false /\ includes link pattern = false)
    /\ ("?" ∈ excludePatterns config ->
        includes (search linkUrl) "search=" = false
        /\ includes (search linkUrl) "q=" = false
        /\ includes (search linkUrl) "query=" = false)
    /\ ("#" ∈ excludePatterns config ->
        exists currentUrl,
          parseURL (url page) = Some currentUrl
          /\ (hash linkUrl = "" \/ pathname linkUrl <> pathname currentUrl
              \/ search linkUrl <> search currentUrl))
    /\ (includePatterns config <> [] ->
        exists pattern,
          pattern ∈ includePatterns config
          /\ (includes (pathname linkUrl) pattern = true \/ includes link pattern = true))
    /\ u = beforeHash link
    /\ u <> ""
    /\ "#"%char ∉ list_ascii_of_string u.
Proof.
  unfold extractUrls. fold (linksToProcess page config). intros Hu.
  destruct (uniq_spec (omap (candidate page config) (linksToProcess page config)) ∅)
    as [_ Hin].
  destruct (Hin u Hu) as [Hc _].
  apply list_elem_of_omap in Hc as (link & Hlink & Hc).
  destruct (candidate_Some _ _ _ _ Hc) as (linkUrl & Hp & Hdom & Hex & Hinc & Heq & Hne).
  exists link, linkUrl. split; [assumption|]. split; [assumption|]. split; [assumption|].
  split; [|split; [|split; [|split; [|split; [assumption|split; [assumption|]]]]]].
  - intros pattern Hpat Hq Hh.
    pose proof (existsb_false _ _ Hex pattern Hpat) as Hf. unfold excludes in Hf.
    apply String.eqb_neq in Hq, Hh. rewrite Hq, Hh in Hf.
    now apply orb_false_iff in Hf.
  - intros Hpat. pose proof (existsb_false _ _ Hex "?" Hpat) as Hf.
    unfold excludes in Hf. cbn [String.eqb Ascii.eqb Bool.eqb] in Hf.
    apply orb_false_iff in Hf as [Hf Hquery]. apply orb_false_iff in Hf as [Hs Hq].
    auto.
  - intros Hpat. pose proof (existsb_false _ _ Hex "#" Hpat) as Hf.
    unfold excludes in Hf. cbn [String.eqb Ascii.eqb Bool.eqb] in Hf.
    destruct (parseURL (url page)) as [currentUrl|]; [|discriminate].
    exists currentUrl. split; [reflexivity|].
    destruct (hash linkUrl) as [|c h]; [now left|]. right.
    change (0 <? Z.of_nat (String.length (String c h))) with true in Hf.
    cbn [andb] in Hf. apply andb_false_iff in Hf as [Hf|Hf];
      apply String.eqb_neq in Hf; auto.
  - intros Hne'. specialize (Hinc Hne'). apply existsb_exists in Hinc as (pattern & Hpat & Hb).
    exists pattern. split; [now apply list_elem_of_In|]. now apply orb_true_iff in Hb.
  - rewrite Heq. apply beforeHash_no_hash.
Qed.

(** X3. A crawl stays on the host of its seed, whatever
    [followExternalLinks] says: every page of a result is the seed at depth 0,
    or it was reached from a link of a page of the result one level up, below
    the depth limit, and the host name of that link is the host name of the
    normalised seed; the URL of the page is the link cut before its
    fragment. *)
Theorem crawl_stays_on_seed_host (fuel : nat) (request : CrawlRequest) (r : CrawlResult) :
  crawlDocumentation fuel request = Return r ->
  exists baseUrl b,
    normalizeUrl (req_url request) = Return baseUrl
    /\ parseURL baseUrl = Some b
    /\ forall p, p ∈ pages r ->
         (url p = baseUrl /\ depth p = 0)
         \/ exists parent link linkUrl,
              parent ∈ pages r
              /\ depth parent + 1 = depth p
              /\ depth parent < maxDepth (mergeConfig request)
              /\ link ∈ links_internal (metadata parent) ++ links_external (metadata parent)
              /\ parseURL link = Some linkUrl
              /\ hostname linkUrl = hostname b
              /\ url p = beforeHash link.
Proof.
  intros Hr.
  destruct (crawlDocumentation_Return _ _ _ Hr) as (baseUrl & b & st & Hn & Hb & Hloop & _ & Hp).
  exists baseUrl, b. split; [assumption|]. split; [assumption|].
  pose proof (crawlLoop_traversal baseUrl _ _ _ _ (initialState_traversal baseUrl _) Hloop)
    as [_ _ _ Hpages].
  rewrite Hp. intros p Hin.
  destruct (Hpages p Hin) as [Hseed|(parent & Hpar & Hd & Hmax & Hu)]; [now left|].
  right.
  unfold extractUrls in Hu. fold (linksToProcess parent (configOf request (hostname b))) in Hu.
  destruct (uniq_spec (omap (candidate parent (configOf request (hostname b)))
                         (linksToProcess parent (configOf request (hostname b)))) ∅)
    as [_ Huniq].
  destruct (Huniq _ Hu) as [Hc _].
  apply list_elem_of_omap in Hc as (link & Hlink & Hc).
  destruct (candidate_Some _ _ _ _ Hc) as (linkUrl & Hparse & Hdom & _ & _ & Heq & _).
  exists parent, link, linkUrl.
  split; [assumption|]. split; [assumption|]. split; [exact Hmax|].
  split; [|split; [assumption|split; [|assumption]]].
  - unfold linksToProcess in Hlink.
    destruct (followExternalLinks _); [assumption | apply elem_of_app; now left].
  - specialize (Hdom ltac:(discriminate)). simpl in Hdom.
    now apply list_elem_of_singleton in Hdom.
Qed.

End WithWeb.

#[local] Existing Instance Fixture.httpsUrls.
#[local] Existing Instance Fixture.inBatchOrder.

(** The crawl of the seven-page site: depths 0, 1, 1, 1, 1, 2, 2. *)
Lemma crawl_breadth_first_witness :
  exists r,
    @crawlDocumentation Fixture.httpsUrls (Fixture.webOf Fixture.docsSite)
      Fixture.inBatchOrder 32 (Fixture.request Fixture.root 2 5) = Return r
    /\ map depth (pages r) = [0; 1; 1; 1; 1; 2; 2]
    /\ StronglySorted Z.le (map depth (pages r))
    /\ crawlDepth (summary r) = Num 2.
Proof.
  destruct (@crawlDocumentation Fixture.httpsUrls (Fixture.webOf Fixture.docsSite)
              Fixture.inBatchOrder 32 (Fixture.request Fixture.root 2 5)) as [r| |] eqn:E;
    [|vm_compute in E; discriminate..].
  destruct (@crawl_breadth_first Fixture.httpsUrls (Fixture.webOf Fixture.docsSite)
              Fixture.inBatchOrder _ _ _ E) as [Hs Hd].
  exists r. split; [reflexivity|].
  vm_compute in E. injection E as <-.
  split; [reflexivity|]. split; [exact Hs|]. exact Hd.
Defined.

Lemma extractUrls_filters_witness :
  let config := configOf (Samples.followingExternalLinks Fixture.root 2 5) "docs.example.com" in
  @extractUrls Fixture.httpsUrls Samples.linkedPage config
  = ["https://docs.example.com/a"; "https://docs.example.com/b"]
  /\ exists link linkUrl,
       link ∈ linksToProcess Samples.linkedPage config
       /\ Fixture.parseHttps link = Some linkUrl
       /\ hostname linkUrl ∈ allowedDomains config
       /\ "https://docs.example.com/b" = beforeHash link.
Proof.
  intros config. split; [vm_compute; reflexivity|].
  destruct (@extractUrls_filters Fixture.httpsUrls Samples.linkedPage config
              "https://docs.example.com/b")
    as (link & linkUrl & Hlink & Hparse & Hdom & _ & _ & _ & _ & Heq & _).
  - assert (E : @extractUrls Fixture.httpsUrls Samples.linkedPage config
                = ["https://docs.example.com/a"; "https://docs.example.com/b"])
      by (vm_compute; reflexivity).
    rewrite E. apply list_elem_of_further, list_elem_of_here.
  - exists link, linkUrl. split; [exact Hlink|]. split; [exact Hparse|].
    split; [apply Hdom; discriminate | exact Heq].
Defined.

Lemma crawl_stays_on_seed_host_witness :
  exists r,
    @crawlDocumentation Fixture.httpsUrls (Fixture.webOf Samples.mixedSite)
      Fixture.inBatchOrder 32 (Samples.followingExternalLinks Fixture.root 2 5) = Return r
    /\ map url (pages r) = ["https://docs.example.com/"; "https://docs.example.com/a"]
    /\ exists baseUrl b,
         @normalizeUrl Fixture.httpsUrls Fixture.root = Return baseUrl
         /\ Fixture.parseHttps baseUrl = Some b
         /\ forall p, p ∈ pages r ->
              (url p = baseUrl /\ depth p = 0)
              \/ exists parent link linkUrl,
                   parent ∈ pages r
                   /\ depth parent + 1 = depth p
                   /\ depth parent < 2
                   /\ link ∈ links_internal (metadata parent) ++ links_external (metadata parent)
                   /\ Fixture.parseHttps link = Some linkUrl
                   /\ hostname linkUrl = hostname b
                   /\ url p = beforeHash link.
Proof.
  destruct (@crawlDocumentation Fixture.httpsUrls (Fixture.webOf Samples.mixedSite)
              Fixture.inBatchOrder 32 (Samples.followingExternalLinks Fixture.root 2 5))
    as [r| |] eqn:E; [|vm_compute in E; discriminate..].
  pose proof (@crawl_stays_on_seed_host Fixture.httpsUrls (Fixture.webOf Samples.mixedSite)
                Fixture.inBatchOrder _ _ _ E) as Hhost.
  exists r. split; [reflexivity|].
  split; [vm_compute in E; injection E as <-; reflexivity | exact Hhost].
Defined.

End CrawlOrderFacts.

(** ** Single pages: what [extractPageData] builds, and crawls of one page *)

Module CrawlPageFacts.

Import JS JSFacts Crawler CrawlerFacts CrawlOrder CrawlOrderFacts.

Set Warnings "-clear-no-such-hyp".

Lemma trimStart_head (s : string) :
  trimStart s = "" \/ exists c r, trimStart s = String c r /\ is_space c = false.
Proof.
  induction s as [|c s IH]; simpl; [now left|].
  destruct (is_space c) eqn:E; [assumption|]. right. eauto.
Qed.

Lemma trimEnd_head (c : ascii) (s : string) :
  is_space c = false -> exists r, trimEnd (String c s) = String c r.
Proof.
  intros Hc. simpl. destruct (trimEnd s); rewrite ?Hc; eauto.
Qed.

(** A trimmed string is empty or starts with a character that is not
    whitespace. *)
Lemma trim_head (s : string) :
  trim s = "" \/ exists c r, trim s = String c r /\ is_space c = false.
Proof.
  unfold trim. destruct (trimStart_head s) as [->|(c & r & -> & Hc)]; [now left|].
  right. destruct (trimEnd_head c r Hc) as [r' ->]. eauto.
Qed.

Lemma split_ws_head (c : ascii) (s : string) :
  is_space c = false -> exists h t, split_ws (String c s) = String c h :: t.
Proof.
  intros Hc. simpl. rewrite Hc. destruct (split_ws s); eauto.
Qed.

Lemma uniq_complete xs : forall seen x,
  x ∈ xs -> x ∉ seen -> x ∈ uniq seen xs.
Proof.
  induction xs as [|y xs IH]; intros seen x Hin Hs; [inversion Hin|]. simpl.
  destruct (decide (y ∈ seen)) as [Hy|Hy].
  - apply IH; [|assumption]. apply elem_of_cons in Hin as [->|Hin]; [contradiction | assumption].
  - destruct (decide (x = y)) as [->|Hne]; [apply list_elem_of_here|].
    apply list_elem_of_further, IH.
    + apply elem_of_cons in Hin as [->|Hin]; [contradiction | assumption].
    + set_solver.
Qed.

Section WithWeb.
Context `{UrlApi} `{Web} `{Scheduler}.

(** The links [classifyLinks] keeps are the resolved forms of the non-empty
    [href]s that resolve and parse, split by host name. *)
Lemma classifyLinks_spec baseDomain pageUrl hrefs : forall internal external,
  classifyLinks baseDomain pageUrl hrefs = (internal, external) ->
  forall l,
    (l ∈ internal <->
     exists h lu l', h ∈ hrefs /\ h <> "" /\ resolveURL h pageUrl = Some lu /\ l = href lu
                     /\ parseURL l = Some l' /\ hostname l' = baseDomain)
    /\ (l ∈ external <->
        exists h lu l', h ∈ hrefs /\ h <> "" /\ resolveURL h pageUrl = Some lu /\ l = href lu
                        /\ parseURL l = Some l' /\ hostname l' <> baseDomain).
Proof.
  induction hrefs as [|h hrefs IH]; intros internal external Hc l; simpl in Hc.
  - injection Hc as <- <-.
    split; (split; [intros Hin; inversion Hin | intros (h & ? & ? & Hin & _); inversion Hin]).
  - destruct (classifyLinks baseDomain pageUrl hrefs) as [int ext] eqn:E.
    specialize (IH int ext eq_refl l). destruct IH as [IHi IHe].
    assert (Hrest : forall P : string -> URL -> URL -> Prop,
               (exists h0 lu l', h0 ∈ hrefs /\ P h0 lu l') ->
               exists h0 lu l', h0 ∈ h :: hrefs /\ P h0 lu l').
    { intros P (h0 & lu & l' & Hin & HP). exists h0, lu, l'. split; [now right | assumption]. }
    assert (Hskip : forall P : string -> URL -> URL -> Prop,
               (forall lu l', ~ P h lu l') ->
               (exists h0 lu l', h0 ∈ h :: hrefs /\ P h0 lu l') ->
               exists h0 lu l', h0 ∈ hrefs /\ P h0 lu l').
    { intros P Hno (h0 & lu & l' & Hin & HP).
      apply elem_of_cons in Hin as [->|Hin]; [destruct (Hno _ _ HP) | eauto]. }
    destruct (truthy h) eqn:Ht.
    2:{ injection Hc as <- <-. destruct h; [|discriminate].
        rewrite IHi, IHe. split; (split; [apply Hrest | apply Hskip; intros lu l' [Hne _]; congruence]). }
    assert (Hh : h <> "") by (intros ->; discriminate).
    destruct (resolveURL h pageUrl) as [lu|] eqn:Er.
    2:{ injection Hc as <- <-. rewrite IHi, IHe.
        split; (split; [apply Hrest | apply Hskip; intros lu l' (_ & Hr & _); congruence]). }
    destruct (parseURL (href lu)) as [l'|] eqn:Ep.
    2:{ injection Hc as <- <-. rewrite IHi, IHe.
        split; (split; [apply Hrest
                       | apply Hskip; intros lu0 l0 (_ & Hr & -> & Hp & _); congruence]). }
    destruct (String.eqb (hostname l') baseDomain) eqn:Eh.
    + apply String.eqb_eq in Eh. injection Hc as <- <-. split.
      * rewrite elem_of_cons, IHi. split.
        -- intros [->|Hin]; [|now apply Hrest].
           exists h, lu, l'. split; [now left | auto].
        -- intros (h0 & lu0 & l0 & Hin & HP).
           apply elem_of_cons in Hin as [->|Hin]; [|right; eauto].
           left. destruct HP as (_ & Hr & -> & _). congruence.
      * rewrite IHe. split; [apply Hrest|].
        apply Hskip. intros lu0 l0 (_ & Hr & -> & Hp & Hn).
        assert (lu0 = lu) by congruence. subst. congruence.
    + apply String.eqb_neq in Eh. injection Hc as <- <-. split.
      * rewrite IHi. split; [apply Hrest|].
        apply Hskip. intros lu0 l0 (_ & Hr & -> & Hp & Hn).
        assert (lu0 = lu) by congruence. subst. congruence.
      * rewrite elem_of_cons, IHe. split.
        -- intros [->|Hin]; [|now apply Hrest].
           exists h, lu, l'. split; [now left | auto].
        -- intros (h0 & lu0 & l0 & Hin & HP).
           apply elem_of_cons in Hin as [->|Hin]; [|right; eauto].
           left. destruct HP as (_ & Hr & -> & _). congruence.
Qed.

(** X4. A page built by [extractPageData] keeps the URL, depth and status
    it was fetched with; its title and language are never empty; it counts
    no word exactly when its content is empty; every heading has a text; its
    internal and external links hold no link twice, every internal link
    parses to the host of the page and every external link to another host,
    so no link is on both lists. *)
Theorem extractPageData_wellformed (doc : Document) (u : string) (d s : Z)
    (page : CrawledPage) :
  extractPageData doc u d s = Some page ->
  url page = u /\ depth page = d /\ status page = s
  /\ title page <> "" /\ language (metadata page) <> ""
  /\ (wordCount (metadata page) = 0 <-> content page = "")
  /\ Forall (fun h => text h <> "") (headings (metadata page))
  /\ NoDup (links_internal (metadata page))
  /\ NoDup (links_external (metadata page))
  /\ exists pu,
       parseURL u = Some pu
       /\ (forall l, l ∈ links_internal (metadata page) ->
             exists lu, parseURL l = Some lu /\ hostname lu = hostname pu)
       /\ (forall l, l ∈ links_external (metadata page) ->
             exists lu, parseURL l = Some lu /\ hostname lu <> hostname pu)
       /\ (forall l, l ∈ links_internal (metadata page) ->
             l ∉ links_external (metadata page)).
Proof.
  unfold extractPageData.
  destruct (parseURL u) as [pu|] eqn:Hu; [|discriminate].
  destruct (classifyLinks (hostname pu) u (doc_hrefs doc)) as [internal external] eqn:Hc.
  intros [= <-]. cbn [url depth status title metadata language wordCount content headings
                      links_internal links_external].
  pose proof (classifyLinks_spec _ _ _ _ _ Hc) as Hl.
  assert (Hint : forall l, l ∈ uniq ∅ internal ->
                   exists lu, parseURL l = Some lu /\ hostname lu = hostname pu).
  { intros l Hin. apply uniq_spec in Hin as [Hin _].
    apply (Hl l) in Hin as (h & lu & l' & _ & _ & _ & _ & Hp & Hh). eauto. }
  assert (Hext : forall l, l ∈ uniq ∅ external ->
                   exists lu, parseURL l = Some lu /\ hostname lu <> hostname pu).
  { intros l Hin. apply uniq_spec in Hin as [Hin _].
    apply (Hl l) in Hin as (h & lu & l' & _ & _ & _ & _ & Hp & Hh). eauto. }
  split; [reflexivity|]. split; [reflexivity|]. split; [reflexivity|].
  split; [|split; [|split; [|split; [|split; [|split]]]]].
  - unfold orElse. destruct (truthy (trim (doc_title doc))) eqn:E1.
    { intros Heq. rewrite Heq in E1. discriminate. }
    destruct (truthy (trim (doc_h1 doc))) eqn:E2; [|discriminate].
    intros Heq. rewrite Heq in E2. discriminate.
  - unfold orElse. destruct (truthy (doc_language doc)) eqn:E; [|discriminate].
    intros Heq. rewrite Heq in E. discriminate.
  - destruct (trim_head (doc_content doc)) as [->|(c & r & -> & Hc')].
    + split; reflexivity.
    + destruct (split_ws_head c r Hc') as (h & t & ->).
      rewrite filter_cons_True by reflexivity.
      split; [cbn [length]; lia | discriminate].
  - apply Forall_forall. intros h Hin.
    apply list_elem_of_filter in Hin as [Ht _].
    intros Heq. rewrite Heq in Ht. discriminate.
  - apply uniq_spec.
  - apply uniq_spec.
  - exists pu. split; [reflexivity|]. split; [exact Hint|]. split; [exact Hext|].
    intros l Hi He.
    destruct (Hint l Hi) as (lu & Hp & Hh). destruct (Hext l He) as (lu' & Hp' & Hh').
    congruence.
Qed.

(** On a list of one entry the completion order is the list. *)
Lemma completionOrder_short (l : list CrawlError) :
  (length l <= 1)%nat -> completionOrder l = l.
Proof.
  intros Hl. pose proof (completionOrder_perm l) as Hp.
  destruct l as [|e [|e' l]]; [| |simpl in Hl; lia].
  - apply Permutation_sym, Permutation_nil in Hp. exact Hp.
  - apply Permutation_sym, Permutation_length_1_inv in Hp. exact Hp.
Qed.

(** X5. With [maxPages = 1] (the request of [analyzePage] and of
    [testVectorization]) a crawl fetches the seed and nothing else: it ends
    within two turns of the loop, its pages are the seed page if the fetch
    gave one and its errors the failure of that fetch if it failed. *)
Theorem crawl_single_page (fuel : nat) (request : CrawlRequest) (baseUrl : string)
    (b : URL) :
  maxPages (mergeConfig request) = 1 ->
  (2 <= fuel)%nat ->
  normalizeUrl (req_url request) = Return baseUrl ->
  parseURL baseUrl = Some b ->
  exists r,
    crawlDocumentation fuel request = Return r
    /\ pages r = match fetchPage baseUrl 0 with Crawled p => [p] | _ => [] end
    /\ errors (summary r) = match fetchPage baseUrl 0 with Failed e => [e] | _ => [] end.
Proof.
  intros Hmax Hfuel Hnorm Hb.
  set (config := configOf request (hostname b)).
  assert (Hmax' : maxPages config = 1) by exact Hmax.
  assert (Hloop : exists st,
             crawlLoop 2 config (initialState baseUrl) = Some st
             /\ crawledPages st = match fetchPage baseUrl 0 with Crawled p => [p] | _ => [] end
             /\ crawlErrors st = match fetchPage baseUrl 0 with Failed e => [e] | _ => [] end).
  { cbn [crawlLoop].
    assert (Hc0 : continues config (initialState baseUrl) = true).
    { unfold continues. cbn [initialState urlQueue crawledPages length]. rewrite Hmax'.
      reflexivity. }
    rewrite Hc0.
    assert (Hst : exists st,
               crawlBatch config (initialState baseUrl) = st
               /\ urlQueue st = []
               /\ crawledPages st
                  = match fetchPage baseUrl 0 with Crawled p => [p] | _ => [] end
               /\ crawlErrors st
                  = match fetchPage baseUrl 0 with Failed e => [e] | _ => [] end).
    { unfold crawlBatch.
      change (Z.to_nat (maxConcurrent config)) with 3%nat.
      cbn [initialState urlQueue visitedUrls crawledPages crawlErrors take drop dispatch].
      unfold crawlSinglePage. destruct (decide (baseUrl ∈ (∅ : gset string))) as [Hin|_];
        [set_solver|].
      cbn [fold_left app].
      destruct (fetchPage baseUrl 0) as [page| |e] eqn:Ef;
        cbn [processResult batchErrors omap list_omap snd fst crawledPages crawlErrors
             urlQueue visitedUrls app].
      - eexists. split; [reflexivity|]. cbn [urlQueue crawledPages crawlErrors].
        rewrite completionOrder_short by (cbn; lia).
        split; [|split; reflexivity].
        destruct (0 <? maxDepth config); [|reflexivity].
        destruct (enqueue_spec config ({[baseUrl]} ∪ ∅) (length [page]) 0
                    (extractUrls page config) []) as (added & -> & _ & Hadd).
        destruct added as [|a added]; [reflexivity|].
        destruct Hadd as [Hlt _]; [discriminate|]. cbn [length] in Hlt. lia.
      - eexists. split; [reflexivity|]. cbn [urlQueue crawledPages crawlErrors].
        rewrite completionOrder_short by (cbn; lia). auto.
      - eexists. split; [reflexivity|]. cbn [urlQueue crawledPages crawlErrors].
        rewrite completionOrder_short by (cbn; lia). auto. }
    destruct Hst as (st & -> & Hq & Hp & He).
    assert (Hc1 : continues config st = false).
    { unfold continues. rewrite Hq. reflexivity. }
    rewrite Hc1. eauto. }
  destruct Hloop as (st & Hloop & Hp & He).
  apply (crawlLoop_fuel_mono config 2 fuel) in Hloop; [|assumption].
  destruct (crawlDocumentation_run fuel request baseUrl b st Hnorm Hb Hloop)
    as (r & Hr & _ & _ & Hpages & Herrors & _).
  exists r. split; [assumption|]. rewrite Hpages, Herrors. auto.
Qed.

(** X6. The limits of a crawl, for every request: when pages were
    collected the first one is the seed, at depth 0; every page has a depth
    between 0 and [max 0 maxDepth], that is between 0 and [maxDepth] when
    [maxDepth] is not negative and 0 when it is; the pages are fewer than
    [max 1 (maxPages + 3)], that is fewer than [maxPages] plus the three
    fetches of a batch when [maxPages] is positive, and there is no page
    when it is not. *)
Theorem crawl_within_limits (fuel : nat) (request : CrawlRequest) (r : CrawlResult) :
  crawlDocumentation fuel request = Return r ->
  exists baseUrl,
    normalizeUrl (req_url request) = Return baseUrl
    /\ (forall p, head (pages r) = Some p -> url p = baseUrl /\ depth p = 0)
    /\ (forall p, p ∈ pages r -> 0 <= depth p <= Z.max 0 (maxDepth (mergeConfig request)))
    /\ Z.of_nat (length (pages r)) < Z.max 1 (maxPages (mergeConfig request) + 3)
    /\ (0 <= maxDepth (mergeConfig request) ->
        forall p, p ∈ pages r -> 0 <= depth p <= maxDepth (mergeConfig request))
    /\ (maxDepth (mergeConfig request) < 0 -> forall p, p ∈ pages r -> depth p = 0)
    /\ (0 < maxPages (mergeConfig request) ->
        Z.of_nat (length (pages r)) < maxPages (mergeConfig request) + 3)
    /\ (maxPages (mergeConfig request) <= 0 -> pages r = []).
Proof.
  intros Hr.
  destruct (crawl_bounds _ _ _ Hr) as (_ & _ & Hlen & Hdepth).
  destruct (crawlDocumentation_Return _ _ _ Hr) as (baseUrl & b & st & Hn & Hb & Hloop & _ & Hp).
  exists baseUrl. split; [assumption|].
  pose proof (crawlLoop_traversal baseUrl _ _ _ _ (initialState_traversal baseUrl _) Hloop)
    as [Hsorted _ _ Hpages].
  rewrite <- Hp in Hsorted, Hpages.
  apply StronglySorted_app_inv in Hsorted as [Hsorted _].
  assert (Hhead : forall p, head (pages r) = Some p ->
                    (url p = baseUrl /\ depth p = 0)
                    /\ forall q, q ∈ pages r -> depth p <= depth q).
  { intros p Hhd. destruct (pages r) as [|p0 rest]; [discriminate|].
    injection Hhd as ->. cbn [map] in Hsorted.
    apply StronglySorted_inv in Hsorted as [_ Hall].
    assert (Hmin : forall q, q ∈ p :: rest -> depth p <= depth q).
    { intros q Hq. apply elem_of_cons in Hq as [->|Hq]; [lia|].
      rewrite Forall_forall in Hall. apply Hall, list_elem_of_In, in_map, list_elem_of_In, Hq. }
    split; [|exact Hmin].
    destruct (Hpages p ltac:(left)) as [Hseed|(parent & Hpar & Hd & _)]; [assumption|].
    specialize (Hmin parent Hpar). lia. }
  assert (Hrange : forall p, p ∈ pages r ->
                     0 <= depth p <= Z.max 0 (maxDepth (mergeConfig request))).
  { intros p Hin. split; [|now apply Hdepth].
    destruct (pages r) as [|p0 rest] eqn:E; [inversion Hin|].
    destruct (Hhead p0 eq_refl) as [[_ Hzero] Hmin]. specialize (Hmin p Hin). lia. }
  split; [intros p Hhd; apply (Hhead p Hhd)|]. split; [exact Hrange|].
  split; [exact Hlen|].
  split; [intros Hpos p Hin; specialize (Hrange p Hin); lia|].
  split; [intros Hneg p Hin; specialize (Hrange p Hin); lia|].
  split; [intros Hpos; lia|].
  intros Hnone. rewrite Hp.
  destruct fuel as [|fuel]; [discriminate|]. cbn [crawlLoop] in Hloop.
  assert (Hc : continues (configOf request (hostname b)) (initialState baseUrl) = false).
  { unfold continues. apply andb_false_iff. right. apply Z.ltb_ge.
    cbn [initialState crawledPages length].
    change (maxPages (configOf request (hostname b))) with (maxPages (mergeConfig request)).
    lia. }
  rewrite Hc in Hloop. now injection Hloop as <-.
Qed.

(** X7. The summary of a result agrees with its pages: [totalPages] and
    the message count them, [totalWords] adds up their word counts,
    [uniqueDomains] lists the host names of their URLs, each once, and no URL
    is both the URL of a page and the URL of an error. *)
Theorem crawl_summary_consistent (fuel : nat) (request : CrawlRequest) (r : CrawlResult) :
  crawlDocumentation fuel request = Return r ->
  success r = true
  /\ message r = "Successfully crawled " +:+ pretty (length (pages r)) +:+ " pages"
  /\ totalPages (summary r) = Z.of_nat (length (pages r))
  /\ totalWords (summary r)
     = fold_left (fun sum page => sum + wordCount (metadata page)) (pages r) 0
  /\ NoDup (uniqueDomains (summary r))
  /\ (forall h,
        h ∈ uniqueDomains (summary r)
        <-> exists page u, page ∈ pages r /\ parseURL (url page) = Some u /\ hostname u = h)
  /\ (forall page e, page ∈ pages r -> e ∈ errors (summary r) -> url page <> err_url e).
Proof.
  intros Hr.
  destruct (crawlDocumentation_Return _ _ _ Hr) as (baseUrl & b & st & _ & _ & Hloop & Hsum & _).
  pose proof (crawlLoop_invariant _ _ _ _ (initialState_invariant _ baseUrl) Hloop) as Inv.
  unfold summarize in Hsum.
  destruct (hostnames (crawledPages st)) as [hosts|] eqn:Hhosts; [|discriminate].
  injection Hsum as <-. cbn [success message pages summary totalPages totalWords uniqueDomains
                              errors].
  split; [reflexivity|]. split; [reflexivity|]. split; [reflexivity|]. split; [reflexivity|].
  split; [apply uniq_spec|]. split.
  - unfold hostnames in Hhosts. apply mapM_Some in Hhosts.
    intros h. split.
    + intros Hin. apply uniq_spec in Hin as [Hin _].
      apply list_elem_of_lookup in Hin as [i Hi].
      destruct (Forall2_lookup_r _ _ _ _ _ Hhosts Hi) as (page & Hpage & Hh).
      destruct (parseURL (url page)) as [u|] eqn:Hu; [|discriminate].
      injection Hh as <-. exists page, u.
      split; [eapply list_elem_of_lookup_2; eassumption | auto].
    + intros (page & u & Hin & Hu & <-).
      apply uniq_complete; [|set_solver].
      apply list_elem_of_lookup in Hin as [i Hi].
      destruct (Forall2_lookup_l _ _ _ _ _ Hhosts Hi) as (h & Hh & Hph).
      rewrite Hu in Hph. injection Hph as <-.
      eapply list_elem_of_lookup_2; eassumption.
  - intros page e Hp He Heq.
    destruct (inv_pages_fetched _ _ Inv page Hp) as [_ [d Hd]].
    destruct (inv_errors _ _ Inv e He) as [_ [d' Hd']].
    rewrite <- Heq in Hd'.
    apply (fetchPage_Failed_depth _ _ d) in Hd'. congruence.
Qed.

End WithWeb.

#[local] Existing Instance Fixture.httpsUrls.
#[local] Existing Instance Fixture.inBatchOrder.

Lemma extractPageData_wellformed_witness :
  exists page,
    @extractPageData Fixture.httpsUrls (Fixture.webOf Samples.mixedSite)
      Samples.homeDoc Fixture.root 0 200 = Some page
    /\ title page = "Home"
    /\ language (metadata page) = "en"
    /\ wordCount (metadata page) = 4
    /\ map text (headings (metadata page)) = ["Home"]
    /\ links_internal (metadata page) = ["https://docs.example.com/a"]
    /\ links_external (metadata page) = ["https://other.example.org/z"]
    /\ NoDup (links_internal (metadata page))
    /\ Forall (fun h => text h <> "") (headings (metadata page)).
Proof.
  destruct (@extractPageData Fixture.httpsUrls (Fixture.webOf Samples.mixedSite)
              Samples.homeDoc Fixture.root 0 200) as [page|] eqn:E;
    [|vm_compute in E; discriminate].
  pose proof (@extractPageData_wellformed Fixture.httpsUrls (Fixture.webOf Samples.mixedSite)
                _ _ _ _ _ E) as (_ & _ & _ & _ & _ & _ & Hh & Hi & _).
  exists page. split; [reflexivity|].
  split; [vm_compute in E; injection E as <-; reflexivity|].
  split; [vm_compute in E; injection E as <-; reflexivity|].
  split; [vm_compute in E; injection E as <-; reflexivity|].
  split; [vm_compute in E; injection E as <-; reflexivity|].
  split; [vm_compute in E; injection E as <-; reflexivity|].
  split; [vm_compute in E; injection E as <-; reflexivity|].
  split; [exact Hi | exact Hh].
Defined.

Lemma crawl_single_page_witness :
  exists r,
    @crawlDocumentation Fixture.httpsUrls (Fixture.webOf Fixture.docsSite)
      Fixture.inBatchOrder 2 (Controllers.analyzePageRequest Fixture.root) = Return r
    /\ map url (pages r) = ["https://docs.example.com/"]
    /\ errors (summary r) = [].
Proof.
  destruct (@crawl_single_page Fixture.httpsUrls (Fixture.webOf Fixture.docsSite)
              Fixture.inBatchOrder 2 (Controllers.analyzePageRequest Fixture.root)
              Fixture.root
              {| base := "https://docs.example.com"; hostname := "docs.example.com";
                 pathname := "/"; search := ""; hash := "" |}
              eq_refl (le_n 2) eq_refl eq_refl)
    as (r & Hr & Hp & He).
  exists r. split; [exact Hr|]. rewrite Hp, He. split; reflexivity.
Defined.

Lemma crawl_within_limits_witness :
  (exists r,
     @crawlDocumentation Fixture.httpsUrls (Fixture.webOf Fixture.docsSite)
       Fixture.inBatchOrder 32 (Fixture.request Fixture.root 2 5) = Return r
     /\ map depth (pages r) = [0; 1; 1; 1; 1; 2; 2]
     /\ (forall p, p ∈ pages r -> 0 <= depth p <= 2)
     /\ Z.of_nat (length (pages r)) < 5 + 3)
  /\ (exists r,
        @crawlDocumentation Fixture.httpsUrls (Fixture.webOf Fixture.docsSite)
          Fixture.inBatchOrder 32 (Fixture.request Fixture.root 2 (-1)) = Return r
        /\ pages r = []).
Proof.
  split.
  - destruct (@crawlDocumentation Fixture.httpsUrls (Fixture.webOf Fixture.docsSite)
                Fixture.inBatchOrder 32 (Fixture.request Fixture.root 2 5)) as [r| |] eqn:E;
      [|vm_compute in E; discriminate..].
    destruct (@crawl_within_limits Fixture.httpsUrls (Fixture.webOf Fixture.docsSite)
                Fixture.inBatchOrder _ _ _ E) as (baseUrl & _ & _ & _ & _ & Hd & _ & Hl & _).
    exists r. split; [reflexivity|].
    split; [vm_compute in E; injection E as <-; reflexivity|].
    split; [apply Hd; vm_compute; discriminate | apply Hl; reflexivity].
  - destruct (@crawlDocumentation Fixture.httpsUrls (Fixture.webOf Fixture.docsSite)
                Fixture.inBatchOrder 32 (Fixture.request Fixture.root 2 (-1))) as [r| |] eqn:E;
      [|vm_compute in E; discriminate..].
    destruct (@crawl_within_limits Fixture.httpsUrls (Fixture.webOf Fixture.docsSite)
                Fixture.inBatchOrder _ _ _ E) as (baseUrl & _ & _ & _ & _ & _ & _ & _ & Hnone).
    exists r. split; [reflexivity|]. apply Hnone. vm_compute. discriminate.
Defined.

Lemma crawl_summary_consistent_witness :
  exists r,
    @crawlDocumentation Fixture.httpsUrls (Fixture.webOf Fixture.brokenSite)
      Fixture.inBatchOrder 32 (Fixture.request Fixture.root 2 5) = Return r
    /\ map url (pages r) = ["https://docs.example.com/"; "https://docs.example.com/a"]
    /\ map err_url (errors (summary r)) = ["https://docs.example.com/gone"]
    /\ uniqueDomains (summary r) = ["docs.example.com"]
    /\ totalPages (summary r) = Z.of_nat (length (pages r))
    /\ NoDup (uniqueDomains (summary r)).
Proof.
  destruct (@crawlDocumentation Fixture.httpsUrls (Fixture.webOf Fixture.brokenSite)
              Fixture.inBatchOrder 32 (Fixture.request Fixture.root 2 5)) as [r| |] eqn:E;
    [|vm_compute in E; discriminate..].
  destruct (@crawl_summary_consistent Fixture.httpsUrls (Fixture.webOf Fixture.brokenSite)
              Fixture.inBatchOrder _ _ _ E) as (_ & _ & Htotal & _ & Hnd & _).
  exists r. split; [reflexivity|].
  split; [vm_compute in E; injection E as <-; reflexivity|].
  split; [vm_compute in E; injection E as <-; reflexivity|].
  split; [vm_compute in E; injection E as <-; reflexivity|].
  split; [exact Htotal | exact Hnd].
Defined.

End CrawlPageFacts.

(** ** The words of the chunks *)

Module ChunkWordsFacts.

Import JS JSFacts Chunker ChunkerFacts ChunkWords.

Lemma split_ws_spaceless_word (w : string) : spaceless w = true -> split_ws w = [w].
Proof.
  induction w as [|c w IH]; simpl; [reflexivity|].
  intros Hs. apply andb_true_iff in Hs as [Hc Hw]. apply negb_true_iff in Hc.
  rewrite Hc, (IH Hw). reflexivity.
Qed.

Lemma trimEnd_spaceless (w : string) : spaceless w = true -> trimEnd w = w.
Proof.
  induction w as [|c w IH]; simpl; [reflexivity|].
  intros Hs. apply andb_true_iff in Hs as [Hc Hw]. apply negb_true_iff in Hc.
  rewrite (IH Hw), Hc. destruct w; reflexivity.
Qed.

Lemma trimEnd_app (s t : string) : trimEnd t = t -> t <> "" -> trimEnd (s +:+ t) = s +:+ t.
Proof.
  intros Ht Hne. induction s as [|c s IH]; [exact Ht|].
  change (trimEnd (String c (s +:+ t)) = String c (s +:+ t)).
  simpl. rewrite IH. destruct (s +:+ t) eqn:E; [|reflexivity].
  destruct s as [|a s]; [change (t = "") in E; congruence|].
  change (String a (s +:+ t) = "") in E. discriminate.
Qed.

Lemma trimStart_token (w s : string) : token w -> trimStart (w +:+ s) = w +:+ s.
Proof.
  intros [Hne Hs]. destruct w as [|c w]; [congruence|].
  simpl in Hs. apply andb_true_iff in Hs as [Hc _]. apply negb_true_iff in Hc.
  change (trimStart (String c (w +:+ s)) = String c (w +:+ s)). simpl. now rewrite Hc.
Qed.

Lemma join_cons (w w' : string) (ws : list string) :
  join " " (w :: w' :: ws) = w +:+ String " " (join " " (w' :: ws)).
Proof. reflexivity. Qed.

Lemma join_tokens_nonempty (w : string) (ws : list string) :
  w <> "" -> join " " (w :: ws) <> "".
Proof.
  intros Hne. destruct ws as [|w' ws]; [exact Hne|].
  rewrite join_cons. destruct w; [congruence | discriminate].
Qed.

(** Tokens joined with single spaces have no whitespace to trim. *)
Lemma trim_join_tokens (ws : list string) :
  Forall token ws -> trim (join " " ws) = join " " ws.
Proof.
  intros Hall. unfold trim.
  assert (Hend : forall ws, Forall token ws -> ws <> [] ->
                   trimEnd (join " " ws) = join " " ws).
  { clear ws Hall. induction ws as [|w ws IH]; intros Hall Hne; [congruence|].
    inversion Hall as [|? ? [Hw Hs] Hrest]; subst.
    destruct ws as [|w' ws]; [now apply trimEnd_spaceless|].
    rewrite join_cons. apply trimEnd_app.
    - change (String " " (join " " (w' :: ws))) with (" " +:+ join " " (w' :: ws)).
      apply trimEnd_app; [apply IH; [assumption | discriminate]|].
      inversion Hrest as [|? ? [Hw' _] _]; subst. now apply join_tokens_nonempty.
    - discriminate. }
  destruct ws as [|w ws]; [reflexivity|].
  inversion Hall as [|? ? Hw Hrest]; subst.
  assert (Hstart : trimStart (join " " (w :: ws)) = join " " (w :: ws)).
  { destruct ws as [|w' ws].
    - change (join " " [w]) with w. destruct Hw as [Hw Hs].
      destruct w as [|c w]; [congruence|].
      simpl in Hs. apply andb_true_iff in Hs as [Hc _]. apply negb_true_iff in Hc.
      simpl. now rewrite Hc.
    - rewrite join_cons. now apply trimStart_token. }
  rewrite Hstart. apply Hend; [assumption | discriminate].
Qed.

Lemma split_ws_token_space (w rest : string) (c : ascii) (r : string) :
  spaceless w = true -> w <> "" -> rest = String c r -> is_space c = false ->
  split_ws (w +:+ String " " rest) = w :: split_ws rest.
Proof.
  intros Hs Hne -> Hc. induction w as [|a w IH]; [congruence|].
  simpl in Hs. apply andb_true_iff in Hs as [Ha Hw]. apply negb_true_iff in Ha.
  change (split_ws (String a (w +:+ String " " (String c r)))
          = String a w :: split_ws (String c r)).
  cbn [split_ws]. rewrite Ha.
  destruct w as [|b w].
  - change ("" +:+ String " " (String c r)) with (String " " (String c r)).
    cbn [split_ws]. change (is_space " ") with true. cbv iota. rewrite Hc. reflexivity.
  - fold split_ws. rewrite (IH Hw ltac:(discriminate)). reflexivity.
Qed.

(** Splitting what was joined gives the tokens back. *)
Lemma split_ws_join_tokens (ws : list string) :
  Forall token ws -> ws <> [] -> split_ws (join " " ws) = ws.
Proof.
  induction ws as [|w ws IH]; intros Hall Hne; [congruence|].
  inversion Hall as [|? ? [Hw Hs] Hrest]; subst.
  destruct ws as [|w' ws]; [now apply split_ws_spaceless_word|].
  rewrite join_cons.
  inversion Hrest as [|? ? [Hw' Hs'] _]; subst.
  destruct (join " " (w' :: ws)) as [|c r] eqn:E.
  { exfalso. now apply (join_tokens_nonempty w' ws). }
  assert (Hc : is_space c = false).
  { destruct w' as [|c' w'']; [congruence|].
    simpl in Hs'. apply andb_true_iff in Hs' as [Hc' _]. apply negb_true_iff in Hc'.
    destruct ws; simpl in E; injection E as <- _; exact Hc'. }
  rewrite (split_ws_token_space w _ c r Hs Hw eq_refl Hc).
  f_equal. apply IH; [assumption | discriminate].
Qed.

Lemma Forall_slice_tokens (words : list string) (a b : Z) :
  Forall token words -> Forall token (slice words a b).
Proof. intros Hall. unfold slice. now apply Forall_take, Forall_drop. Qed.

Lemma tokens_of_text (text : string) :
  Forall (fun w => w <> "") (split_ws text) -> Forall token (split_ws text).
Proof.
  intros Hne. pose proof (split_ws_spaceless text) as Hs.
  rewrite Forall_forall in *. intros w Hw. split; auto.
Qed.

(** X8. Chunking loses no word. For a text without leading or trailing
    whitespace and an overlap below the chunk size, [chunkText] returns chunks
    whose words are the windows of the words of the text: chunk [k] holds the
    words from [k * (chunkSize - overlap)] on, at most [chunkSize] of them;
    there are as many chunks as steps of [chunkSize - overlap] are needed to
    pass the last word; and every word of the text is in the chunk of its
    window. *)
Theorem chunks_preserve_words (text : string) (chunkSize chunkOverlap : Z) (fuel : nat) :
  0 <= chunkOverlap < chunkSize ->
  Forall (fun w => w <> "") (split_ws text) ->
  (length (split_ws text) < fuel)%nat ->
  exists chunks,
    chunkText fuel text chunkSize chunkOverlap = Some chunks
    /\ (forall k chunk,
          chunks !! k = Some chunk ->
          split_ws chunk
          = slice (split_ws text) (Z.of_nat k * (chunkSize - chunkOverlap))
              (Z.of_nat k * (chunkSize - chunkOverlap) + chunkSize)
          /\ (1 <= length (split_ws chunk))%nat
          /\ Z.of_nat (length (split_ws chunk)) <= chunkSize)
    /\ (Z.of_nat (length chunks) - 1) * (chunkSize - chunkOverlap)
       < Z.of_nat (length (split_ws text))
       <= Z.of_nat (length chunks) * (chunkSize - chunkOverlap)
    /\ (forall j word,
          split_ws text !! j = Some word ->
          let k := (j / Z.to_nat (chunkSize - chunkOverlap))%nat in
          exists chunk,
            chunks !! k = Some chunk
            /\ split_ws chunk !! (j - k * Z.to_nat (chunkSize - chunkOverlap))%nat
               = Some word).
Proof.
  intros Hstep Hne Hfuel.
  set (words := split_ws text) in *.
  pose proof (tokens_of_text text Hne) as Htok. fold words in Htok.
  assert (Hsp : Forall (fun w => spaceless w = true) words) by apply split_ws_spaceless.
  destruct (chunkLoop_terminates fuel words chunkSize chunkOverlap 0 [] ltac:(lia) ltac:(lia))
    as [r Hr].
  pose proof (chunkLoop_windows words chunkSize chunkOverlap ltac:(lia) ltac:(lia) Hne Hsp
                fuel 0%nat [] r ltac:(intros j Hj; lia) eq_refl Hr) as Hwin.
  pose proof (length_split_ws_pos text) as Hpos. fold words in Hpos.
  assert (Hr0 : (0 < length r)%nat).
  { specialize (Hwin 0%nat).
    destruct (Z.of_nat 0 * (chunkSize - chunkOverlap) <? Z.of_nat (length words)) eqn:E;
      [|apply Z.ltb_ge in E; lia].
    apply lookup_lt_Some in Hwin. exact Hwin. }
  assert (Hchunks : chunkText fuel text chunkSize chunkOverlap = Some r).
  { unfold chunkText. fold words. rewrite Hr.
    destruct (0 <? Z.of_nat (length r)) eqn:E; [reflexivity | apply Z.ltb_ge in E; lia]. }
  assert (Hslice : forall k,
             Z.of_nat k * (chunkSize - chunkOverlap) < Z.of_nat (length words) ->
             let ws := slice words (Z.of_nat k * (chunkSize - chunkOverlap))
                         (Z.of_nat k * (chunkSize - chunkOverlap) + chunkSize) in
             split_ws (windowChunk words chunkSize chunkOverlap k) = ws
             /\ (1 <= length ws)%nat /\ Z.of_nat (length ws) <= chunkSize).
  { intros k Hk ws.
    assert (Hlen : (1 <= length ws)%nat /\ Z.of_nat (length ws) <= chunkSize).
    { unfold ws. rewrite length_slice by nia. split; nia. }
    split; [|exact Hlen].
    unfold windowChunk. fold ws.
    assert (Hws : Forall token ws) by (apply Forall_slice_tokens; assumption).
    rewrite trim_join_tokens by assumption.
    apply split_ws_join_tokens; [assumption|].
    intros Heq. rewrite Heq in Hlen. simpl in Hlen. lia. }
  exists r. split; [assumption|]. split.
  - intros k chunk Hk. rewrite Hwin in Hk.
    destruct (Z.of_nat k * (chunkSize - chunkOverlap) <? Z.of_nat (length words)) eqn:E;
      [|discriminate].
    apply Z.ltb_lt in E. injection Hk as <-.
    destruct (Hslice k E) as (Heq & Hl1 & Hl2). rewrite Heq. auto.
  - split; [split|].
    + destruct (lookup_lt_is_Some_2 r (length r - 1)) as [x Hx]; [lia|].
      rewrite Hwin in Hx.
      destruct (Z.of_nat (length r - 1) * (chunkSize - chunkOverlap)
                <? Z.of_nat (length words)) eqn:E; [|discriminate].
      apply Z.ltb_lt in E. unfold words in *.
      replace (Z.of_nat (length r) - 1) with (Z.of_nat (length r - 1)) by lia. exact E.
    + pose proof (lookup_ge_None_2 r (length r) ltac:(lia)) as Hx.
      rewrite Hwin in Hx.
      destruct (Z.of_nat (length r) * (chunkSize - chunkOverlap)
                <? Z.of_nat (length words)) eqn:E; [discriminate|].
      apply Z.ltb_ge in E. unfold words in *. exact E.
    + intros j word Hj k.
      set (step := Z.to_nat (chunkSize - chunkOverlap)) in *.
      assert (Hstep' : (0 < step)%nat) by (unfold step; lia).
      pose proof (lookup_lt_Some _ _ _ Hj) as Hjn.
      assert (Hk : (k * step <= j < k * step + step)%nat).
      { unfold k. pose proof (Nat.div_mod_eq j step).
        pose proof (Nat.mod_upper_bound j step ltac:(lia)). nia. }
      assert (Hkz : Z.of_nat k * (chunkSize - chunkOverlap) = Z.of_nat (k * step))
        by (unfold step; nia).
      assert (Hlt : Z.of_nat k * (chunkSize - chunkOverlap) < Z.of_nat (length words)) by lia.
      exists (windowChunk words chunkSize chunkOverlap k). split.
      * rewrite Hwin. apply Z.ltb_lt in Hlt. now rewrite Hlt.
      * destruct (Hslice k Hlt) as [-> _]. rewrite Hkz.
        unfold slice. rewrite !rel_index_nonneg by lia.
        rewrite lookup_take_lt by (unfold step in *; lia).
        rewrite lookup_drop. rewrite <- Hj. f_equal. lia.
Qed.

Lemma chunks_preserve_words_witness :
  exists chunks,
    chunkText 6 "a b c d e" 3 1 = Some chunks
    /\ chunks = ["a b c"; "c d e"; "e"]
    /\ forall k chunk, chunks !! k = Some chunk -> Z.of_nat (length (split_ws chunk)) <= 3.
Proof.
  destruct (chunks_preserve_words "a b c d e" 3 1 6) as (chunks & Hc & Hk & _ & _).
  - lia.
  - repeat constructor; discriminate.
  - vm_compute. lia.
  - exists chunks. split; [exact Hc|].
    split; [vm_compute in Hc; injection Hc as <-; reflexivity|].
    intros k chunk Hin. apply (Hk k chunk Hin).
Defined.

End ChunkWordsFacts.

(** ** The chunks of the pages *)

Module PageChunkFacts.

Import JS JSFacts Chunker ChunkerFacts Crawler Vector.

Section WithUrls.
Context `{UrlApi}.

(** X9. Every chunk that [processIntoChunks] returns belongs to a page whose
    URL parses (other pages are skipped without a trace): its content is the
    window of [chunkText] at its index, its index is below the number of
    chunks of the page, it carries the URL, title and depth of the page and
    the host name of the URL, and its section is the first heading of the
    page, whatever the position of the chunk in the text. *)
Theorem processIntoChunks_by_page (fuel : nat) (pages : list CrawledPage)
    (chunkSize chunkOverlap : Z) (chunks : list TextChunk) :
  processIntoChunks fuel pages chunkSize chunkOverlap = Some chunks ->
  forall c, c ∈ chunks ->
    exists page u pageChunks,
      page ∈ pages
      /\ parseURL (url page) = Some u
      /\ Chunker.chunkText fuel (fullText page) chunkSize chunkOverlap = Some pageChunks
      /\ pageChunks !! Z.to_nat (chunkIndex (chunk_metadata c)) = Some (chunk_content c)
      /\ 0 <= chunkIndex (chunk_metadata c) < totalChunks (chunk_metadata c)
      /\ totalChunks (chunk_metadata c) = Z.of_nat (length pageChunks)
      /\ c_url (chunk_metadata c) = url page
      /\ c_title (chunk_metadata c) = title page
      /\ pageDepth (chunk_metadata c) = depth page
      /\ domain (chunk_metadata c) = hostname u
      /\ section (chunk_metadata c)
         = (h ← head (headings (metadata page)); optString (text h)).
Proof.
  revert chunks. induction pages as [|page pages IH]; intros chunks Hp c Hc; simpl in Hp.
  - injection Hp as <-. inversion Hc.
  - destruct (parseURL (url page)) as [u|] eqn:Hu.
    2:{ destruct (IH chunks Hp c Hc) as (page' & u' & pc & Hin & Hrest).
        exists page', u', pc. split; [now right | exact Hrest]. }
    destruct (Chunker.chunkText fuel (fullText page) chunkSize chunkOverlap)
      as [pageChunks|] eqn:Hct; [|discriminate].
    destruct (processIntoChunks fuel pages chunkSize chunkOverlap) as [rest|]; [|discriminate].
    injection Hp as <-. apply elem_of_app in Hc as [Hc|Hc].
    + exists page, u, pageChunks. split; [now left|]. split; [assumption|].
      split; [assumption|].
      unfold pageChunksOf in Hc. apply elem_of_lookup_imap_1 in Hc as (i & x & -> & Hx).
      cbn [chunk_metadata chunk_content chunkIndex totalChunks c_url c_title pageDepth
           domain section].
      pose proof (lookup_lt_Some _ _ _ Hx) as Hi.
      rewrite Nat2Z.id. split; [assumption|]. split; [lia|].
      repeat (split; [reflexivity|]). reflexivity.
    + destruct (IH rest eq_refl c Hc) as (page' & u' & pc & Hin & Hrest).
      exists page', u', pc. split; [now right | exact Hrest].
Qed.

End WithUrls.

#[local] Existing Instance Fixture.httpsUrls.

Lemma processIntoChunks_by_page_witness :
  exists chunks,
    @processIntoChunks Fixture.httpsUrls 10 Fixture.guidePages 1000 200 = Some chunks
    /\ map (fun c => domain (chunk_metadata c)) chunks
       = ["docs.example.com"; "docs.example.com"]
    /\ forall c, c ∈ chunks ->
         0 <= chunkIndex (chunk_metadata c) < totalChunks (chunk_metadata c).
Proof.
  destruct (@processIntoChunks Fixture.httpsUrls 10 Fixture.guidePages 1000 200)
    as [chunks|] eqn:E; [|vm_compute in E; discriminate].
  pose proof (@processIntoChunks_by_page Fixture.httpsUrls _ _ _ _ _ E) as Hpage.
  exists chunks. split; [reflexivity|].
  split; [vm_compute in E; injection E as <-; reflexivity|].
  intros c Hc. destruct (Hpage c Hc) as (page & u & pc & _ & _ & _ & _ & Hi & _).
  exact Hi.
Defined.

End PageChunkFacts.

(** ** Runs of the vector service *)

Module VectorRunFacts.

Import JS JSFacts Chunker ChunkerFacts Crawler Vector VectorFacts VectorRuns.

Lemma slice_take_drop {A} (xs : list A) (i n : nat) :
  slice xs (Z.of_nat i) (Z.of_nat (i + n)) = take n (drop i xs).
Proof.
  unfold slice. rewrite !rel_index_nonneg by lia. rewrite !Nat2Z.id.
  destruct (decide (i <= length xs)%nat) as [Hi|Hi].
  - rewrite (Nat.min_l i) by lia.
    destruct (decide (i + n <= length xs)%nat) as [Hn|Hn].
    + rewrite Nat.min_l by lia. f_equal. lia.
    + rewrite Nat.min_r by lia. rewrite !take_ge; [reflexivity|..];
        rewrite length_drop; lia.
  - rewrite !drop_ge by lia. now rewrite !take_nil.
Qed.

Lemma isBatch_take {A} (xs : list A) (i : nat) :
  (i < length xs)%nat -> isBatch (take 100 (drop i xs)).
Proof. intros Hi. unfold isBatch. rewrite length_take, length_drop. lia. Qed.

Section WithProviders.
Context `{UrlApi} `{AppConfig} `{EmbeddingProvider} `{IndexProvider} `{Clock}.

(** *** Making the records of a batch *)

Lemma generateVectorId_run chunk w :
  match parseURL (c_url (chunk_metadata chunk)) with
  | Some u =>
      generateVectorId chunk w
      = (tick w, Return (vectorIdOf u (chunkIndex (chunk_metadata chunk)) (now (clockReads w))))
  | None => generateVectorId chunk w = (w, Throw (PlainError "Invalid URL"))
  end.
Proof. unfold generateVectorId. destruct (parseURL _); reflexivity. Qed.

Lemma vectorId_accepted u index time :
  negb (truthy (vectorIdOf u index time))
  || (512 <? Z.of_nat (String.length (vectorIdOf u index time))) = false.
Proof.
  destruct (vectorIdOf_format u index time) as (Hne & Hlen & _).
  apply orb_false_iff. split.
  - destruct (vectorIdOf u index time); [congruence | reflexivity].
  - apply Z.ltb_ge. exact Hlen.
Qed.

Lemma embedBatch_cons data chunk rest index acc w :
  embedBatch data (chunk :: rest) index acc w
  = match data !! index with
    | Some (Some embedding) =>
        match parseURL (c_url (chunk_metadata chunk)) with
        | Some u =>
            embedBatch data rest (S index)
              (acc ++ [{| vec_id := vectorIdOf u (chunkIndex (chunk_metadata chunk))
                                      (now (clockReads w));
                          values := embedding;
                          vec_metadata := chunk_metadata chunk;
                          vec_content := substring0 40000 (chunk_content chunk) |}])
              (tick w)
        | None => (w, Throw (PlainError "Invalid URL"))
        end
    | _ => embedBatch data rest (S index) acc w
    end.
Proof.
  cbn [embedBatch]. destruct (data !! index) as [[embedding|]|]; try reflexivity.
  unfold bind. pose proof (generateVectorId_run chunk w) as Hid.
  destruct (parseURL (c_url (chunk_metadata chunk))) as [u|]; rewrite Hid; [|reflexivity].
  now rewrite vectorId_accepted.
Qed.

Lemma embedBatch_spec data batch : forall index acc w,
  embedCalls (embedBatch data batch index acc w).1 = embedCalls w
  /\ upsertCalls (embedBatch data batch index acc w).1 = upsertCalls w
  /\ match (embedBatch data batch index acc w).2 with
     | Return r =>
         exists kept new,
           r = acc ++ new
           /\ kept `sublist_of` batch
           /\ Forall2 (fun chunk e =>
                         builtFrom chunk e /\ exists j, data !! j = Some (Some (values e)))
                kept new
           /\ ((forall j, (j < length batch)%nat -> exists e, data !! (index + j)%nat = Some (Some e)) ->
               kept = batch)
     | Throw e => ~ Forall parseable batch
     | Diverge => False
     end.
Proof.
  induction batch as [|chunk rest IH]; intros index acc w.
  - simpl. split; [reflexivity|]. split; [reflexivity|].
    exists [], []. rewrite app_nil_r. repeat split; constructor.
  - rewrite embedBatch_cons.
    destruct (data !! index) as [[embedding|]|] eqn:Hd.
    + destruct (parseURL (c_url (chunk_metadata chunk))) as [u|] eqn:Hu.
      * set (e := {| vec_id := _ |}).
        destruct (IH (S index) (acc ++ [e]) (tick w)) as (Hc & Hup & Ho).
        split; [exact Hc|]. split; [exact Hup|].
        destruct (embedBatch data rest (S index) (acc ++ [e]) (tick w)).2 as [r|err|].
        -- destruct Ho as (kept & new & -> & Hsub & Hall & Hans).
           exists (chunk :: kept), (e :: new).
           split; [now rewrite <- app_assoc|].
           split; [now apply sublist_skip|].
           split.
           { constructor; [|assumption]. split; [|exists index; exact Hd].
             split; [reflexivity|]. split; [reflexivity|].
             exists u, (now (clockReads w)). auto. }
           intros Hj. f_equal. apply Hans. intros j Hlt.
           destruct (Hj (S j)) as [e' He']; [simpl; lia|].
           exists e'. rewrite <- He'. f_equal. lia.
        -- intros Hall. inversion Hall; subst. contradiction.
        -- assumption.
      * simpl. split; [reflexivity|]. split; [reflexivity|].
        intros Hall. inversion Hall as [|? ? [u Hp] _]; subst. congruence.
    + destruct (IH (S index) acc w) as (Hc & Hup & Ho).
      split; [exact Hc|]. split; [exact Hup|].
      destruct (embedBatch data rest (S index) acc w).2 as [r|err|].
      * destruct Ho as (kept & new & -> & Hsub & Hall & Hans).
        exists kept, new. split; [reflexivity|]. split; [now apply sublist_cons|].
        split; [assumption|].
        intros Hj. destruct (Hj 0%nat) as [e' He']; [simpl; lia|].
        rewrite Nat.add_0_r in He'. congruence.
      * intros Hall. inversion Hall; subst. contradiction.
      * assumption.
    + destruct (IH (S index) acc w) as (Hc & Hup & Ho).
      split; [exact Hc|]. split; [exact Hup|].
      destruct (embedBatch data rest (S index) acc w).2 as [r|err|].
      * destruct Ho as (kept & new & -> & Hsub & Hall & Hans).
        exists kept, new. split; [reflexivity|]. split; [now apply sublist_cons|].
        split; [assumption|].
        intros Hj. destruct (Hj 0%nat) as [e' He']; [simpl; lia|].
        rewrite Nat.add_0_r in He'. congruence.
      * intros Hall. inversion Hall; subst. contradiction.
      * assumption.
Qed.


(** *** The embedding loop *)

(** The world after one more embedding call. *)
Lemma embedLoop_step fuel model chunks i acc w :
  (i < length chunks)%nat ->
  let batch := take 100 (drop i chunks) in
  let w1 := {| embedCalls := embedCalls w ++ [map chunk_content batch];
               clockReads := clockReads w; upsertCalls := upsertCalls w |} in
  embedLoop (S fuel) model chunks i acc w
  = match createEmbeddings (length (embedCalls w)) model (map chunk_content batch) with
    | EmbedThrows => (w1, Throw (PlainError "embedding provider error"))
    | EmbedData data =>
        match embedBatch data batch 0 acc w1 with
        | (w2, Return acc') => embedLoop fuel model chunks (i + 100) acc' w2
        | (w2, Throw e) => (w2, Throw e)
        | (w2, Diverge) => (w2, Diverge)
        end
    end.
Proof.
  intros Hi batch w1. rewrite embedLoop_S.
  apply Nat.ltb_lt in Hi. rewrite Hi. rewrite (slice_take_drop chunks i 100).
  fold batch. unfold bind, callEmbeddings. fold w1.
  destruct (createEmbeddings _ _ _) as [|data]; [reflexivity|].
  destruct (embedBatch data batch 0 acc w1) as [w2 [acc'|e|]]; reflexivity.
Qed.

Lemma map_take_drop_prefix {A B} (f : A -> B) (xs : list A) (n : nat) :
  map f (take n xs) `prefix_of` map f xs.
Proof.
  exists (map f (drop n xs)). rewrite <- map_app. now rewrite take_drop.
Qed.

Lemma embedLoop_spec model chunks : forall fuel i acc w,
  (length chunks - i < fuel)%nat ->
  upsertCalls (embedLoop fuel model chunks i acc w).1 = upsertCalls w
  /\ exists batches,
       embedCalls (embedLoop fuel model chunks i acc w).1 = embedCalls w ++ batches
       /\ Forall isBatch batches
       /\ concat batches `prefix_of` map chunk_content (drop i chunks)
       /\ match (embedLoop fuel model chunks i acc w).2 with
          | Return r =>
              exists kept new,
                r = acc ++ new
                /\ kept `sublist_of` drop i chunks
                /\ Forall2 embeddingOf kept new
                /\ concat batches = map chunk_content (drop i chunks)
                /\ (answersAll -> kept = drop i chunks)
          | Throw e => ~ (answersAll /\ Forall parseable (drop i chunks))
          | Diverge => False
          end.
Proof.
  induction fuel as [|fuel IH]; intros i acc w Hfuel; [lia|].
  destruct (decide (i < length chunks)%nat) as [Hi|Hi].
  2:{ rewrite embedLoop_S. apply Nat.ltb_nlt in Hi as Hi'. rewrite Hi'.
      rewrite drop_ge by lia. simpl. split; [reflexivity|].
      exists []. rewrite app_nil_r. split; [reflexivity|]. split; [constructor|].
      split; [reflexivity|].
      exists [], []. rewrite app_nil_r. repeat split; constructor. }
  rewrite (embedLoop_step fuel model chunks i acc w Hi). cbv zeta.
  set (batch := take 100 (drop i chunks)).
  set (w1 := {| embedCalls := _ |}).
  assert (Hb : isBatch (map chunk_content batch)).
  { unfold isBatch. rewrite length_map. now apply isBatch_take. }
  assert (Hsplit : drop i chunks = batch ++ drop (i + 100) chunks).
  { unfold batch. rewrite <- (take_drop 100 (drop i chunks)) at 1.
    f_equal. rewrite drop_drop. reflexivity. }
  destruct (createEmbeddings (length (embedCalls w)) model (map chunk_content batch))
    as [|data] eqn:Hcall.
  - simpl. split; [reflexivity|].
    exists [map chunk_content batch]. split; [reflexivity|].
    split; [constructor; [assumption | constructor]|].
    split; [simpl; rewrite app_nil_r; apply map_take_drop_prefix|].
    intros [Hans _].
    destruct (Hans (length (embedCalls w)) model (map chunk_content batch)) as (d & Hd & _).
    congruence.
  - destruct (embedBatch_spec data batch 0%nat acc w1) as (Hc1 & Hu1 & Ho1).
    destruct (embedBatch data batch 0 acc w1) as [w2 [acc'|e|]]; cbn [fst snd] in *.
    + destruct Ho1 as (kept1 & new1 & -> & Hsub1 & Hall1 & Hans1).
      destruct (IH (i + 100)%nat (acc ++ new1) w2 ltac:(lia)) as (Hu2 & batches & Hc2 & Hb2 & Hp2 & Ho2).
      split; [rewrite Hu2, Hu1; reflexivity|].
      exists (map chunk_content batch :: batches).
      split; [rewrite Hc2, Hc1; unfold w1; cbn [embedCalls]; now rewrite <- app_assoc|].
      split; [constructor; assumption|].
      split.
      { destruct Hp2 as [k Hk]. exists k. rewrite Hsplit, map_app, Hk.
        cbn [concat]. now rewrite app_assoc. }
      destruct (embedLoop fuel model chunks (i + 100) (acc ++ new1) w2).2 as [r|e|].
      * destruct Ho2 as (kept2 & new2 & -> & Hsub2 & Hall2 & Hcat & Hans2).
        exists (kept1 ++ kept2), (new1 ++ new2).
        split; [now rewrite app_assoc|].
        split; [rewrite Hsplit; now apply sublist_app|].
        split.
        { apply Forall2_app; [|assumption].
          eapply Forall2_impl; [exact Hall1|].
          intros chunk e [Hbuilt [j Hj]]. split; [assumption|].
          exists (length (embedCalls w)), model, (map chunk_content batch), data, j. auto. }
        split; [cbn [concat]; rewrite Hcat, Hsplit, map_app; reflexivity|].
        intros Hans. rewrite Hsplit, (Hans2 Hans). f_equal. apply Hans1.
        intros j Hj.
        destruct (Hans (length (embedCalls w)) model (map chunk_content batch))
          as (d & Hd & Hall).
        assert (d = data) by congruence. subst d.
        destruct (lookup_lt_is_Some_2 (map chunk_content batch) j) as [x Hx];
          [now rewrite length_map|].
        destruct (Forall2_lookup_l _ _ _ _ _ Hall Hx) as (y & Hy & [e He]).
        exists e. simpl. rewrite Hy, He. reflexivity.
      * intros [Hans Hpar]. apply Ho2. split; [assumption|].
        rewrite Hsplit in Hpar. now apply Forall_app in Hpar as [_ Hpar].
      * assumption.
    + split; [exact Hu1|].
      exists [map chunk_content batch].
      split; [rewrite Hc1; reflexivity|].
      split; [constructor; [assumption | constructor]|].
      split; [simpl; rewrite app_nil_r; apply map_take_drop_prefix|].
      intros [_ Hpar]. apply Ho1.
      rewrite Hsplit in Hpar. now apply Forall_app in Hpar as [Hpar _].
    + destruct Ho1.
Qed.


Lemma generateEmbeddings_run chunks model w :
  upsertCalls (generateEmbeddings chunks model w).1 = upsertCalls w
  /\ exists batches,
       embedCalls (generateEmbeddings chunks model w).1 = embedCalls w ++ batches
       /\ Forall isBatch batches
       /\ concat batches `prefix_of` map chunk_content chunks
       /\ ((generateEmbeddings chunks model w).2
             = Throw (AppError "OpenAI API key is required" 500)
           /\ truthy openai_apiKey = false /\ batches = []
           \/ (generateEmbeddings chunks model w).2
               = Throw (AppError "Failed to generate embeddings" 500)
              /\ truthy openai_apiKey = true
              /\ ~ (answersAll /\ Forall parseable chunks)
           \/ exists embeddings kept,
                (generateEmbeddings chunks model w).2 = Return embeddings
                /\ truthy openai_apiKey = true
                /\ kept `sublist_of` chunks
                /\ Forall2 embeddingOf kept embeddings
                /\ concat batches = map chunk_content chunks
                /\ (answersAll -> kept = chunks)).
Proof.
  unfold generateEmbeddings, initializeOpenAI.
  destruct (truthy openai_apiKey) eqn:Hkey.
  2:{ unfold bind, throw. simpl. split; [reflexivity|].
      exists []. rewrite app_nil_r. split; [reflexivity|]. split; [constructor|].
      split; [apply prefix_nil|]. left. auto. }
  assert (Hrun : (ret tt ;;;
                  tryCatch (embedLoop (S (length chunks)) model chunks 0 [])
                    (fun _ => throw (AppError "Failed to generate embeddings" 500))) w
                 = match embedLoop (S (length chunks)) model chunks 0 [] w with
                   | (w', Throw _) => (w', Throw (AppError "Failed to generate embeddings" 500))
                   | r => r
                   end).
  { unfold bind, ret, tryCatch, throw.
    destruct (embedLoop _ _ _ _ _ _) as [w' [r|e|]]; reflexivity. }
  rewrite Hrun. clear Hrun.
  destruct (embedLoop_spec model chunks (S (length chunks)) 0%nat [] w ltac:(lia))
    as (Hu & batches & Hc & Hb & Hp & Ho).
  rewrite drop_0 in Hp, Ho.
  destruct (embedLoop (S (length chunks)) model chunks 0 [] w) as [w' [r|e|]];
    cbn [fst snd] in *.
  - split; [assumption|]. exists batches. repeat (split; [assumption|]).
    right. right. destruct Ho as (kept & new & -> & Hsub & Hall & Hcat & Hans).
    exists new, kept. simpl. repeat (split; [assumption || reflexivity|]). assumption.
  - split; [assumption|]. exists batches. repeat (split; [assumption|]).
    right. left. auto.
  - destruct Ho.
Qed.

(** X10. [generateEmbeddings] never stores anything and ends in one of three
    ways: without an API key it fails before any call; otherwise it sends the
    chunk contents to the provider in order, in batches of at most 100, and
    either fails with [Failed to generate embeddings] after some of them, or
    returns records built, in order, from chunks of the list, after all
    contents were sent. *)
Theorem generateEmbeddings_outcomes (chunks : list TextChunk) (model : string) (w : World) :
  upsertCalls (generateEmbeddings chunks model w).1 = upsertCalls w
  /\ exists batches,
       embedCalls (generateEmbeddings chunks model w).1 = embedCalls w ++ batches
       /\ Forall isBatch batches
       /\ concat batches `prefix_of` map chunk_content chunks
       /\ ((generateEmbeddings chunks model w).2
             = Throw (AppError "OpenAI API key is required" 500)
           /\ truthy openai_apiKey = false /\ batches = []
           \/ (generateEmbeddings chunks model w).2
               = Throw (AppError "Failed to generate embeddings" 500)
              /\ truthy openai_apiKey = true
           \/ exists embeddings kept,
                (generateEmbeddings chunks model w).2 = Return embeddings
                /\ truthy openai_apiKey = true
                /\ kept `sublist_of` chunks
                /\ Forall2 embeddingOf kept embeddings
                /\ concat batches = map chunk_content chunks).
Proof.
  destruct (generateEmbeddings_run chunks model w) as (Hu & batches & Hc & Hb & Hp & Ho).
  split; [assumption|]. exists batches. repeat (split; [assumption|]).
  destruct Ho as [Ho|[(Ho & Hk & _)|(embeddings & kept & Ho & Hk & Hs & Hall & Hcat & _)]].
  - now left.
  - right. left. auto.
  - right. right. exists embeddings, kept. repeat (split; [assumption|]). assumption.
Qed.

(** X11. When the API key is set, the URLs of the chunks parse and the
    provider answers every call with an array for every input, no chunk is
    lost: [generateEmbeddings] returns one record per chunk, in the order of
    the chunks, each with the metadata of its chunk and an id made from its
    URL and index, and the contents it sent, batch after batch, are the
    contents of all chunks. *)
Theorem generateEmbeddings_complete (chunks : list TextChunk) (model : string) (w : World) :
  truthy openai_apiKey = true ->
  Forall parseable chunks ->
  answersAll ->
  exists embeddings batches,
    (generateEmbeddings chunks model w).2 = Return embeddings
    /\ Forall2 embeddingOf chunks embeddings
    /\ embedCalls (generateEmbeddings chunks model w).1 = embedCalls w ++ batches
    /\ concat batches = map chunk_content chunks
    /\ Forall isBatch batches.
Proof.
  intros Hkey Hpar Hans.
  destruct (generateEmbeddings_run chunks model w) as (_ & batches & Hc & Hb & _ & Ho).
  destruct Ho as [(_ & Hk & _)|[(_ & _ & Hno)|(embeddings & kept & Ho & _ & _ & Hall & Hcat & Hkept)]].
  - congruence.
  - destruct Hno. auto.
  - exists embeddings, batches. rewrite (Hkept Hans) in Hall.
    repeat (split; [assumption|]). assumption.
Qed.

(** X12. The records that [generateEmbeddings] returns are fit for the
    index: an id is never empty, has at most 512 code units and only letters,
    digits, [_] and [-] (so the test that would drop a chunk for its id never
    fires), and the content kept in the metadata has at most 40,000 code
    units. *)
Theorem embeddings_fit_the_index (chunks : list TextChunk) (model : string) (w : World)
    (embeddings : list VectorEmbedding) :
  (generateEmbeddings chunks model w).2 = Return embeddings ->
  Forall (fun e =>
            vec_id e <> ""
            /\ Z.of_nat (String.length (vec_id e)) <= 512
            /\ allChars is_idChar (vec_id e)
            /\ Z.of_nat (String.length (vec_content e)) <= 40000
            /\ exists chunk, chunk ∈ chunks /\ vec_metadata e = chunk_metadata chunk)
    embeddings.
Proof.
  intros Hr.
  destruct (generateEmbeddings_run chunks model w) as (_ & batches & _ & _ & _ & Ho).
  destruct Ho as [(Ho & _)|[(Ho & _)|(embeddings' & kept & Ho & _ & Hsub & Hall & _)]];
    try congruence.
  assert (embeddings' = embeddings) by congruence. subst embeddings'.
  apply Forall_forall. intros e He.
  apply list_elem_of_lookup in He as [i He].
  destruct (Forall2_lookup_r _ _ _ _ _ Hall He)
    as (chunk & Hchunk & (Hmeta & Hcontent & u & time & _ & Hid) & _).
  destruct (vectorIdOf_format u (chunkIndex (chunk_metadata chunk)) time) as (Hne & Hlen & Hchars).
  rewrite Hid. split; [assumption|]. split; [assumption|]. split; [assumption|].
  split; [rewrite Hcontent; apply length_substring0; lia|].
  exists chunk. split; [|assumption].
  apply list_elem_of_lookup_2 in Hchunk. eapply elem_of_sublist; eassumption.
Qed.

(** *** The storing loop *)

Lemma storeLoop_step fuel embeddings indexName namespace i w :
  (i < length embeddings)%nat ->
  let batch := take 100 (drop i embeddings) in
  let ns := ns ← namespace; optString ns in
  let w1 := {| embedCalls := embedCalls w; clockReads := clockReads w;
               upsertCalls := upsertCalls w ++ [(indexName, ns, batch)] |} in
  storeLoop (S fuel) embeddings indexName namespace i w
  = if forallb validVector batch then
      if upsert (length (upsertCalls w)) indexName ns batch
      then storeLoop fuel embeddings indexName namespace (i + 100) w1
      else (w1, Throw (PlainError "index provider error"))
    else (w, Throw (AppError "Invalid vector format" 400)).
Proof.
  intros Hi batch ns w1. cbn [storeLoop].
  apply Nat.ltb_lt in Hi. rewrite Hi. rewrite (slice_take_drop embeddings i 100).
  fold batch. destruct (forallb validVector batch); [|reflexivity].
  unfold bind, callUpsert. fold ns. fold w1.
  destruct (upsert _ _ _ _); reflexivity.
Qed.

Lemma storeLoop_spec embeddings indexName namespace : forall fuel i w,
  (length embeddings - i < fuel)%nat ->
  let ns := ns ← namespace; optString ns in
  embedCalls (storeLoop fuel embeddings indexName namespace i w).1 = embedCalls w
  /\ exists batches,
       upsertCalls (storeLoop fuel embeddings indexName namespace i w).1
       = upsertCalls w ++ map (fun b => (indexName, ns, b)) batches
       /\ Forall isBatch batches
       /\ concat batches `prefix_of` drop i embeddings
       /\ (forall k b, batches !! k = Some b -> (S k < length batches)%nat ->
             upsert (length (upsertCalls w) + k) indexName ns b = true)
       /\ match (storeLoop fuel embeddings indexName namespace i w).2 with
          | Return _ =>
              concat batches = drop i embeddings
              /\ forall k b, batches !! k = Some b ->
                   upsert (length (upsertCalls w) + k) indexName ns b = true
          | Throw e =>
              ~ (acceptsAll /\ Forall (fun v => validVector v = true) (drop i embeddings))
          | Diverge => False
          end.
Proof.
  induction fuel as [|fuel IH]; intros i w Hfuel ns; [lia|].
  destruct (decide (i < length embeddings)%nat) as [Hi|Hi].
  2:{ cbn [storeLoop]. apply Nat.ltb_nlt in Hi as Hi'. rewrite Hi'.
      rewrite drop_ge by lia. simpl. split; [reflexivity|].
      exists []. simpl. rewrite app_nil_r. split; [reflexivity|]. split; [constructor|].
      split; [reflexivity|].
      split; [intros k b Hk; inversion Hk|].
      split; [reflexivity | intros k b Hk; inversion Hk]. }
  rewrite (storeLoop_step fuel embeddings indexName namespace i w Hi). cbv zeta.
  fold ns. set (batch := take 100 (drop i embeddings)).
  set (w1 := {| embedCalls := _ |}).
  assert (Hb : isBatch batch) by now apply isBatch_take.
  assert (Hsplit : drop i embeddings = batch ++ drop (i + 100) embeddings).
  { unfold batch. rewrite <- (take_drop 100 (drop i embeddings)) at 1.
    f_equal. rewrite drop_drop. reflexivity. }
  destruct (forallb validVector batch) eqn:Hvalid.
  2:{ simpl. split; [reflexivity|].
      exists []. simpl. rewrite app_nil_r. split; [reflexivity|]. split; [constructor|].
      split; [apply prefix_nil|].
      split; [intros k b Hk; inversion Hk|].
      intros [_ Hall]. rewrite Hsplit in Hall. apply Forall_app in Hall as [Hall _].
      assert (forallb validVector batch = true); [|congruence].
      apply forallb_forall. intros v Hv. rewrite Forall_forall in Hall.
      apply Hall, list_elem_of_In, Hv. }
  destruct (upsert (length (upsertCalls w)) indexName ns batch) eqn:Hup.
  2:{ simpl. split; [reflexivity|].
      exists [batch]. split; [reflexivity|].
      split; [constructor; [assumption | constructor]|].
      split; [simpl; rewrite app_nil_r; exists (drop (i + 100) embeddings); exact Hsplit|].
      split; [intros k b Hk Hlt; simpl in Hlt; lia|].
      intros [Hacc _]. rewrite Hacc in Hup. discriminate. }
  destruct (IH (i + 100)%nat w1 ltac:(lia)) as (Hc & batches & Hu & Hbs & Hp & Hacc & Ho).
  fold ns in Hu, Hacc, Ho.
  assert (Hlen : length (upsertCalls w1) = S (length (upsertCalls w))).
  { unfold w1. cbn [upsertCalls]. rewrite length_app. simpl. lia. }
  assert (Hshift : forall k b,
             (batch :: batches) !! k = Some b ->
             (k = 0%nat /\ b = batch)
             \/ exists k', k = S k' /\ batches !! k' = Some b).
  { intros [|k'] b Hk; simpl in Hk; [left; split; congruence | right; eauto]. }
  split; [exact Hc|].
  exists (batch :: batches).
  split; [rewrite Hu; unfold w1; cbn [upsertCalls map]; now rewrite <- app_assoc|].
  split; [constructor; assumption|].
  split.
  { destruct Hp as [k Hk]. exists k. rewrite Hsplit, Hk. cbn [concat].
    now rewrite app_assoc. }
  split.
  { intros k b Hk Hlt. destruct (Hshift k b Hk) as [[-> ->]|(k' & -> & Hk')].
    - rewrite Nat.add_0_r. exact Hup.
    - replace (length (upsertCalls w) + S k')%nat with (length (upsertCalls w1) + k')%nat
        by lia.
      apply Hacc; [assumption | simpl in Hlt; lia]. }
  destruct (storeLoop fuel embeddings indexName namespace (i + 100) w1).2 as [r|e|].
  - destruct Ho as [Hcat Hall]. split.
    + cbn [concat]. now rewrite Hcat, Hsplit.
    + intros k b Hk. destruct (Hshift k b Hk) as [[-> ->]|(k' & -> & Hk')].
      * rewrite Nat.add_0_r. exact Hup.
      * replace (length (upsertCalls w) + S k')%nat with (length (upsertCalls w1) + k')%nat
          by lia.
        now apply Hall.
  - intros [Ha Hall]. apply Ho. split; [assumption|].
    rewrite Hsplit in Hall. now apply Forall_app in Hall as [_ Hall].
  - assumption.
Qed.


Lemma storeVectors_run embeddings indexName namespace w :
  let ns := ns ← namespace; optString ns in
  embedCalls (storeVectors embeddings indexName namespace w).1 = embedCalls w
  /\ exists batches,
       upsertCalls (storeVectors embeddings indexName namespace w).1
       = upsertCalls w ++ map (fun b => (indexName, ns, b)) batches
       /\ Forall isBatch batches
       /\ concat batches `prefix_of` embeddings
       /\ (forall k b, batches !! k = Some b -> (S k < length batches)%nat ->
             upsert (length (upsertCalls w) + k) indexName ns b = true)
       /\ ((storeVectors embeddings indexName namespace w).2 = Return tt
           /\ truthy pinecone_apiKey = true
           /\ concat batches = embeddings
           /\ (forall k b, batches !! k = Some b ->
                 upsert (length (upsertCalls w) + k) indexName ns b = true)
           \/ (storeVectors embeddings indexName namespace w).2
               = Throw (AppError "Pinecone API key is required" 500)
              /\ truthy pinecone_apiKey = false /\ batches = []
           \/ (storeVectors embeddings indexName namespace w).2
               = Throw (AppError "Failed to store vectors in Pinecone" 500)
              /\ truthy pinecone_apiKey = true
              /\ ~ (acceptsAll /\ Forall (fun v => validVector v = true) embeddings)).
Proof.
  intros ns. unfold storeVectors, initializePinecone.
  destruct (truthy pinecone_apiKey) eqn:Hkey.
  2:{ unfold bind, throw. simpl. split; [reflexivity|].
      exists []. simpl. rewrite app_nil_r. split; [reflexivity|]. split; [constructor|].
      split; [apply prefix_nil|].
      split; [intros k b Hk; inversion Hk|].
      right. left. auto. }
  assert (Hrun : (ret tt ;;;
                  tryCatch (storeLoop (S (length embeddings)) embeddings indexName namespace 0)
                    (fun _ => throw (AppError "Failed to store vectors in Pinecone" 500))) w
                 = match storeLoop (S (length embeddings)) embeddings indexName namespace 0 w
                   with
                   | (w', Throw _) =>
                       (w', Throw (AppError "Failed to store vectors in Pinecone" 500))
                   | r => r
                   end).
  { unfold bind, ret, tryCatch, throw.
    destruct (storeLoop _ _ _ _ _ _) as [w' [r|e|]]; reflexivity. }
  rewrite Hrun. clear Hrun.
  destruct (storeLoop_spec embeddings indexName namespace (S (length embeddings)) 0%nat w
              ltac:(lia)) as (Hc & batches & Hu & Hb & Hp & Hacc & Ho).
  fold ns in Hu, Hacc, Ho. rewrite drop_0 in Hp, Ho.
  destruct (storeLoop (S (length embeddings)) embeddings indexName namespace 0 w)
    as [w' [[]|e|]]; cbn [fst snd] in *.
  - split; [assumption|]. exists batches. repeat (split; [assumption|]).
    left. destruct Ho. auto.
  - split; [assumption|]. exists batches. repeat (split; [assumption|]).
    right. right. auto.
  - destruct Ho.
Qed.


(** *** From pages to stored vectors *)

Lemma processIntoChunks_unparseable fuel pages chunkSize chunkOverlap :
  Forall (fun page => parseURL (url page) = None) pages ->
  processIntoChunks fuel pages chunkSize chunkOverlap = Some [].
Proof.
  induction 1 as [|page pages Hp _ IH]; simpl; [reflexivity|]. now rewrite Hp.
Qed.

Lemma processIntoChunks_diverges fuel pages chunkSize chunkOverlap :
  chunkSize <= chunkOverlap ->
  Exists (fun page => is_Some (parseURL (url page))) pages ->
  processIntoChunks fuel pages chunkSize chunkOverlap = None.
Proof.
  intros Hstep. induction 1 as [page pages [u Hu]|page pages _ IH]; simpl.
  - rewrite Hu. now rewrite chunkText_diverges.
  - destruct (parseURL (url page)); [|exact IH].
    rewrite chunkText_diverges by assumption. reflexivity.
Qed.

(** X14. Without a page whose URL parses (in particular without pages)
    [crawlAndStore] fails with [No text chunks generated from crawled pages],
    status 400, before any call to a provider. *)
Theorem crawlAndStore_without_chunks (fuel : nat) (pages : list CrawledPage)
    (request : VectorCrawlRequest) (w : World) :
  Forall (fun page => parseURL (url page) = None) pages ->
  crawlAndStore fuel pages request w
  = (w, Throw (AppError "No text chunks generated from crawled pages" 400)).
Proof.
  intros Hall. unfold crawlAndStore, tryCatch, crawlAndStoreBody.
  rewrite (processIntoChunks_unparseable _ _ _ _ Hall). reflexivity.
Qed.

(** X15. A chunk size that is not above the overlap hangs the service: with
    [chunkSize || 1000] at or below [chunkOverlap || 200] (a chunk size of
    150 with the overlap left out, say) and a page whose URL parses,
    [crawlAndStore] does not return, whatever the fuel, and no provider is
    called. *)
Theorem crawlAndStore_hangs_on_small_chunks (fuel : nat) (pages : list CrawledPage)
    (request : VectorCrawlRequest) (w : World) :
  numOr (req_chunkSize request) (chunkSize defaultConfig)
  <= numOr (req_chunkOverlap request) (chunkOverlap defaultConfig) ->
  Exists (fun page => is_Some (parseURL (url page))) pages ->
  crawlAndStore fuel pages request w = (w, Diverge).
Proof.
  intros Hstep Hex. unfold crawlAndStore, tryCatch, crawlAndStoreBody.
  rewrite (processIntoChunks_diverges _ _ _ _ Hstep Hex). reflexivity.
Qed.


Lemma hostnames_None (ps : list CrawledPage) :
  hostnames ps = None -> Exists (fun page => parseURL (url page) = None) ps.
Proof.
  unfold hostnames. intros Hn. apply mapM_None in Hn.
  apply Exists_exists in Hn as (p & Hin & Hp). apply Exists_exists. exists p.
  split; [assumption|]. destruct (parseURL (url p)); [discriminate | reflexivity].
Qed.

Lemma hostnames_Some_inv (ps : list CrawledPage) (hosts : list string) :
  hostnames ps = Some hosts -> Forall (fun page => is_Some (parseURL (url page))) ps.
Proof.
  unfold hostnames. intros Hs. apply mapM_Some in Hs.
  induction Hs as [|p h ps hs Hp _ IH]; constructor; [|assumption].
  destruct (parseURL (url p)); [eauto | discriminate].
Qed.

Lemma crawlAndStore_run (fuel : nat) (pages : list CrawledPage)
    (request : VectorCrawlRequest) (w : World) (chunks : list TextChunk) :
  processIntoChunks fuel pages
    (numOr (req_chunkSize request) (chunkSize defaultConfig))
    (numOr (req_chunkOverlap request) (chunkOverlap defaultConfig)) = Some chunks ->
  chunks <> [] ->
  let run := crawlAndStore fuel pages request w in
  let index := strOr (indexName request) pinecone_indexName in
  let ns := ns ← namespace request; optString ns in
  exists sent stored,
    embedCalls run.1 = embedCalls w ++ sent
    /\ upsertCalls run.1 = upsertCalls w ++ map (fun b => (index, ns, b)) stored
    /\ concat sent `prefix_of` map chunk_content chunks
    /\ Forall isBatch stored
    /\ (run.2 = Throw (AppError "OpenAI API key is required" 500)
          /\ sent = [] /\ stored = [] /\ truthy openai_apiKey = false
        \/ run.2 = Throw (AppError "Failed to generate embeddings" 500) /\ stored = []
           /\ ~ (answersAll /\ Forall parseable chunks)
        \/ run.2 = Throw (AppError "No embeddings generated" 500) /\ stored = []
           /\ ~ answersAll
        \/ run.2 = Throw (AppError "Pinecone API key is required" 500) /\ stored = []
           /\ truthy pinecone_apiKey = false
        \/ run.2 = Throw (AppError "Failed to store vectors in Pinecone" 500)
           /\ (exists embeddings kept,
                 kept `sublist_of` chunks
                 /\ Forall2 embeddingOf kept embeddings
                 /\ ~ (acceptsAll /\ Forall (fun v => validVector v = true) embeddings))
        \/ run.2 = Throw (AppError "Failed to process and store vectors" 500)
           /\ Exists (fun page => parseURL (url page) = None) pages
           /\ stored <> []
        \/ exists result kept,
             run.2 = Return result
             /\ vs_success result = true
             /\ vs_indexName result = index
             /\ concat sent = map chunk_content chunks
             /\ kept `sublist_of` chunks
             /\ Forall2 embeddingOf kept (concat stored)
             /\ vectorsStored result = Z.of_nat (length (concat stored))
             /\ vs_totalChunks result = Z.of_nat (length chunks)
             /\ 1 <= vectorsStored result <= vs_totalChunks result
             /\ Forall (fun page => is_Some (parseURL (url page))) pages
             /\ (answersAll -> kept = chunks)).
Proof.
  intros Hchunks Hne run index ns. subst run.
  unfold crawlAndStore, tryCatch, crawlAndStoreBody.
  rewrite Hchunks. unfold lift, bind, ret, throw.
  destruct chunks as [|c0 chunks0] eqn:Echunks; [congruence|].
  change (length (c0 :: chunks0) =? 0)%nat with false. cbv beta iota.
  rewrite <- Echunks in *.
  destruct (generateEmbeddings_run chunks (embeddingModel defaultConfig) w)
    as (Hu1 & sent & Hc1 & _ & Hp1 & Ho1).
  destruct (generateEmbeddings chunks (embeddingModel defaultConfig) w)
    as [w1 [embeddings|e|]]; cbn [fst snd] in *.
  - destruct Ho1 as [(Ho1 & _)|[(Ho1 & _)|(embeddings' & kept & Ho1 & _ & Hsub & Hall & Hcat & Hans)]];
      try discriminate.
    injection Ho1 as <-.
    destruct embeddings as [|e0 es] eqn:Eemb.
    { cbn [length Nat.eqb fst snd]. exists sent, []. simpl. rewrite app_nil_r.
      split; [assumption|]. split; [assumption|]. split; [assumption|].
      split; [constructor|].
      right. right. left. split; [reflexivity|]. split; [reflexivity|].
      intros Hall'. apply Hans in Hall'. subst kept.
      apply Forall2_length in Hall. rewrite Echunks in Hall. discriminate. }
    change (length (e0 :: es) =? 0)%nat with false. cbv beta iota.
    rewrite <- Eemb in *.
    fold index.
    destruct (storeVectors_run embeddings index (namespace request) w1)
      as (Hc2 & stored & Hu2 & Hb2 & Hp2 & _ & Ho2).
    fold ns in Hu2.
    destruct (storeVectors embeddings index (namespace request) w1) as [w2 [[]|e|]];
      cbn [fst snd] in *.
    + destruct Ho2 as [(_ & _ & Hstored & _)|[(Ho2 & _)|(Ho2 & _)]]; try discriminate.
      assert (Hs : stored <> []).
      { intros ->. simpl in Hstored. rewrite <- Hstored in Eemb. discriminate. }
      destruct (hostnames pages) as [hosts|] eqn:Eh; cbn [fst snd].
      * exists sent, stored.
        split; [rewrite Hc2; exact Hc1|]. split; [rewrite Hu2, Hu1; reflexivity|].
        split; [assumption|]. split; [assumption|].
        do 6 right. eexists. exists kept.
        split; [reflexivity|]. cbn [vs_success vs_indexName vectorsStored vs_totalChunks].
        split; [reflexivity|]. split; [reflexivity|]. split; [assumption|].
        split; [assumption|]. rewrite Hstored.
        split; [assumption|]. split; [reflexivity|]. split; [reflexivity|].
        split; [|split; [now apply hostnames_Some_inv in Eh | exact Hans]].
        apply sublist_length in Hsub. apply Forall2_length in Hall.
        rewrite Eemb at 1. cbn [length]. lia.
      * exists sent, stored.
        split; [rewrite Hc2; exact Hc1|]. split; [rewrite Hu2, Hu1; reflexivity|].
        split; [assumption|]. split; [assumption|].
        do 5 right. left. split; [reflexivity|]. split; [now apply hostnames_None|].
        assumption.
    + destruct Ho2 as [(Ho2 & _)|[(Ho2 & Hkey & Hst)|(Ho2 & _ & Hno)]]; try discriminate;
        injection Ho2 as ->; cbn [fst snd]; exists sent, stored;
        (split; [rewrite Hc2; exact Hc1|]); (split; [rewrite Hu2, Hu1; reflexivity|]);
        (split; [assumption|]); (split; [assumption|]).
      * do 3 right. left. auto.
      * do 4 right. left. split; [reflexivity|]. exists embeddings, kept. auto.
    + destruct Ho2 as [(Ho2 & _)|[(Ho2 & _)|(Ho2 & _)]]; discriminate.
  - destruct Ho1 as [(Ho1 & Hkey & Hsent)|[(Ho1 & _ & Hno)|(? & ? & Ho1 & _)]];
      try discriminate;
      injection Ho1 as ->; cbn [fst snd]; exists sent, []; simpl; rewrite app_nil_r;
      (split; [assumption|]); (split; [assumption|]); (split; [assumption|]);
      (split; [constructor|]).
    + left. auto.
    + right. left. auto.
  - destruct Ho1 as [(Ho1 & _)|[(Ho1 & _)|(? & ? & Ho1 & _)]]; discriminate.
Qed.


Lemma processIntoChunks_parseable fuel pages chunkSize chunkOverlap : forall chunks,
  processIntoChunks fuel pages chunkSize chunkOverlap = Some chunks ->
  Forall parseable chunks.
Proof.
  induction pages as [|page pages IH]; intros chunks Hp; simpl in Hp.
  - injection Hp as <-. constructor.
  - destruct (parseURL (url page)) as [u|] eqn:Hu; [|now apply IH].
    destruct (chunkText fuel (fullText page) chunkSize chunkOverlap) as [pc|];
      [|discriminate].
    destruct (processIntoChunks fuel pages chunkSize chunkOverlap) as [rest|]; [|discriminate].
    injection Hp as <-. apply Forall_app. split; [|now apply IH].
    apply Forall_forall. intros c Hc. unfold pageChunksOf in Hc.
    apply elem_of_lookup_imap_1 in Hc as (i & x & -> & _).
    unfold parseable. cbn [chunk_metadata c_url]. rewrite Hu. eauto.
Qed.

(** X17. When nothing goes wrong, everything is stored. With both keys set,
    pages whose URLs parse, an embedding provider that answers every input
    with an array that is not empty and an index that accepts every batch,
    [crawlAndStore] returns, [vectorsStored] equals [totalChunks], and the
    records sent to the index, batch after batch, are one record per chunk,
    in the order of the chunks. *)
Theorem crawlAndStore_complete (fuel : nat) (pages : list CrawledPage)
    (request : VectorCrawlRequest) (w : World) (chunks : list TextChunk) :
  truthy openai_apiKey = true ->
  truthy pinecone_apiKey = true ->
  answersAll -> nonEmptyArrays -> acceptsAll ->
  Forall (fun page => is_Some (parseURL (url page))) pages ->
  processIntoChunks fuel pages
    (numOr (req_chunkSize request) (chunkSize defaultConfig))
    (numOr (req_chunkOverlap request) (chunkOverlap defaultConfig)) = Some chunks ->
  chunks <> [] ->
  let run := crawlAndStore fuel pages request w in
  let index := strOr (indexName request) pinecone_indexName in
  let ns := ns ← namespace request; optString ns in
  exists result stored,
    run.2 = Return result
    /\ vectorsStored result = vs_totalChunks result
    /\ vs_totalChunks result = Z.of_nat (length chunks)
    /\ upsertCalls run.1 = upsertCalls w ++ map (fun b => (index, ns, b)) stored
    /\ Forall isBatch stored
    /\ Forall2 embeddingOf chunks (concat stored).
Proof.
  intros Hkey1 Hkey2 Hans Hne Hacc Hpages Hchunks Hnil run index ns.
  pose proof (processIntoChunks_parseable _ _ _ _ _ Hchunks) as Hpar.
  destruct (crawlAndStore_run fuel pages request w chunks Hchunks Hnil)
    as (sent & stored & _ & Hu & _ & Hb & Ho).
  destruct Ho as [(_ & _ & _ & Hk)|[(_ & _ & Hno)|[(_ & _ & Hno)|[(_ & _ & Hk)
                 |[(_ & embeddings & kept & _ & Hall & Hno)|[(_ & Hex & _)
                 |(result & kept & Ho & _ & _ & _ & _ & Hall & Hv & Ht & _ & _ & Hkept)]]]]]].
  - congruence.
  - destruct Hno. auto.
  - contradiction.
  - congruence.
  - destruct Hno. split; [assumption|].
    apply Forall_forall. intros e He.
    apply list_elem_of_lookup in He as [i He].
    destruct (Forall2_lookup_r _ _ _ _ _ Hall He)
      as (chunk & _ & (_ & _ & u & time & _ & Hid) & Hvalues).
    unfold validVector. apply andb_true_iff. split.
    + destruct (vectorIdOf_format u (chunkIndex (chunk_metadata chunk)) time) as (Hid' & _).
      rewrite Hid. destruct (vectorIdOf u _ time); [congruence | reflexivity].
    + apply Hne in Hvalues. destruct (values e); [congruence | reflexivity].
  - exfalso. apply Exists_exists in Hex as (page & Hin & Hp).
    rewrite Forall_forall in Hpages. destruct (Hpages page Hin) as [u Hparse]. congruence.
  - exists result, stored. rewrite (Hkept Hans) in Hall.
    split; [exact Ho|]. split.
    { rewrite Hv, Ht. f_equal. apply Forall2_length in Hall. now rewrite Hall. }
    split; [exact Ht|]. split; [exact Hu|]. split; [exact Hb | exact Hall].
Qed.

End WithProviders.

Lemma embedsAll_answersAll : @answersAll Fixture.embedsAll.
Proof.
  intros k model input. eexists. split; [reflexivity|].
  induction input as [|x input IH]; simpl; constructor; [eauto | exact IH].
Qed.

Lemma guideChunks_parseable : Forall (@parseable Fixture.httpsUrls) Samples.guideChunks.
Proof. repeat constructor; eexists; vm_compute; reflexivity. Qed.

Lemma generateEmbeddings_outcomes_witness :
  let run := @generateEmbeddings Fixture.httpsUrls Fixture.appConfig
               Fixture.failsOnSecondCall Fixture.ticking
               (Samples.guideChunks ++ Samples.guideChunks) "text-embedding-3-small"
               emptyWorld in
  upsertCalls run.1 = []
  /\ exists batches,
       embedCalls run.1 = [] ++ batches
       /\ Forall isBatch batches
       /\ concat batches
          `prefix_of` map chunk_content (Samples.guideChunks ++ Samples.guideChunks).
Proof.
  intros run.
  destruct (@generateEmbeddings_outcomes Fixture.httpsUrls Fixture.appConfig
              Fixture.failsOnSecondCall Fixture.ticking
              (Samples.guideChunks ++ Samples.guideChunks) "text-embedding-3-small"
              emptyWorld) as (Hu & batches & Hc & Hb & Hp & _).
  split; [exact Hu|]. exists batches. split; [exact Hc|]. split; [exact Hb | exact Hp].
Defined.


Lemma generateEmbeddings_complete_witness :
  exists embeddings batches,
    (@generateEmbeddings Fixture.httpsUrls Fixture.appConfig Fixture.embedsAll Fixture.ticking
       Samples.guideChunks "text-embedding-3-small" emptyWorld).2 = Return embeddings
    /\ Forall2 (@embeddingOf Fixture.httpsUrls Fixture.embedsAll) Samples.guideChunks embeddings
    /\ embedCalls
         (@generateEmbeddings Fixture.httpsUrls Fixture.appConfig Fixture.embedsAll
            Fixture.ticking Samples.guideChunks "text-embedding-3-small" emptyWorld).1
       = [] ++ batches
    /\ concat batches = map chunk_content Samples.guideChunks
    /\ Forall isBatch batches.
Proof.
  exact (@generateEmbeddings_complete Fixture.httpsUrls Fixture.appConfig Fixture.embedsAll
           Fixture.ticking Samples.guideChunks "text-embedding-3-small" emptyWorld
           eq_refl guideChunks_parseable embedsAll_answersAll).
Defined.

Lemma embeddings_fit_the_index_witness :
  exists embeddings,
    (@generateEmbeddings Fixture.httpsUrls Fixture.appConfig Fixture.embedsAll Fixture.ticking
       Samples.guideChunks "text-embedding-3-small" emptyWorld).2 = Return embeddings
    /\ map vec_id embeddings
       = ["docs_example_com_guide_chunk_0_41600123"; "docs_example_com_guide_chunk_0_41600124"]
    /\ Forall (fun e => Z.of_nat (String.length (vec_id e)) <= 512) embeddings.
Proof.
  destruct (@generateEmbeddings Fixture.httpsUrls Fixture.appConfig Fixture.embedsAll
              Fixture.ticking Samples.guideChunks "text-embedding-3-small" emptyWorld)
    as [w' o] eqn:E.
  destruct o as [embeddings|e|]; [|vm_compute in E; discriminate..].
  pose proof (@embeddings_fit_the_index Fixture.httpsUrls Fixture.appConfig
                Fixture.embedsAll Fixture.ticking Samples.guideChunks
                "text-embedding-3-small" emptyWorld embeddings) as Hfit.
  rewrite E in Hfit. specialize (Hfit eq_refl).
  exists embeddings. split; [reflexivity|].
  split; [vm_compute in E; injection E as _ <-; reflexivity|].
  eapply Forall_impl; [exact Hfit|]. intros e (_ & Hlen & _). exact Hlen.
Defined.

Lemma crawlAndStore_without_chunks_witness :
  @crawlAndStore Fixture.httpsUrls Fixture.appConfig Fixture.embedsAll Fixture.storesAll
    Fixture.ticking 10 [Samples.strayPage] (Fixture.storeRequest 1000 200) emptyWorld
  = (emptyWorld, Throw (AppError "No text chunks generated from crawled pages" 400)).
Proof.
  apply (@crawlAndStore_without_chunks Fixture.httpsUrls Fixture.appConfig Fixture.embedsAll
           Fixture.storesAll Fixture.ticking).
  constructor; [reflexivity | constructor].
Defined.

Lemma crawlAndStore_hangs_on_small_chunks_witness :
  @crawlAndStore Fixture.httpsUrls Fixture.appConfig Fixture.embedsAll Fixture.storesAll
    Fixture.ticking 1000 Fixture.guidePages Samples.smallChunks emptyWorld
  = (emptyWorld, Diverge).
Proof.
  apply (@crawlAndStore_hangs_on_small_chunks Fixture.httpsUrls Fixture.appConfig
           Fixture.embedsAll Fixture.storesAll Fixture.ticking).
  - vm_compute. discriminate.
  - apply Exists_cons_hd. eexists. vm_compute. reflexivity.
Defined.

Lemma embedsAll_nonEmptyArrays : @nonEmptyArrays Fixture.embedsAll.
Proof.
  intros values (k & model & input & data & j & Hcall & Hj).
  simpl in Hcall. injection Hcall as <-.
  change (map ?f input) with (f <$> input) in Hj. rewrite list_lookup_fmap in Hj.
  destruct (input !! j); simpl in Hj; [|discriminate].
  injection Hj as <-. discriminate.
Qed.

Lemma storesAll_acceptsAll : @acceptsAll Fixture.storesAll.
Proof. intros k indexName namespace batch. reflexivity. Qed.

Lemma crawlAndStore_complete_witness :
  let run := @crawlAndStore Fixture.httpsUrls Fixture.appConfig Fixture.embedsAll
               Fixture.storesAll Fixture.ticking 10 Fixture.guidePages
               (Fixture.storeRequest 1000 200) emptyWorld in
  exists result stored,
    run.2 = Return result
    /\ vectorsStored result = vs_totalChunks result
    /\ vs_totalChunks result = 2
    /\ upsertCalls run.1 = [] ++ map (fun b => ("docs", Some "docs", b)) stored
    /\ Forall isBatch stored
    /\ Forall2 (@embeddingOf Fixture.httpsUrls Fixture.embedsAll) Samples.guideChunks
         (concat stored).
Proof.
  apply (@crawlAndStore_complete Fixture.httpsUrls Fixture.appConfig Fixture.embedsAll
           Fixture.storesAll Fixture.ticking 10 Fixture.guidePages
           (Fixture.storeRequest 1000 200) emptyWorld Samples.guideChunks).
  - reflexivity.
  - reflexivity.
  - exact embedsAll_answersAll.
  - exact embedsAll_nonEmptyArrays.
  - exact storesAll_acceptsAll.
  - repeat constructor; eexists; vm_compute; reflexivity.
  - vm_compute. reflexivity.
  - vm_compute. discriminate.
Defined.


End VectorRunFacts.

(** ** The outcomes of an answer *)

Module RAGOutcomeFacts.

Import JS RAG.

Section WithProviders.
Context `{Providers}.

Lemma performVectorSearch_throws (request : RAGSearchRequest) (e : Exn) :
  performVectorSearch request = Throw e ->
  e = AppError "Failed to perform vector search" 500.
Proof.
  unfold performVectorSearch. destruct (searchBody request); congruence.
Qed.

Lemma performVectorSearch_returns_or_throws (request : RAGSearchRequest) :
  performVectorSearch request <> Diverge.
Proof.
  unfold performVectorSearch, searchBody, generateQueryEmbedding.
  destruct (queryEmbedding (query request)); [|discriminate].
  destruct (runQuery request l) as [|[ms|]]; discriminate.
Qed.

(** X18. Every way [generateRAGAnswer] can end. A failed search (no query
    embedding, a failing index, a response without a match list) ends in
    [Failed to perform vector search], status 500; an empty match list in a
    404, [No relevant information found in the knowledge base]; matches of
    which none has content in another 404, [No usable content found in search
    results]. Otherwise the completion provider is asked once, with a context
    made of the matches that have content, numbered from 1 in their order: a
    non-empty content is the answer, anything else ends in [Failed to generate
    intelligent response], status 500. *)
Theorem generateRAGAnswer_outcomes (request : RAGQueryRequest) :
  generateRAGAnswer request <> Diverge
  /\ (queryEmbedding (query request) = None ->
      generateRAGAnswer request = Throw (AppError "Failed to perform vector search" 500))
  /\ (forall e,
        performVectorSearch (searchRequestOf request) = Throw e ->
        generateRAGAnswer request = Throw (AppError "Failed to perform vector search" 500))
  /\ (forall searchResponse,
        performVectorSearch (searchRequestOf request) = Return searchResponse ->
        let used := usedMatches (matches searchResponse) in
        let context := join separator (imap contextPart used) in
        (matches searchResponse = [] ->
         generateRAGAnswer request
         = Throw (AppError "No relevant information found in the knowledge base" 404))
        /\ (matches searchResponse <> [] -> used = [] ->
            generateRAGAnswer request
            = Throw (AppError "No usable content found in search results" 404))
        /\ (used <> [] ->
            match complete systemPrompt (userPrompt (query request) context) with
            | CompletionContent (Some (String c s)) =>
                exists r,
                  generateRAGAnswer request = Return r
                  /\ answer r = String c s
                  /\ r_query r = query request
                  /\ r_namespace r = namespace request
            | _ =>
                generateRAGAnswer request
                = Throw (AppError "Failed to generate intelligent response" 500)
            end)).
Proof.
  assert (Hsearch : forall e,
             performVectorSearch (searchRequestOf request) = Throw e ->
             generateRAGAnswer request
             = Throw (AppError "Failed to perform vector search" 500)).
  { intros e He. pose proof (performVectorSearch_throws _ _ He) as ->.
    unfold generateRAGAnswer, answerBody. rewrite He. reflexivity. }
  assert (Hret : forall searchResponse,
        performVectorSearch (searchRequestOf request) = Return searchResponse ->
        let used := usedMatches (matches searchResponse) in
        let context := join separator (imap contextPart used) in
        (matches searchResponse = [] ->
         generateRAGAnswer request
         = Throw (AppError "No relevant information found in the knowledge base" 404))
        /\ (matches searchResponse <> [] -> used = [] ->
            generateRAGAnswer request
            = Throw (AppError "No usable content found in search results" 404))
        /\ (used <> [] ->
            match complete systemPrompt (userPrompt (query request) context) with
            | CompletionContent (Some (String c s)) =>
                exists r,
                  generateRAGAnswer request = Return r
                  /\ answer r = String c s
                  /\ r_query r = query request
                  /\ r_namespace r = namespace request
            | _ =>
                generateRAGAnswer request
                = Throw (AppError "Failed to generate intelligent response" 500)
            end)).
  { intros sr Hsr used context. unfold generateRAGAnswer, answerBody. rewrite Hsr.
    split; [intros ->; reflexivity|]. split.
    - intros Hne Hused. destruct (matches sr) as [|m ms] eqn:Em; [congruence|].
      change (length (m :: ms) =? 0)%nat with false. cbv iota.
      fold used. rewrite Hused. reflexivity.
    - intros Hused.
      assert (Hne : matches sr <> []).
      { intros Heq. apply Hused. unfold used. now rewrite Heq. }
      destruct (matches sr) as [|m ms] eqn:Em; [congruence|].
      change (length (m :: ms) =? 0)%nat with false. cbv iota.
      fold used. rewrite length_imap.
      destruct used as [|u us] eqn:Eu; [congruence|].
      change (length (u :: us) =? 0)%nat with false. cbv iota.
      fold context.
      destruct (complete systemPrompt (userPrompt (query request) context))
        as [|[[|c s]|]]; try reflexivity.
      cbn [truthyStr truthy]. eexists. split; [reflexivity|]. simpl. auto. }
  split; [|split; [|split; [exact Hsearch | exact Hret]]].
  - destruct (performVectorSearch (searchRequestOf request)) as [sr|e|] eqn:Es.
    + destruct (Hret sr eq_refl) as (H0 & H1 & H2).
      destruct (matches sr) as [|m ms] eqn:Em; [rewrite H0 by reflexivity; discriminate|].
      destruct (usedMatches (m :: ms)) as [|u us] eqn:Eu;
        [rewrite H1 by (reflexivity || discriminate); discriminate|].
      specialize (H2 ltac:(discriminate)).
      destruct (complete _ _) as [|[[|c s]|]]; try (rewrite H2; discriminate).
      destruct H2 as (r & -> & _). discriminate.
    + rewrite (Hsearch e eq_refl). discriminate.
    + now apply performVectorSearch_returns_or_throws in Es.
  - intros Hq. apply (Hsearch (AppError "Failed to perform vector search" 500)).
    unfold performVectorSearch, searchBody, generateQueryEmbedding.
    cbn [searchRequestOf query]. rewrite Hq. reflexivity.
Qed.

End WithProviders.

Lemma generateRAGAnswer_outcomes_witness :
  (exists r,
     @generateRAGAnswer Fixture.twoMatches Fixture.question = Return r
     /\ answer r = "Run the installer (Source 1).")
  /\ @generateRAGAnswer Fixture.emptyMatchList Fixture.question
     = Throw (AppError "No relevant information found in the knowledge base" 404)
  /\ @generateRAGAnswer Fixture.noMatchList Fixture.question
     = Throw (AppError "Failed to perform vector search" 500).
Proof.
  split; [|split].
  - destruct (@generateRAGAnswer_outcomes Fixture.twoMatches Fixture.question)
      as (_ & _ & _ & Hret).
    destruct (Hret _ eq_refl) as (_ & _ & Hused).
    destruct (Hused ltac:(vm_compute; discriminate)) as (r & Hr & Ha & _).
    exists r. split; [exact Hr | exact Ha].
  - destruct (@generateRAGAnswer_outcomes Fixture.emptyMatchList Fixture.question)
      as (_ & _ & _ & Hret).
    destruct (Hret _ eq_refl) as (Hempty & _). apply Hempty. reflexivity.
  - destruct (@generateRAGAnswer_outcomes Fixture.noMatchList Fixture.question)
      as (_ & _ & Hthrow & _).
    apply (Hthrow (AppError "Failed to perform vector search" 500)). reflexivity.
Defined.

End RAGOutcomeFacts.

(** ** Users *)

Module UsersFacts.

Import JS JSFacts Users UserPages.

Lemma ceilDiv_pos (a b : Z) : 0 < b -> ceilDiv a b = Finite (- ((- a) / b)).
Proof.
  intros Hb. unfold ceilDiv.
  destruct (b =? 0) eqn:E; [apply Z.eqb_eq in E; lia|].
  f_equal. destruct b as [|p|p]; try lia.
  unfold Qceiling, Qfloor, Qdiv, Qinv, Qmult, Qopp, inject_Z. cbn [Qnum Qden].
  rewrite Z.mul_1_r, Pos.mul_1_l. reflexivity.
Qed.

Lemma ceilDiv_bounds (a b : Z) :
  0 < b ->
  exists n, ceilDiv a b = Finite n /\ (n - 1) * b < a <= n * b.
Proof.
  intros Hb. rewrite ceilDiv_pos by assumption. eexists. split; [reflexivity|].
  pose proof (Z.div_mod (- a) b ltac:(lia)) as Hdm.
  pose proof (Z.mod_pos_bound (- a) b Hb) as Hm.
  nia.
Qed.

Lemma getPaginationMeta_bounds (currentPage totalItems itemsPerPage : Z) :
  0 < itemsPerPage ->
  let meta := getPaginationMeta currentPage totalItems itemsPerPage in
  exists n,
    totalPages meta = Finite n
    /\ (n - 1) * itemsPerPage < totalItems <= n * itemsPerPage
    /\ (hasNextPage meta = true <-> currentPage * itemsPerPage < totalItems).
Proof.
  intros Hper meta. destruct (ceilDiv_bounds totalItems itemsPerPage Hper) as (n & Hn & Hb).
  exists n. unfold meta, getPaginationMeta. cbn [totalPages hasNextPage].
  rewrite Hn. split; [reflexivity|]. split; [exact Hb|]. cbn [ltQuotient].
  rewrite !Z.ltb_lt. split; intros Hlt; nia.
Qed.

(** X19. [getPaginationMeta] for a positive page size: [totalPages] is the
    least number of pages that hold all items, there is a next page exactly
    when items lie beyond the current page, and a previous page exactly when
    the current page is above 1. *)
Theorem getPaginationMeta_pages (currentPage totalItems itemsPerPage : Z) :
  0 < itemsPerPage ->
  let meta := getPaginationMeta currentPage totalItems itemsPerPage in
  exists n,
    totalPages meta = Finite n
    /\ (n - 1) * itemsPerPage < totalItems <= n * itemsPerPage
    /\ (hasNextPage meta = true <-> currentPage * itemsPerPage < totalItems)
    /\ (hasPrevPage meta = true <-> 1 < currentPage).
Proof.
  intros Hper meta. destruct (ceilDiv_bounds totalItems itemsPerPage Hper) as (n & Hn & Hb).
  exists n. unfold meta, getPaginationMeta. cbn [totalPages hasNextPage hasPrevPage].
  rewrite Hn. split; [reflexivity|]. split; [exact Hb|]. cbn [ltQuotient].
  rewrite !Z.ltb_lt. split; [|reflexivity]. split; intros Hlt; nia.
Qed.

Lemma getPaginationMeta_pages_witness :
  let meta := getPaginationMeta 2 25 10 in
  totalPages meta = Finite 3 /\ hasNextPage meta = true /\ hasPrevPage meta = true
  /\ exists n, totalPages meta = Finite n /\ (n - 1) * 10 < 25 <= n * 10.
Proof.
  intros meta. split; [reflexivity|]. split; [reflexivity|]. split; [reflexivity|].
  destruct (getPaginationMeta_pages 2 25 10 ltac:(lia)) as (n & Hn & Hb & _).
  exists n. split; [exact Hn | exact Hb].
Defined.

Lemma slice_page {A} (xs : list A) (page limit : Z) :
  1 <= page -> 1 <= limit ->
  slice xs ((page - 1) * limit) ((page - 1) * limit + limit)
  = take (Z.to_nat limit) (drop (Z.to_nat ((page - 1) * limit)) xs).
Proof.
  intros Hp Hl.
  unfold slice. rewrite !rel_index_nonneg by nia.
  rewrite Z2Nat.inj_add by nia.
  set (i := Z.to_nat ((page - 1) * limit)). set (n := Z.to_nat limit).
  destruct (decide (i <= length xs)%nat) as [Hi|Hi].
  - rewrite (Nat.min_l i) by lia.
    destruct (decide (i + n <= length xs)%nat) as [Hn|Hn].
    + rewrite Nat.min_l by lia. f_equal. lia.
    + rewrite Nat.min_r by lia. rewrite !take_ge; [reflexivity|..];
        rewrite length_drop; lia.
  - rewrite !drop_ge by lia. now rewrite !take_nil.
Qed.

Lemma take_add {A} (a b : nat) : forall xs : list A,
  take (a + b) xs = take a xs ++ take b (drop a xs).
Proof.
  induction a as [|a IH]; intros xs; [reflexivity|].
  destruct xs as [|x xs]; [simpl; now rewrite take_nil|].
  simpl. now rewrite IH.
Qed.

Lemma concat_pages {A} (xs : list A) (l : nat) : forall n,
  concat (map (fun k => take l (drop (k * l) xs)) (seq 0 n)) = take (n * l) xs.
Proof.
  induction n as [|n IH]; [reflexivity|].
  rewrite seq_S, map_app, concat_app, IH. cbn [map concat plus]. rewrite app_nil_r.
  replace (S n * l)%nat with (n * l + l)%nat by lia. now rewrite take_add.
Qed.

Section WithRuntime.
Context `{Runtime}.

Lemma getAllUsers_run page limit sortBy sortOrder s :
  getAllUsers page limit sortBy sortOrder s
  = (s, Return (slice (sortUsers sortBy sortOrder (users s)) ((page - 1) * limit)
                  ((page - 1) * limit + limit),
                getPaginationMeta page (Z.of_nat (length (users s))) limit)).
Proof. reflexivity. Qed.

Lemma pageOf_take page limit sortBy sortOrder s :
  1 <= page -> 1 <= limit ->
  pageOf page limit sortBy sortOrder s
  = take (Z.to_nat limit)
      (drop (Z.to_nat ((page - 1) * limit)) (sortUsers sortBy sortOrder (users s))).
Proof.
  intros Hp Hl. unfold pageOf. rewrite getAllUsers_run. now apply slice_page.
Qed.

(** X20. Paging through the users. For a page number and a page size of at
    least 1, [getAllUsers] leaves the store as it is and never fails; a page
    holds at most [limit] users; [hasNextPage] says exactly whether the next
    page holds a user; and the pages 1 to [totalPages], one after the other,
    are the sorted list: every user of the store once. *)
Theorem getAllUsers_pages (page limit : Z) (sortBy : string) (sortOrder : SortOrder)
    (s : Store) :
  1 <= page -> 1 <= limit ->
  exists meta n,
    getAllUsers page limit sortBy sortOrder s
    = (s, Return (pageOf page limit sortBy sortOrder s, meta))
    /\ Z.of_nat (length (pageOf page limit sortBy sortOrder s)) <= limit
    /\ totalItems meta = Z.of_nat (length (users s))
    /\ (hasNextPage meta = true <-> pageOf (page + 1) limit sortBy sortOrder s <> [])
    /\ totalPages meta = Finite (Z.of_nat n)
    /\ concat (map (fun p => pageOf (Z.of_nat p) limit sortBy sortOrder s) (seq 1 n))
       = sortUsers sortBy sortOrder (users s)
    /\ Permutation
         (concat (map (fun p => pageOf (Z.of_nat p) limit sortBy sortOrder s) (seq 1 n)))
         (users s).
Proof.
  intros Hp Hl.
  set (sorted := sortUsers sortBy sortOrder (users s)).
  assert (Hlen : length sorted = length (users s))
    by apply Permutation_length, sortUsers_perm.
  destruct (getPaginationMeta_bounds page (Z.of_nat (length (users s))) limit ltac:(lia))
    as (n & Hn & Hb & Hnext).
  assert (Hn0 : 0 <= n) by nia.
  exists (getPaginationMeta page (Z.of_nat (length (users s))) limit), (Z.to_nat n).
  split; [unfold pageOf; now rewrite getAllUsers_run|].
  split; [rewrite pageOf_take by assumption; rewrite length_take; lia|].
  split; [reflexivity|].
  split.
  { rewrite Hnext, pageOf_take by lia. fold sorted.
    replace (page + 1 - 1) with page by lia.
    split.
    - intros Hlt Hnil.
      apply (f_equal length) in Hnil. rewrite length_take, length_drop in Hnil.
      simpl in Hnil. nia.
    - intros Hne. destruct (decide (page * limit < Z.of_nat (length (users s)))); [assumption|].
      exfalso. apply Hne. rewrite drop_ge by nia. apply take_nil. }
  split; [now rewrite Z2Nat.id|].
  assert (Hcat : concat (map (fun p => pageOf (Z.of_nat p) limit sortBy sortOrder s)
                           (seq 1 (Z.to_nat n))) = sorted).
  { rewrite <- fmap_S_seq. change (map ?f (S <$> ?l)) with (map f (map S l)).
    rewrite map_map.
    rewrite (map_ext _ (fun k => take (Z.to_nat limit) (drop (k * Z.to_nat limit) sorted))).
    - rewrite concat_pages. apply take_ge. nia.
    - intros k. rewrite pageOf_take by lia. fold sorted. do 2 f_equal. nia. }
  split; [exact Hcat|]. rewrite Hcat. apply sortUsers_perm.
Qed.

(** *** Ids *)

Lemma charAt_chars (i : nat) :
  (i < 62)%nat ->
  exists c, charAt chars i = String c "" /\ is_alnum c = true.
Proof.
  intros Hi. unfold charAt.
  do 62 (destruct i as [|i]; [eexists; split; reflexivity|]). lia.
Qed.

Lemma randomChars_spec n : forall k result,
  String.length (randomChars n k result) = (String.length result + n)%nat
  /\ (allChars is_alnum result -> allChars is_alnum (randomChars n k result)).
Proof.
  induction n as [|n IH]; intros k result; simpl.
  - split; [lia | auto].
  - destruct (charAt_chars (randomIndex k) (randomIndex_lt k)) as (c & -> & Hc).
    destruct (IH (S k) (result +:+ String c "")) as [Hlen Hall].
    split.
    + rewrite Hlen, VectorFacts.length_app_string. simpl. lia.
    + intros Hres. apply Hall. unfold allChars in *.
      clear -Hres Hc. induction result as [|a r IHr]; simpl.
      * repeat constructor. exact Hc.
      * inversion Hres; subst. constructor; auto.
Qed.

(** *** The lookups *)

Lemma list_find_email_None (email' : string) (us : list User) :
  list_find (fun user => email user = email') us = None <-> email' ∉ map email us.
Proof.
  rewrite list_find_None, Forall_forall. split.
  - intros Hall Hin. apply list_elem_of_In, in_map_iff in Hin as (u & Hu & Hin).
    apply (Hall u); [now apply list_elem_of_In | assumption].
  - intros Hnin u Hu Heq. apply Hnin. rewrite <- Heq.
    apply list_elem_of_In, in_map, list_elem_of_In, Hu.
Qed.

Lemma list_find_id_None (id' : string) (us : list User) :
  list_find (fun user => id user = id') us = None <-> id' ∉ map id us.
Proof.
  rewrite list_find_None, Forall_forall. split.
  - intros Hall Hin. apply list_elem_of_In, in_map_iff in Hin as (u & Hu & Hin).
    apply (Hall u); [now apply list_elem_of_In | assumption].
  - intros Hnin u Hu Heq. apply Hnin. rewrite <- Heq.
    apply list_elem_of_In, in_map, list_elem_of_In, Hu.
Qed.

Lemma getUserById_run id' s :
  getUserById id' s
  = match list_find (fun user => id user = id') (users s) with
    | Some (_, user) => (s, Return user)
    | None => (s, Throw (AppError "User not found" 404))
    end.
Proof.
  unfold getUserById, tryCatch, bind, findById.
  destruct (list_find _ (users s)) as [[i u]|]; reflexivity.
Qed.

Lemma createUser_run userData s :
  createUser userData s
  = match list_find (fun user => email user = c_email userData) (users s) with
    | Some _ => (s, Throw (AppError "Email already exists" 409))
    | None =>
        let newUser :=
          {| id := randomChars 12 (draws s) "";
             email := c_email userData;
             firstName := c_firstName userData;
             lastName := c_lastName userData;
             createdAt := newDate (dateReads s);
             updatedAt := newDate (S (dateReads s)) |} in
        ({| users := users s ++ [newUser]; draws := (draws s + 12)%nat;
            dateReads := S (S (dateReads s)) |},
         Return newUser)
    end.
Proof.
  unfold createUser, tryCatch, bind, findByEmail.
  destruct (list_find _ (users s)) as [[i u]|]; reflexivity.
Qed.

(** X21. [createUser] refuses an email that a user of the store has, with
    [Email already exists], status 409, and leaves the store as it is.
    Otherwise it appends one user with the names and the email of the request
    and an id of 12 letters and digits; the password is not kept. The id is
    drawn at random and not compared with the ids in use: [getUserById] finds
    the new user by it when no older user has the same id. *)
Theorem createUser_outcomes (userData : CreateUserRequest) (s : Store) :
  (c_email userData ∈ map email (users s) ->
   createUser userData s = (s, Throw (AppError "Email already exists" 409)))
  /\ (c_email userData ∉ map email (users s) ->
      exists user s',
        createUser userData s = (s', Return user)
        /\ users s' = users s ++ [user]
        /\ email user = c_email userData
        /\ firstName user = c_firstName userData
        /\ lastName user = c_lastName userData
        /\ String.length (id user) = 12%nat
        /\ allChars is_alnum (id user)
        /\ (id user ∉ map id (users s) -> getUserById (id user) s' = (s', Return user))).
Proof.
  rewrite createUser_run. split.
  - intros Hin. destruct (list_find _ (users s)) as [[i u]|] eqn:E; [reflexivity|].
    apply list_find_email_None in E. contradiction.
  - intros Hnin. apply list_find_email_None in Hnin. rewrite Hnin. cbv zeta.
    eexists. eexists. split; [reflexivity|]. cbn [users id email firstName lastName].
    split; [reflexivity|]. split; [reflexivity|]. split; [reflexivity|].
    split; [reflexivity|].
    destruct (randomChars_spec 12 (draws s) "") as [Hlen Hall].
    split; [exact Hlen|]. split; [apply Hall; constructor|].
    intros Hfresh. rewrite getUserById_run. cbn [users].
    apply list_find_id_None in Hfresh.
    rewrite list_find_app_r by assumption. cbn [list_find id].
    rewrite decide_True by reflexivity. reflexivity.
Qed.

Lemma existsb_email (email' : string) (us : list User) :
  existsb (fun user => String.eqb (email user) email') us = true <-> email' ∈ map email us.
Proof.
  rewrite existsb_exists. split.
  - intros (u & Hin & Heq). apply String.eqb_eq in Heq. subst.
    apply list_elem_of_In, in_map, Hin.
  - intros Hin. apply list_elem_of_In, in_map_iff in Hin as (u & Heq & Hin).
    exists u. split; [assumption | now apply String.eqb_eq].
Qed.

(** The email check of [updateUser]: the new email is given, not empty,
    not the user's own and in use. *)
Lemma updateUser_run id' updateData s :
  updateUser id' updateData s
  = match list_find (fun user => id user = id') (users s) with
    | None => (s, Throw (AppError "User not found" 404))
    | Some (userIndex, existingUser) =>
        if match u_email updateData with
           | Some email' =>
               truthy email' && negb (String.eqb email' (email existingUser))
               && existsb (fun user => String.eqb (email user) email') (users s)
           | None => false
           end
        then (s, Throw (AppError "Email already exists" 409))
        else
          let updatedUser :=
            {| id := id existingUser;
               email := default (email existingUser) (u_email updateData);
               firstName := default (firstName existingUser) (u_firstName updateData);
               lastName := default (lastName existingUser) (u_lastName updateData);
               createdAt := createdAt existingUser;
               updatedAt := newDate (dateReads s) |} in
          ({| users := <[userIndex := updatedUser]> (users s); draws := draws s;
              dateReads := S (dateReads s) |},
           Return updatedUser)
    end.
Proof.
  unfold updateUser, tryCatch, bind, findById, updateById, emailExists, date, ret, throw,
    rethrow.
  destruct (list_find _ (users s)) as [[i u]|] eqn:E; [|reflexivity].
  cbn [fmap option_fmap option_map snd].
  destruct (u_email updateData) as [e|].
  - destruct (truthy e && negb (String.eqb e (email u))) eqn:Ec; cbn [andb].
    + destruct (existsb _ (users s)); [reflexivity|]. rewrite E. reflexivity.
    + rewrite E. reflexivity.
  - rewrite E. reflexivity.
Qed.

Lemma deleteUser_run id' s :
  deleteUser id' s
  = match list_find (fun user => id user = id') (users s) with
    | None => (s, Throw (AppError "User not found" 404))
    | Some (userIndex, _) =>
        ({| users := delete userIndex (users s); draws := draws s;
            dateReads := dateReads s |},
         Return tt)
    end.
Proof.
  unfold deleteUser, tryCatch, bind, findById, deleteById.
  destruct (list_find _ (users s)) as [[i u]|] eqn:E; [|reflexivity].
  cbn [fmap option_fmap option_map snd]. rewrite E. reflexivity.
Qed.

(** X22. [updateUser] fails with [User not found], status 404, for an id
    that no user has, and with [Email already exists], status 409, when the
    request gives a non-empty email other than the user's own that a user of
    the store has; the store is then as before. Otherwise it replaces the
    first user with the id: the given fields are taken from the request, the
    id and the creation date stay. It never fails with status 500. *)
Theorem updateUser_outcomes (id' : string) (updateData : UpdateUserRequest) (s : Store) :
  (id' ∉ map id (users s) ->
   updateUser id' updateData s = (s, Throw (AppError "User not found" 404)))
  /\ (forall userIndex existingUser,
        list_find (fun user => id user = id') (users s) = Some (userIndex, existingUser) ->
        (forall email',
           u_email updateData = Some email' ->
           email' <> "" -> email' <> email existingUser ->
           email' ∈ map email (users s) ->
           updateUser id' updateData s = (s, Throw (AppError "Email already exists" 409)))
        /\ ((forall email',
               u_email updateData = Some email' ->
               email' = "" \/ email' = email existingUser
               \/ email' ∉ map email (users s)) ->
            exists updatedUser s',
              updateUser id' updateData s = (s', Return updatedUser)
              /\ users s' = <[userIndex := updatedUser]> (users s)
              /\ id updatedUser = id'
              /\ createdAt updatedUser = createdAt existingUser
              /\ email updatedUser = default (email existingUser) (u_email updateData)
              /\ firstName updatedUser
                 = default (firstName existingUser) (u_firstName updateData)
              /\ lastName updatedUser
                 = default (lastName existingUser) (u_lastName updateData)))
  /\ (forall message, (updateUser id' updateData s).2 <> Throw (AppError message 500)).
Proof.
  rewrite updateUser_run. split; [|split].
  - intros Hnin. apply list_find_id_None in Hnin. now rewrite Hnin.
  - intros i u Hfind. rewrite Hfind. split.
    + intros e He Hne Hown Hin. rewrite He.
      apply existsb_email in Hin. rewrite Hin.
      destruct e; [congruence|]. apply String.eqb_neq in Hown. rewrite Hown. reflexivity.
    + intros Hfree.
      assert (Hcheck : match u_email updateData with
                       | Some email' =>
                           truthy email' && negb (String.eqb email' (email u))
                           && existsb (fun user => String.eqb (email user) email') (users s)
                       | None => false
                       end = false).
      { destruct (u_email updateData) as [e|]; [|reflexivity].
        destruct (Hfree e eq_refl) as [->|[->|Hnin]]; [reflexivity| |].
        - rewrite String.eqb_refl. now rewrite andb_false_r.
        - destruct (existsb _ (users s)) eqn:Ex; [|now rewrite andb_false_r].
          apply existsb_email in Ex. contradiction. }
      rewrite Hcheck. cbv zeta. eexists. eexists. split; [reflexivity|].
      cbn [users id createdAt email firstName lastName].
      apply list_find_Some in Hfind as (_ & Hid & _).
      repeat (split; [reflexivity || assumption|]). reflexivity.
  - intros message. destruct (list_find _ (users s)) as [[i u]|]; [|discriminate].
    destruct (match u_email updateData with Some _ => _ | None => _ end); discriminate.
Qed.

(** X23. [deleteUser] fails with [User not found], status 404, for an id
    that no user has, and otherwise removes the first user with the id and
    nothing else; when the ids of the store are distinct the id is not found
    afterwards. It never fails with status 500. *)
Theorem deleteUser_outcomes (id' : string) (s : Store) :
  (id' ∉ map id (users s) ->
   deleteUser id' s = (s, Throw (AppError "User not found" 404)))
  /\ (forall userIndex existingUser,
        list_find (fun user => id user = id') (users s) = Some (userIndex, existingUser) ->
        exists s',
          deleteUser id' s = (s', Return tt)
          /\ users s' = delete userIndex (users s)
          /\ S (length (users s')) = length (users s)
          /\ (NoDup (map id (users s)) ->
              getUserById id' s' = (s', Throw (AppError "User not found" 404))))
  /\ (forall message, (deleteUser id' s).2 <> Throw (AppError message 500)).
Proof.
  rewrite deleteUser_run. split; [|split].
  - intros Hnin. apply list_find_id_None in Hnin. now rewrite Hnin.
  - intros i u Hfind. rewrite Hfind. eexists. split; [reflexivity|]. cbn [users].
    apply list_find_Some in Hfind as (Hi & Hid & Hfirst).
    split; [reflexivity|]. split.
    { rewrite length_delete by eauto. pose proof (lookup_lt_Some _ _ _ Hi). lia. }
    intros Hnd. rewrite getUserById_run. cbn [users].
    assert (Hnin : id' ∉ map id (delete i (users s))).
    { rewrite <- (take_drop_middle _ _ _ Hi) in Hnd.
      rewrite delete_take_drop. rewrite map_app in *. cbn [map] in Hnd.
      apply NoDup_app in Hnd as (_ & Hdis & Hnd). apply NoDup_cons in Hnd as [Hnin _].
      rewrite Hid in *. intros Hin. apply elem_of_app in Hin as [Hin|Hin].
      - apply (Hdis id' Hin). left.
      - contradiction. }
    apply list_find_id_None in Hnin. now rewrite Hnin.
  - intros message. destruct (list_find _ (users s)) as [[i u]|]; discriminate.
Qed.

Lemma elem_of_insert_inv {A} (x y : A) : forall (l : list A) (i : nat),
  y ∈ <[i := x]> l -> y = x \/ y ∈ l.
Proof.
  induction l as [|z l IH]; intros i Hin; [inversion Hin|].
  destruct i as [|i]; simpl in Hin; apply elem_of_cons in Hin as [->|Hin].
  - now left.
  - right. now right.
  - right. left.
  - destruct (IH i Hin) as [->|Hl]; [now left | right; now right].
Qed.

Lemma NoDup_insert_fresh {A} (x : A) : forall (l : list A) (i : nat),
  NoDup l -> x ∉ l -> NoDup (<[i := x]> l).
Proof.
  induction l as [|y l IH]; intros i Hnd Hx; [constructor|].
  apply NoDup_cons in Hnd as [Hy Hnd].
  apply not_elem_of_cons in Hx as [Hxy Hx].
  destruct i as [|i]; simpl.
  - apply NoDup_cons. split; assumption.
  - apply NoDup_cons. split; [|now apply IH].
    intros Hin. apply elem_of_insert_inv in Hin as [->|Hin]; contradiction.
Qed.

Lemma NoDup_delete {A} (l : list A) (i : nat) : NoDup l -> NoDup (delete i l).
Proof.
  intros Hnd. eapply sublist_NoDup; [exact Hnd | apply sublist_delete].
Qed.

(** X24. One call at a time, the service keeps the emails of the store
    distinct: [createUser] and [deleteUser] always do, [updateUser] does for
    any request whose email is not the empty string, and [getAllUsers] and
    [getUserById] leave the store as it is. *)
Theorem emails_stay_unique (s : Store) :
  NoDup (map email (users s)) ->
  (forall userData, NoDup (map email (users (createUser userData s).1)))
  /\ (forall id', NoDup (map email (users (deleteUser id' s).1)))
  /\ (forall id' updateData,
        u_email updateData <> Some "" ->
        NoDup (map email (users (updateUser id' updateData s).1)))
  /\ (forall page limit sortBy sortOrder, (getAllUsers page limit sortBy sortOrder s).1 = s)
  /\ (forall id', (getUserById id' s).1 = s).
Proof.
  intros Hnd. split; [|split; [|split; [|split]]].
  - intros userData. rewrite createUser_run.
    destruct (list_find _ (users s)) as [[i u]|] eqn:E; [exact Hnd|].
    apply list_find_email_None in E. cbv zeta. cbn [fst users].
    rewrite map_app. cbn [map email]. apply NoDup_app. split; [assumption|].
    split; [|apply NoDup_singleton].
    intros e He Hin. apply list_elem_of_singleton in Hin. subst. contradiction.
  - intros id'. rewrite deleteUser_run.
    destruct (list_find _ (users s)) as [[i u]|]; [|exact Hnd]. cbn [fst users].
    change (map email (delete i (users s))) with (email <$> delete i (users s)).
    rewrite list_fmap_delete. now apply NoDup_delete.
  - intros id' updateData Hemail. rewrite updateUser_run.
    destruct (list_find _ (users s)) as [[i u]|] eqn:E; [|exact Hnd].
    apply list_find_Some in E as (Hi & _ & _).
    destruct (match u_email updateData with Some _ => _ | None => _ end) eqn:Ec;
      [exact Hnd|].
    cbv zeta. cbn [fst users].
    change (map email (<[i := ?x]> (users s))) with (email <$> <[i := x]> (users s)).
    rewrite list_fmap_insert. cbn [email].
    assert (Hown : (email <$> users s) !! i = Some (email u))
      by (rewrite list_lookup_fmap, Hi; reflexivity).
    destruct (u_email updateData) as [e|]; cbn [default];
      [|rewrite list_insert_id by assumption; exact Hnd].
    destruct e as [|c e]; [congruence|]. cbn [truthy andb] in Ec.
    destruct (String.eqb (String c e) (email u)) eqn:Eo.
    + apply String.eqb_eq in Eo. rewrite Eo.
      rewrite list_insert_id by assumption. exact Hnd.
    + cbn [negb andb] in Ec. apply NoDup_insert_fresh; [exact Hnd|].
      intros Hin. apply existsb_email in Hin.
      change (existsb (fun user => String.eqb (email user) (String c e)) (users s) = true)
        in Hin.
      congruence.
  - reflexivity.
  - intros id'. rewrite getUserById_run.
    destruct (list_find _ (users s)) as [[i u]|]; reflexivity.
Qed.

End WithRuntime.

#[local] Existing Instance UserFixture.runtime.

Lemma getAllUsers_pages_witness :
  map (fun p => map id (@pageOf UserFixture.runtime p 2 "createdAt" Desc
                          UserFixture.fiveUsers)) [1; 2; 3; 4]
  = [["eve"; "dee"]; ["cy"; "bob"]; ["ann"]; []]
  /\ exists meta n,
       @getAllUsers UserFixture.runtime 3 2 "createdAt" Desc UserFixture.fiveUsers
       = (UserFixture.fiveUsers,
          Return (@pageOf UserFixture.runtime 3 2 "createdAt" Desc UserFixture.fiveUsers, meta))
       /\ totalPages meta = Finite (Z.of_nat n)
       /\ hasNextPage meta = false.
Proof.
  split; [reflexivity|].
  destruct (@getAllUsers_pages UserFixture.runtime 3 2 "createdAt" Desc UserFixture.fiveUsers)
    as (meta & n & Hrun & _ & _ & Hnext & Hn & _); [lia | lia |].
  exists meta, n. split; [exact Hrun|]. split; [exact Hn|].
  destruct (hasNextPage meta); [|reflexivity].
  exfalso. apply (proj1 Hnext eq_refl). reflexivity.
Defined.

Lemma createUser_outcomes_witness :
  exists user s',
    @createUser UserFixture.runtime UserFixture.newcomer UserFixture.fiveUsers
    = (s', Return user)
    /\ map id (users s') = ["ann"; "bob"; "cy"; "dee"; "eve"; id user]
    /\ String.length (id user) = 12%nat
    /\ getUserById (id user) s' = (s', Return user).
Proof.
  destruct (@createUser_outcomes UserFixture.runtime UserFixture.newcomer
              UserFixture.fiveUsers) as [_ Hnew].
  destruct Hnew as (user & s' & Hrun & Husers & _ & _ & _ & Hlen & _ & Hget).
  - vm_compute. intros Hin. repeat (apply elem_of_cons in Hin as [Hin|Hin]; [discriminate|]).
    inversion Hin.
  - exists user, s'. split; [exact Hrun|].
    split; [rewrite Husers, map_app; reflexivity|]. split; [exact Hlen|].
    apply Hget. intros Hin. simpl in Hin.
    repeat (apply elem_of_cons in Hin as [Hin|Hin];
            [rewrite Hin in Hlen; vm_compute in Hlen; discriminate|]).
    inversion Hin.
Defined.

Lemma updateUser_outcomes_witness :
  @updateUser UserFixture.runtime "bob"
    {| u_email := Some "ann@example.com"; u_firstName := None; u_lastName := None |}
    UserFixture.fiveUsers
  = (UserFixture.fiveUsers, Throw (AppError "Email already exists" 409))
  /\ @updateUser UserFixture.runtime "zed"
       {| u_email := None; u_firstName := Some "Zed"; u_lastName := None |}
       UserFixture.fiveUsers
     = (UserFixture.fiveUsers, Throw (AppError "User not found" 404)).
Proof.
  split.
  - destruct (@updateUser_outcomes UserFixture.runtime "bob"
                {| u_email := Some "ann@example.com"; u_firstName := None;
                   u_lastName := None |} UserFixture.fiveUsers) as (_ & Hfound & _).
    destruct (Hfound 1%nat (UserFixture.user 2 "bob") eq_refl) as [Htaken _].
    apply (Htaken "ann@example.com" eq_refl); [discriminate | discriminate |].
    vm_compute. apply list_elem_of_here.
  - destruct (@updateUser_outcomes UserFixture.runtime "zed"
                {| u_email := None; u_firstName := Some "Zed"; u_lastName := None |}
                UserFixture.fiveUsers) as (Hmissing & _).
    apply Hmissing. vm_compute. intros Hin.
    repeat (apply elem_of_cons in Hin as [Hin|Hin]; [discriminate|]). inversion Hin.
Defined.

Lemma deleteUser_outcomes_witness :
  exists s',
    deleteUser "cy" UserFixture.fiveUsers = (s', Return tt)
    /\ map id (users s') = ["ann"; "bob"; "dee"; "eve"]
    /\ getUserById "cy" s' = (s', Throw (AppError "User not found" 404)).
Proof.
  destruct (deleteUser_outcomes "cy" UserFixture.fiveUsers)
    as (_ & Hfound & _).
  destruct (Hfound 2%nat (UserFixture.user 3 "cy") eq_refl) as (s' & Hrun & Husers & _ & Hget).
  exists s'. split; [exact Hrun|]. split; [rewrite Husers; reflexivity|].
  apply Hget. vm_compute. repeat (constructor; [intros Hin;
    repeat (apply elem_of_cons in Hin as [Hin|Hin]; [discriminate|]); inversion Hin|]).
  constructor.
Defined.

Lemma emails_stay_unique_witness :
  NoDup (map email
           (users (@createUser UserFixture.runtime UserFixture.newcomer
                     UserFixture.fiveUsers).1)).
Proof.
  apply (@emails_stay_unique UserFixture.runtime UserFixture.fiveUsers).
  vm_compute. repeat (constructor; [intros Hin;
    repeat (apply elem_of_cons in Hin as [Hin|Hin]; [discriminate|]); inversion Hin|]).
  constructor.
Defined.

End UsersFacts.

(** ** From a request to stored vectors *)

Module ControllerFacts.

Import JS JSFacts Chunker ChunkerFacts Crawler CrawlerFacts CrawlOrderFacts Vector VectorRuns
  VectorRunFacts Controllers.

Section WithProviders.
Context `{UrlApi} `{Web} `{Scheduler} `{AppConfig} `{EmbeddingProvider} `{IndexProvider}
  `{Clock}.




End WithProviders.


End ControllerFacts.
